(** * Paperback: table-of-contents construction and text search

    A shallow embedding of the navigation helpers of Paperback:

    - [build_toc_from_headings] and [cleanup_toc] (utils.cpp),
    - [populate_toc_items] (rust_parser.cpp),
    - [find_text], [find_text_literal] and [find_text_regex] (utils.cpp).

    The C++ code builds the tree through raw pointers into vectors owned by
    [unique_ptr] nodes.  Such a pointer is modelled by the path of child
    indices that leads from the root vector to the vector it designates;
    every vector access that C++ leaves undefined when the index is out of
    range yields [None] here. *)

From Stdlib Require Import Ascii String List ZArith Lia Bool Arith Sorted.
Import ListNotations.

(** ** A small error monad: [None] is undefined behaviour or an exhausted
    iteration budget, depending on the function. *)

Definition obind {A B : Type} (x : option A) (k : A -> option B) : option B :=
  match x with
  | Some a => k a
  | None => None
  end.

Notation "x <- e ;; k" := (obind e (fun x => k))
  (at level 61, e at next level, right associativity).

(** ** Strings *)

(** A [wxString] is its sequence of characters. *)
Abbreviation wxString := (list ascii) (only parsing).

Definition wx (s : string) : wxString := list_ascii_of_string s.
Arguments wx s%_string.

Definition IsEmpty (s : wxString) : bool :=
  match s with
  | [] => true
  | _ :: _ => false
  end.

Fixpoint wxString_eqb (a b : wxString) : bool :=
  match a, b with
  | [], [] => true
  | x :: a', y :: b' => Ascii.eqb x y && wxString_eqb a' b'
  | _, _ => false
  end.

(** The character services of the C library and of wxWidgets that the code
    calls: they depend on the locale and are kept abstract. *)
Class wx_locale := {
  (** [wxIsalnum(c) != 0] *)
  wxIsalnum : ascii -> bool;
  (** the per-character conversion behind [wxString::Lower] and
      [wxString::CmpNoCase] *)
  wxTolower : ascii -> ascii;
  (** [wxString::ToStdString], the conversion to the locale's encoding *)
  ToStdString : wxString -> list ascii
}.

Section Strings.
Context {L : wx_locale}.

(** [wxString::Lower] *)
Definition Lower (s : wxString) : wxString := map wxTolower s.

(** [a.CmpNoCase(b) == 0]: the two strings agree once converted to lower
    case, character by character. *)
Definition CmpNoCase_is_zero (a b : wxString) : bool :=
  wxString_eqb (Lower a) (Lower b).

End Strings.

(** ** The data model *)

(** Modelled from the spec: [struct toc_item] is declared in document.hpp,
    which is not among the sources.  The fields are those the code reads
    and writes, the TocNode of the spec; a node owns its children. *)
#[warnings="-register-all"] Inductive toc_item : Type := mk_toc_item {
  name : wxString;
  ref : wxString;
  offset : Z;
  children : list toc_item
}.

Definition set_children (n : toc_item) (cs : list toc_item) : toc_item :=
  mk_toc_item (name n) (ref n) (offset n) cs.

(** Modelled from the spec: [struct marker] is declared in
    document_buffer.hpp, which is not among the sources.  The fields are
    those the builder reads, the heading event of the spec. *)
Record marker := mk_marker {
  text : wxString;
  pos : Z;
  level : Z
}.

(** Modelled from the spec: [struct FfiTocItem] comes from the generated
    bridge header, which is not among the sources.  The fields are
    [name], [reference], [offset] and [depth], the flat entry of the
    spec. *)
Record FfiTocItem := mk_FfiTocItem {
  ffi_name : wxString;
  ffi_reference : wxString;
  ffi_offset : Z;
  ffi_depth : Z
}.

(** [static_cast<int>] of a buffer position: reduction to 32 bits, signed. *)
Definition static_cast_int (z : Z) : Z :=
  (z + 2 ^ 31) mod 2 ^ 32 - 2 ^ 31.

(** ** Pointers to child vectors *)

(** A [std::vector<std::unique_ptr<toc_item>>*].  [[]] is the address of
    the root vector; [p ++ [i]] is [&v[i]->children] for the vector [v] at
    [p].  The vectors only grow at their end during a build and the nodes
    live on the heap, so a path keeps designating the same vector. *)
Abbreviation list_ptr := (list nat) (only parsing).

(** The vector a pointer designates, if it designates one. *)
Fixpoint deref (F : list toc_item) (p : list_ptr) : option (list toc_item) :=
  match p with
  | [] => Some F
  | i :: p' =>
      match nth_error F i with
      | Some n => deref (children n) p'
      | None => None
      end
  end.

(** [F] with its element of index [i] replaced by [x]. *)
Definition replace_nth {A : Type} (i : nat) (x : A) (F : list A) : list A :=
  firstn i F ++ x :: skipn (S i) F.
Arguments replace_nth : simpl never.

(** [p->push_back(std::move(item))] *)
Fixpoint push_back_at (F : list toc_item) (p : list_ptr) (item : toc_item)
  : option (list toc_item) :=
  match p with
  | [] => Some (F ++ [item])
  | i :: p' =>
      match nth_error F i with
      | Some n =>
          cs <- push_back_at (children n) p' item ;;
          Some (replace_nth i (set_children n cs) F)
      | None => None
      end
  end.

(** [&p->back()->children]; [back()] of an empty vector is undefined. *)
Definition back_children (F : list toc_item) (p : list_ptr) : option list_ptr :=
  v <- deref F p ;;
  match v with
  | [] => None
  | _ :: _ => Some (p ++ [length v - 1])
  end.

(** ** Vectors of slots *)

Abbreviation slots := (list (option (list nat))) (only parsing).

(** [v[i]] as an rvalue; out of range is undefined. *)
Definition vec_get (v : slots) (i : nat) : option (option list_ptr) :=
  nth_error v i.

(** [v[i] = x]; out of range is undefined. *)
Fixpoint vec_set (v : slots) (i : nat) (x : option list_ptr) : option slots :=
  match v, i with
  | [], _ => None
  | _ :: v', 0 => Some (x :: v')
  | y :: v', S i' => v'' <- vec_set v' i' x ;; Some (y :: v'')
  end.

(** [for (int i = from; i >= 0; --i) if (v[i] != nullptr) { parent_list = v[i]; break; }]
    started at a non-negative index: the result is the pointer found, or
    [nullptr] ([Some None]) when the loop runs out. *)
Fixpoint scan_down (v : slots) (i : nat) : option (option list_ptr) :=
  match vec_get v i with
  | None => None
  | Some (Some p) => Some (Some p)
  | Some None =>
      match i with
      | 0 => Some None
      | S i' => scan_down v i'
      end
  end.

(** The same loop for an [int] start: no iteration below zero. *)
Definition scan_from (v : slots) (from : Z) : option (option list_ptr) :=
  if (from <? 0)%Z then Some None else scan_down v (Z.to_nat from).

(** [for (int i = from; i < from + count; ++i) v[i] = nullptr;] *)
Fixpoint clear_loop (count : nat) (v : slots) (from : nat) : option slots :=
  match count with
  | 0 => Some v
  | S c => v' <- vec_set v from None ;; clear_loop c v' (S from)
  end.

(** The state of a build: the result vector and the array of open levels. *)
Record builder_state := mk_builder_state {
  result : list toc_item;
  stacks : slots
}.

(** ** build_toc_from_headings *)

Section Headings.

(** [MAX_HEADING_LEVELS] is declared in constants.hpp, which is not among
    the sources (the spec gives 6); the builder is embedded for any value
    of it. *)
Variable MAX_HEADING_LEVELS : nat.

Definition heading_in_range (m : marker) : bool :=
  negb ((level m <? 1)%Z || (level m >? Z.of_nat MAX_HEADING_LEVELS)%Z).

(** The body of the loop over the heading markers. *)
Definition heading_step (st : builder_state) (m : marker) : option builder_state :=
  let item := mk_toc_item (text m) [] (static_cast_int (pos m)) [] in
  let level := level m in
  if ((level <? 1)%Z || (level >? Z.of_nat MAX_HEADING_LEVELS)%Z) then
    Some st
  else
    found <- scan_from (stacks st) (level - 1) ;;
    let parent_list :=
      match found with
      | Some p => p
      | None => []
      end in
    res <- push_back_at (result st) parent_list item ;;
    child <- back_children res parent_list ;;
    s1 <- vec_set (stacks st) (Z.to_nat level) (Some child) ;;
    s2 <- clear_loop (MAX_HEADING_LEVELS + 1 - Z.to_nat (level + 1)) s1
            (Z.to_nat (level + 1)) ;;
    Some (mk_builder_state res s2).

Fixpoint heading_loop (st : builder_state) (ms : list marker) : option builder_state :=
  match ms with
  | [] => Some st
  | m :: ms' => st' <- heading_step st m ;; heading_loop st' ms'
  end.

Definition heading_init : option builder_state :=
  s <- vec_set (repeat None (MAX_HEADING_LEVELS + 1)) 0 (Some []) ;;
  Some (mk_builder_state [] s).

Definition build_toc_from_headings (heading_markers : list marker)
  : option (list toc_item) :=
  match heading_markers with
  | [] => Some []
  | _ :: _ =>
      st0 <- heading_init ;;
      st <- heading_loop st0 heading_markers ;;
      Some (result st)
  end.

End Headings.

(** ** populate_toc_items *)

Definition MAX_DEPTH : Z := 32.

Definition depth_in_range (e : FfiTocItem) : bool :=
  negb ((ffi_depth e <? 0)%Z || (ffi_depth e >? MAX_DEPTH)%Z).

(** The body of the loop over the flat entries. *)
Definition populate_step (st : builder_state) (rust_toc : FfiTocItem)
  : option builder_state :=
  let item := mk_toc_item (ffi_name rust_toc) (ffi_reference rust_toc)
                (ffi_offset rust_toc) [] in
  let depth := ffi_depth rust_toc in
  if ((depth <? 0)%Z || (depth >? MAX_DEPTH)%Z) then
    Some st
  else
    found <- scan_from (stacks st) depth ;;
    let parent_list :=
      match found with
      | Some p => p
      | None => []
      end in
    res <- push_back_at (result st) parent_list item ;;
    child <- back_children res parent_list ;;
    s1 <- vec_set (stacks st) (Z.to_nat (depth + 1)) (Some child) ;;
    s2 <- clear_loop (Z.to_nat (MAX_DEPTH + 1) - Z.to_nat (depth + 2)) s1
            (Z.to_nat (depth + 2)) ;;
    Some (mk_builder_state res s2).

Fixpoint populate_loop (st : builder_state) (es : list FfiTocItem)
  : option builder_state :=
  match es with
  | [] => Some st
  | e :: es' => st' <- populate_step st e ;; populate_loop st' es'
  end.

(** [toc_items] is the vector of the document being loaded; the function
    appends to it. *)
Definition populate_toc_items (toc_items : list toc_item)
  (ffi_toc_items : list FfiTocItem) : option (list toc_item) :=
  match ffi_toc_items with
  | [] => Some toc_items
  | _ :: _ =>
      s <- vec_set (repeat None (Z.to_nat (MAX_DEPTH + 1))) 0 (Some []) ;;
      st <- populate_loop (mk_builder_state toc_items s) ffi_toc_items ;;
      Some (result st)
  end.

(** ** Traversals used to state the properties *)

Definition label : Type := wxString * wxString * Z.

Definition label_of (n : toc_item) : label := (name n, ref n, offset n).

Fixpoint preorder_item (n : toc_item) : list label :=
  label_of n :: flat_map preorder_item (children n).

Definition preorder (F : list toc_item) : list label :=
  flat_map preorder_item F.

(** The common shape of the two loop bodies for an accepted event: look
    for the parent from slot [lvl - 1] downwards, append, open slot [lvl]
    and close the slots above it, in an array of [size] slots.  The two
    bodies are instances of it (lemmas [heading_step_attach] and
    [populate_step_attach]). *)
Definition attach (size : nat) (st : builder_state) (lvl : nat) (item : toc_item)
  : option builder_state :=
  found <- scan_down (stacks st) (lvl - 1) ;;
  let parent_list :=
    match found with
    | Some p => p
    | None => []
    end in
  res <- push_back_at (result st) parent_list item ;;
  child <- back_children res parent_list ;;
  s1 <- vec_set (stacks st) lvl (Some child) ;;
  s2 <- clear_loop (size - S lvl) s1 (S lvl) ;;
  Some (mk_builder_state res s2).

Fixpoint attach_loop (size : nat) (st : builder_state)
  (evs : list (nat * toc_item)) : option builder_state :=
  match evs with
  | [] => Some st
  | (lvl, item) :: evs' =>
      st' <- attach size st lvl item ;; attach_loop size st' evs'
  end.

(** ** cleanup_toc *)

Section Cleanup.
Context {L : wx_locale}.

(** The condition of the [if] at the head of the loop body. *)
Definition collapse_pred (item first_child : toc_item) : bool :=
  CmpNoCase_is_zero (name item) (name first_child)
  && (wxString_eqb (ref item) (ref first_child) || IsEmpty (ref item)).

(** The loop body up to the recursive call: the check on one item. *)
Definition collapse_check (item : toc_item) : toc_item :=
  match children item with
  | [] => item
  | first_child :: rest =>
      if collapse_pred item first_child then
        let adopt := IsEmpty (ref item) && negb (IsEmpty (ref first_child)) in
        let ref' := if adopt then ref first_child else ref item in
        let offset' := if adopt then offset first_child else offset item in
        let grandchildren := children first_child in
        mk_toc_item (name item) ref' offset' (grandchildren ++ rest)
      else item
  end.

(** The recursion of [cleanup_toc], bounded by a depth budget. *)
Fixpoint cleanup_toc_fuel (fuel : nat) (items : list toc_item) : list toc_item :=
  match fuel with
  | 0 => items
  | S fuel' =>
      map (fun item =>
             let item' := collapse_check item in
             set_children item' (cleanup_toc_fuel fuel' (children item')))
          items
  end.

Fixpoint height (n : toc_item) : nat :=
  S (fold_right (fun c h => Nat.max (height c) h) 0 (children n)).

Definition forest_height (F : list toc_item) : nat :=
  fold_right (fun c h => Nat.max (height c) h) 0 F.

(** [cleanup_toc]: the budget is the height of the forest, which the
    recursion never exceeds (lemma [cleanup_toc_unfold]). *)
Definition cleanup_toc (items : list toc_item) : list toc_item :=
  cleanup_toc_fuel (forest_height items) items.

End Cleanup.

(** ** Text search *)

(** [wxNOT_FOUND] of wx/defs.h *)
Definition wxNOT_FOUND : Z := -1.

(** Modelled from the spec: [enum class find_options] and [has_option]
    are declared in utils.hpp, which is not among the sources.  The
    options are four independent flags. *)
Record find_options := mk_find_options {
  forward : bool;
  match_case : bool;
  match_whole_word : bool;
  use_regex : bool
}.

(** The widths are those of an LP64 platform: [size_t] and [long] are 64
    bits wide. *)
Definition npos : Z := 2 ^ 64 - 1.

(** [static_cast<size_t>] *)
Definition to_size_t (z : Z) : Z := z mod 2 ^ 64.

(** [static_cast<long>] *)
Definition to_long (z : Z) : Z := (z + 2 ^ 63) mod 2 ^ 64 - 2 ^ 63.

Fixpoint starts_with (needle s : wxString) : bool :=
  match needle, s with
  | [], _ => true
  | x :: needle', y :: s' => Ascii.eqb x y && starts_with needle' s'
  | _ :: _, [] => false
  end.

(** The first occurrence of [needle] in [s], where [s] starts at offset
    [off] of the whole string. *)
Fixpoint find_at (s needle : wxString) (off : nat) : option nat :=
  if starts_with needle s then Some off
  else
    match s with
    | [] => None
    | _ :: s' => find_at s' needle (S off)
    end.

(** The last occurrence. *)
Fixpoint rfind_at (s needle : wxString) (off : nat) : option nat :=
  let later :=
    match s with
    | [] => None
    | _ :: s' => rfind_at s' needle (S off)
    end in
  match later with
  | Some p => Some p
  | None => if starts_with needle s then Some off else None
  end.

(** [s.find(needle, pos)], a [size_t] *)
Definition find (s needle : wxString) (pos : Z) : Z :=
  if (Z.of_nat (length s) <? pos)%Z then npos
  else
    match find_at (skipn (Z.to_nat pos) s) needle (Z.to_nat pos) with
    | Some p => Z.of_nat p
    | None => npos
    end.

(** [s.rfind(needle)], a [size_t] *)
Definition rfind (s needle : wxString) : Z :=
  match rfind_at s needle 0 with
  | Some p => Z.of_nat p
  | None => npos
  end.

(** [s.Left(count)]: the first [count] characters, all of [s] when it has
    fewer. *)
Definition Left (s : wxString) (count : Z) : wxString :=
  if (Z.of_nat (length s) <? count)%Z then s else firstn (Z.to_nat count) s.

(** [s[i]] for a [size_t] index; the callers guard the index. *)
Definition char_at (s : wxString) (i : Z) : ascii :=
  nth (Z.to_nat i) s zero.

Section Literal.
Context {L : wx_locale}.

Section Loop.
Variables (haystack needle search_haystack search_needle : wxString).
Variable forward : bool.

(** The [while (true)] loop of the whole-word search; [pos] is the [long]
    variable of that name at the head of the loop. *)
Fixpoint whole_word_loop (fuel : nat) (pos : Z) : option Z :=
  match fuel with
  | 0 => None
  | S fuel' =>
      let pos :=
        if forward
        then to_long (find search_haystack search_needle (to_size_t pos))
        else to_long (rfind (Left search_haystack (to_size_t pos)) search_needle) in
      if (pos =? wxNOT_FOUND)%Z then Some wxNOT_FOUND
      else
        let word_start :=
          if (pos =? 0)%Z then true
          else negb (wxIsalnum (char_at haystack (to_size_t (to_size_t pos - 1)))) in
        let word_end :=
          if (to_size_t (to_size_t pos + Z.of_nat (length needle))
                >=? Z.of_nat (length haystack))%Z
          then true
          else negb (wxIsalnum (char_at haystack
                       (to_size_t (to_size_t pos + Z.of_nat (length needle))))) in
        if word_start && word_end then Some pos
        else
          let pos := if forward then (pos + 1)%Z else (pos - 1)%Z in
          if forward && (to_size_t pos >=? Z.of_nat (length haystack))%Z
          then Some wxNOT_FOUND
          else if negb forward && (pos <? 0)%Z then Some wxNOT_FOUND
          else whole_word_loop fuel' pos
  end.

End Loop.

Definition find_text_literal (fuel : nat) (haystack needle : wxString)
  (start : Z) (options : find_options) : option Z :=
  let search_haystack := if match_case options then haystack else Lower haystack in
  let search_needle := if match_case options then needle else Lower needle in
  if negb (match_whole_word options) then
    Some (if forward options
          then to_long (find search_haystack search_needle (to_size_t start))
          else to_long (rfind (Left search_haystack (to_size_t start)) search_needle))
  else
    whole_word_loop haystack needle search_haystack search_needle
      (forward options) fuel start.

End Literal.

(** *** The regular-expression library *)

(** What [std::regex_search] reports: it throws, finds nothing, or fills in
    the bounds of the first match, as offsets into the text. *)
Inductive search_result :=
| SearchThrows
| NoMatch
| Match (first second : nat).

(** [std::regex] as the code uses it.  The constructor takes the pattern
    and the [icase] flag and may throw ([None]); [regex_search rx text
    first last] searches the characters [first .. last) of [text]. *)
Class regex_engine := {
  regex : Type;
  regex_ctor : list ascii -> bool -> option regex;
  regex_search : regex -> list ascii -> nat -> nat -> search_result
}.

(** The part of the contract of [std::regex_search] that the proofs rely
    on: a match lies inside the range searched. *)
Definition search_within_range (E : regex_engine) : Prop :=
  forall (rx : regex) text first last p q,
    regex_search rx text first last = Match p q ->
    first <= last -> first <= p /\ p <= q /\ q <= last.

Section Regex.
Context {L : wx_locale} {E : regex_engine}.

(** The loop of the backward search: [cur] and [end_] are offsets from
    [base]. *)
Fixpoint regex_backward_loop (fuel : nat) (rx : regex) (text : list ascii)
  (end_ : nat) (cur : nat) (last_match : Z) : option Z :=
  match fuel with
  | 0 => None
  | S fuel' =>
      if cur <=? end_ then
        match regex_search rx text cur end_ with
        | Match first _ =>
            regex_backward_loop fuel' rx text end_ (first + 1) (Z.of_nat first)
        | NoMatch => Some last_match
        | SearchThrows => Some wxNOT_FOUND
        end
      else Some last_match
  end.

Definition find_text_regex (fuel : nat) (haystack needle : wxString)
  (start : Z) (options : find_options) : option Z :=
  let pattern := ToStdString needle in
  let text := ToStdString haystack in
  let pattern :=
    if match_whole_word options
    then (wx "\b" ++ pattern ++ wx "\b")
    else pattern in
  match regex_ctor pattern (negb (match_case options)) with
  | None => Some wxNOT_FOUND
  | Some rx =>
      if forward options then
        let begin := Z.to_nat (Z.min (to_size_t start) (Z.of_nat (length text))) in
        match regex_search rx text begin (length text) with
        | Match first _ => Some (Z.of_nat first)
        | NoMatch => Some wxNOT_FOUND
        | SearchThrows => Some wxNOT_FOUND
        end
      else
        let end_ := Z.to_nat (Z.min (to_size_t start) (Z.of_nat (length text))) in
        regex_backward_loop fuel rx text end_ 0 wxNOT_FOUND
  end.

Definition find_text (fuel : nat) (haystack needle : wxString) (start : Z)
  (options : find_options) : option Z :=
  if IsEmpty needle then Some wxNOT_FOUND
  else if use_regex options then find_text_regex fuel haystack needle start options
  else find_text_literal fuel haystack needle start options.

End Regex.

(** ** The backward search as a sequence of forward searches *)

Section ResumedSearches.
Context {E : regex_engine}.


End ResumedSearches.


(** ** A concrete setting for running the code

    The "C" locale on 8-bit characters, and a reference matcher for a
    fragment of the ECMAScript grammar: literal characters, [.], and a
    postfix [*] on either.  The constructor rejects every other pattern. *)

Definition ascii_isalnum (c : ascii) : bool :=
  let n := nat_of_ascii c in
  ((48 <=? n) && (n <=? 57)) || ((65 <=? n) && (n <=? 90))
  || ((97 <=? n) && (n <=? 122)).

Definition ascii_tolower (c : ascii) : ascii :=
  let n := nat_of_ascii c in
  if (65 <=? n) && (n <=? 90) then ascii_of_nat (n + 32) else c.

#[export] Instance c_locale : wx_locale := {|
  wxIsalnum := ascii_isalnum;
  wxTolower := ascii_tolower;
  ToStdString := fun s => s
|}.

Module RefEngine.

Inductive atom :=
| Lit (c : ascii)
| Dot.

(** An atom and whether it is starred. *)
Definition piece : Type := atom * bool.

Record program := mk_program {
  icase : bool;
  pieces : list piece
}.

Definition is_meta (c : ascii) : bool :=
  existsb (Ascii.eqb c) (wx "^$\.*+?()[]{}|").

Definition parse_atom (c : ascii) : option atom :=
  if Ascii.eqb c "."%char then Some Dot
  else if is_meta c then None
  else Some (Lit c).

Fixpoint parse (pat : list ascii) : option (list piece) :=
  match pat with
  | [] => Some []
  | c :: rest =>
      a <- parse_atom c ;;
      match rest with
      | star :: rest' =>
          if Ascii.eqb star "*"%char
          then ps <- parse rest' ;; Some ((a, true) :: ps)
          else ps <- parse rest ;; Some ((a, false) :: ps)
      | [] => Some [(a, false)]
      end
  end.

Definition atom_matches (ic : bool) (a : atom) (c : ascii) : bool :=
  match a with
  | Dot => negb (Ascii.eqb c "010"%char || Ascii.eqb c "013"%char)
  | Lit x =>
      if ic then Ascii.eqb (ascii_tolower x) (ascii_tolower c)
      else Ascii.eqb x c
  end.

(** Greedy matching with backtracking at the head of [s]: the length of
    the match. *)
Fixpoint match_here (ic : bool) (ps : list piece) (s : list ascii) {struct ps}
  : option nat :=
  match ps with
  | [] => Some 0
  | (a, false) :: ps' =>
      match s with
      | c :: s' =>
          if atom_matches ic a c then option_map S (match_here ic ps' s')
          else None
      | [] => None
      end
  | (a, true) :: ps' =>
      (fix star (s : list ascii) : option nat :=
         match s with
         | c :: s' =>
             if atom_matches ic a c then
               match star s' with
               | Some k => Some (S k)
               | None => match_here ic ps' s
               end
             else match_here ic ps' s
         | [] => match_here ic ps' []
         end) s
  end.

(** The leftmost match in [s], which starts at offset [off] of the text. *)
Fixpoint search_at (ic : bool) (ps : list piece) (s : list ascii) (off : nat)
  : search_result :=
  match match_here ic ps s with
  | Some k => Match off (off + k)
  | None =>
      match s with
      | [] => NoMatch
      | _ :: s' => search_at ic ps s' (S off)
      end
  end.

Definition ctor (pat : list ascii) (ic : bool) : option program :=
  ps <- parse pat ;; Some (mk_program ic ps).

Definition search (rx : program) (text : list ascii) (first last : nat)
  : search_result :=
  search_at (icase rx) (pieces rx) (firstn (last - first) (skipn first text)) first.

End RefEngine.

#[export] Instance ref_engine : regex_engine := {|
  regex := RefEngine.program;
  regex_ctor := RefEngine.ctor;
  regex_search := RefEngine.search
|}.

(** ** Notions used to state the properties of the builders *)

(** [p] follows last children only: it designates a vector on the right
    edge of the forest. *)
Fixpoint spine (F : list toc_item) (p : list_ptr) : Prop :=
  match p with
  | [] => True
  | i :: p' =>
      exists n, nth_error F i = Some n /\ S i = length F /\ spine (children n) p'
  end.

(** The node whose [children] vector [p] designates. *)
Fixpoint node_at (F : list toc_item) (p : list_ptr) : option toc_item :=
  match p with
  | [] => None
  | i :: p' =>
      match nth_error F i with
      | Some n =>
          match p' with
          | [] => Some n
          | _ :: _ => node_at (children n) p'
          end
      | None => None
      end
  end.

(** The invariant of the array of open levels. *)
Record wf_state (size : nat) (st : builder_state) : Prop := {
  wf_length : length (stacks st) = size;
  wf_root : nth_error (stacks st) 0 = Some (Some []);
  wf_spine : forall i p,
    nth_error (stacks st) i = Some (Some p) -> spine (result st) p;
  wf_order : forall i j p q, i < j ->
    nth_error (stacks st) i = Some (Some p) ->
    nth_error (stacks st) j = Some (Some q) ->
    length p < length q
}.

(** A node labelled [lab] is one of the roots of [F]. *)
Definition is_root (F : list toc_item) (lab : label) : Prop :=
  exists n, In n F /\ label_of n = lab.

(** Somewhere in [F], a node labelled [a] has a child labelled [b]. *)
Inductive is_child : list toc_item -> label -> label -> Prop :=
| child_here F n c :
    In n F -> In c (children n) -> is_child F (label_of n) (label_of c)
| child_below F n a b :
    In n F -> is_child (children n) a b -> is_child F a b.

(** [L] is a list of siblings of [F]: the roots, or the children of a
    node. *)
Inductive sibling_list : list toc_item -> list toc_item -> Prop :=
| siblings_roots F : sibling_list F F
| siblings_below F n L :
    In n F -> sibling_list (children n) L -> sibling_list F L.

(** [l1] is [l2] with some elements left out. *)
Inductive subseq {A : Type} : list A -> list A -> Prop :=
| subseq_nil : subseq [] []
| subseq_skip x l1 l2 : subseq l1 l2 -> subseq l1 (x :: l2)
| subseq_take x l1 l2 : subseq l1 l2 -> subseq (x :: l1) (x :: l2).

(** The history of a build, most recent event first: the event that holds
    slot [i] open, i.e. the last event of level [i] that no event of a
    smaller level has followed. *)
Fixpoint open_label (hist : list (nat * toc_item)) (i : nat) : option label :=
  match hist with
  | [] => None
  | (l, item) :: older =>
      if l =? i then Some (label_of item)
      else if l <? i then None
      else open_label older i
  end.

(** The nearest preceding event of a level strictly below [lvl]. *)
Fixpoint nearest_smaller (hist : list (nat * toc_item)) (lvl : nat) : option label :=
  match hist with
  | [] => None
  | (l, item) :: older =>
      if l <? lvl then Some (label_of item) else nearest_smaller older lvl
  end.

(** Every open slot above the root designates the children of the node of
    the event that holds it open, and no other slot is open. *)
Definition owner_inv (size : nat) (st : builder_state)
  (hist : list (nat * toc_item)) : Prop :=
  forall i, 1 <= i -> i < size ->
    match nth_error (stacks st) i with
    | Some (Some p) =>
        exists n, node_at (result st) p = Some n /\
          open_label hist i = Some (label_of n)
    | Some None => open_label hist i = None
    | None => False
    end.

(** Where the node of an event of level [lvl] belongs after the events of
    [hist]: under the nearest preceding event of a smaller level, at the
    root when there is none. *)
Definition attached (F : list toc_item) (hist : list (nat * toc_item))
  (lvl : nat) (item : toc_item) : Prop :=
  match nearest_smaller hist lvl with
  | Some lab => is_child F lab (label_of item)
  | None => is_root F (label_of item)
  end.

(** The events the two builders accept, as the level of the slot they open
    and the node they append. *)
Definition heading_event (m : marker) : nat * toc_item :=
  (Z.to_nat (level m), mk_toc_item (text m) [] (static_cast_int (pos m)) []).

Definition toc_event (e : FfiTocItem) : nat * toc_item :=
  (S (Z.to_nat (ffi_depth e)),
   mk_toc_item (ffi_name e) (ffi_reference e) (ffi_offset e) []).

(** The slots after an accepted event of level [lvl] whose parent pointer
    is [p], the parent vector having had [n] elements. *)
Definition slots_after (size lvl : nat) (old : slots) (p : list_ptr) (n : nat)
  (k : nat) : option (option list_ptr) :=
  if k <? lvl then nth_error old k
  else if k =? lvl then Some (Some (p ++ [n]))
  else if k <? size then Some None
  else None.

(** An event the generic loop accepts: a level inside the array, above the
    root slot, and a node without children yet. *)
Definition good_event (size : nat) (ev : nat * toc_item) : Prop :=
  1 <= fst ev /\ fst ev < size /\ children (snd ev) = [].

(** ** Notions used to state the properties of the cleanup *)

Section CleanupNotions.
Context {L : wx_locale}.

(** The check of [cleanup_toc] would collapse [n] with its first child. *)
Definition collapses (n : toc_item) : Prop :=
  match children n with
  | [] => False
  | first_child :: _ => collapse_pred n first_child = true
  end.

(** No node of the tree, at any depth, would be collapsed by the check. *)
#[warnings="-register-all"] Inductive settled_item : toc_item -> Prop :=
| settled_node n :
    ~ collapses n -> Forall settled_item (children n) -> settled_item n.

(** No node of the tree that the check collapses satisfies the condition
    of the check again, against its new first child, once collapsed. *)
#[warnings="-register-all"] Inductive no_chain_item : toc_item -> Prop :=
| no_chain_node n :
    (collapses n -> ~ collapses (collapse_check n)) ->
    Forall no_chain_item (children n) -> no_chain_item n.

(** No node of the tree comes to meet the condition of the check against
    the first child that its own check leaves it only through the check
    on that child, which can give the child the reference of its own
    first child. *)
#[warnings="-register-all"] Inductive no_late_chain_item : toc_item -> Prop :=
| no_late_chain_node n :
    (forall c rest, children (collapse_check n) = c :: rest ->
       collapse_pred (collapse_check n) c = false ->
       collapse_pred (collapse_check n) (collapse_check c) = false) ->
    Forall no_late_chain_item (children n) -> no_late_chain_item n.

(** [n] is a node of the forest [F], at any depth. *)
Inductive in_forest : list toc_item -> toc_item -> Prop :=
| in_forest_root F n : In n F -> in_forest F n
| in_forest_below F m n : In m F -> in_forest (children m) n -> in_forest F n.

(** The nodes that a call of [cleanup_toc] on [items] applies its check
    to: the elements of [items], each as the call finds it, and through
    the recursive call that ends the loop body the nodes reached in the
    children list that an element has once its own check is done. *)
Inductive reached : list toc_item -> toc_item -> Prop :=
| reached_here items item : In item items -> reached items item
| reached_below items item n :
    In item items -> reached (children (collapse_check item)) n ->
    reached items n.

End CleanupNotions.

(** ** Notions used to state the properties of the search *)

Section SearchNotions.
Context {L : wx_locale}.

(** [needle] occurs in [s] at offset [p]. *)
Definition occurs_at (s needle : wxString) (p : nat) : Prop :=
  starts_with needle (skipn p s) = true /\ p + length needle <= length s.

(** The word boundaries of a match of [needle_len] characters at offset
    [p]: no alphanumeric character just before it, none just after it. *)
Definition whole_word_at (haystack : wxString) (needle_len p : nat) : Prop :=
  (p = 0 \/ wxIsalnum (nth (p - 1) haystack zero) = false) /\
  (length haystack <= p + needle_len \/
   wxIsalnum (nth (p + needle_len) haystack zero) = false).

(** The test [word_start && word_end] of the loop, for the [long] [pos]. *)
Definition word_check (haystack needle : wxString) (pos : Z) : bool :=
  (if (pos =? 0)%Z then true
   else negb (wxIsalnum (char_at haystack (to_size_t (to_size_t pos - 1)))))
  && (if (to_size_t (to_size_t pos + Z.of_nat (length needle))
            >=? Z.of_nat (length haystack))%Z
      then true
      else negb (wxIsalnum (char_at haystack
                   (to_size_t (to_size_t pos + Z.of_nat (length needle)))))).

End SearchNotions.

(** The label of the node built for a marker, and for a flat entry. *)
Definition heading_label (m : marker) : label :=
  (text m, [], static_cast_int (pos m)).

Definition toc_label (e : FfiTocItem) : label :=
  (ffi_name e, ffi_reference e, ffi_offset e).

(** ** The rest of the loaders *)

(** The loop over [toc_items] of the earlier revision of
    [rust_parser::load] (src/app/rust_parser.cpp): every entry becomes a
    root, whatever its depth. *)
Fixpoint load_flat_toc (toc_items : list toc_item) (ffi_toc_items : list FfiTocItem)
  : list toc_item :=
  match ffi_toc_items with
  | [] => toc_items
  | rust_toc :: rest =>
      let item := mk_toc_item (ffi_name rust_toc) (ffi_reference rust_toc)
                    (ffi_offset rust_toc) [] in
      load_flat_toc (toc_items ++ [item]) rest
  end.

(** A [std::map] with string keys, seen through what a lookup returns. *)
Definition string_map (V : Type) : Type := list ascii -> option V.

(** [m.clear()] *)
Definition map_clear {V : Type} (m : string_map V) : string_map V :=
  fun _ => None.

(** [m[key] = value] *)
Definition map_assign {V : Type} (m : string_map V) (key : list ascii) (value : V)
  : string_map V :=
  fun k => if wxString_eqb key k then Some value else m k.

(** Modelled from the spec: [struct FfiIdPosition] and [struct
    FfiManifestItem] come from the generated bridge header, which is not
    among the sources.  The fields are those the loops read. *)
Record FfiIdPosition := mk_FfiIdPosition {
  id_pos_id : list ascii;
  id_pos_offset : Z
}.

Record FfiManifestItem := mk_FfiManifestItem {
  manifest_id : list ascii;
  manifest_path : list ascii
}.

(** [populate_id_positions], on the map [doc.id_positions] *)
Definition populate_id_positions (id_positions : string_map Z)
  (ffi_positions : list FfiIdPosition) : string_map Z :=
  fold_left (fun m entry => map_assign m (id_pos_id entry) (id_pos_offset entry))
    ffi_positions (map_clear id_positions).

(** [populate_manifest_items], on the map [doc.manifest_items] *)
Definition populate_manifest_items (manifest_items : string_map (list ascii))
  (ffi_manifest : list FfiManifestItem) : string_map (list ascii) :=
  fold_left (fun m entry => map_assign m (manifest_id entry) (manifest_path entry))
    ffi_manifest (map_clear manifest_items).

(** [populate_spine_items], on the vector [doc.spine_items] *)
Definition populate_spine_items (spine_items : list (list ascii))
  (ffi_spine_items : list (list ascii)) : list (list ascii) :=
  fold_left (fun v item => v ++ [item]) ffi_spine_items [].

(** [s.resize(n)] of a [std::string] *)
Definition resize (s : list ascii) (n : nat) : list ascii :=
  firstn n s ++ repeat zero (n - length s).

(** The start of [fb2_parser::load]: what follows the last closing tag of
    the book is cut off. *)
Definition fb2_cut_after_closing_tag (xml_content : list ascii) : list ascii :=
  let closing_tag := wx "</FictionBook>" in
  let closing_tag_pos := rfind xml_content closing_tag in
  if (closing_tag_pos =? npos)%Z then xml_content
  else resize xml_content
         (Z.to_nat (to_size_t (closing_tag_pos + Z.of_nat (length closing_tag)))).

(** ** Notions used to state the further properties *)

(** The number of nodes of a forest. *)
Definition node_count (F : list toc_item) : nat := length (preorder F).

(** The names of a forest, in pre-order. *)
Definition names_of (F : list toc_item) : list (list ascii) :=
  map (fun l : label => fst (fst l)) (preorder F).

(** The pointer held by slot [i] is at most [i] levels deep. *)
Definition slot_depth (st : builder_state) : Prop :=
  forall i p, nth_error (stacks st) i = Some (Some p) -> length p <= i.

(** * Properties *)

(** ** The reference matcher meets the contract of the library *)

Lemma match_here_length ic ps : forall s k,
  RefEngine.match_here ic ps s = Some k -> k <= length s.
Proof.
  induction ps as [|[a starred] ps IH]; intros s k H.
  - simpl in H. injection H as <-. lia.
  - destruct starred.
    + revert k H. induction s as [|c s IHs]; intros k H; simpl in H.
      * apply IH in H. exact H.
      * destruct (RefEngine.atom_matches ic a c).
        -- match type of H with
           | match ?X with _ => _ end = _ => destruct X as [k'|] eqn:Hs
           end.
           ++ injection H as <-. apply IHs in Hs. simpl. lia.
           ++ apply IH in H. exact H.
        -- apply IH in H. exact H.
    + simpl in H. destruct s as [|c s]; [discriminate|].
      destruct (RefEngine.atom_matches ic a c); [|discriminate].
      destruct (RefEngine.match_here ic ps s) as [k'|] eqn:Hm; [|discriminate].
      injection H as <-. apply IH in Hm. simpl. lia.
Qed.

Lemma search_at_bounds ic ps : forall s off p q,
  RefEngine.search_at ic ps s off = Match p q ->
  off <= p /\ p <= q /\ q <= off + length s.
Proof.
  induction s as [|c s IH]; intros off p q H; simpl in H.
  - destruct (RefEngine.match_here ic ps []) as [k|] eqn:Hm; [|discriminate].
    injection H as <- <-. apply match_here_length in Hm. simpl in *. lia.
  - destruct (RefEngine.match_here ic ps (c :: s)) as [k|] eqn:Hm.
    + injection H as <- <-. apply match_here_length in Hm. simpl in *. lia.
    + apply IH in H. simpl. lia.
Qed.

Lemma ref_engine_within_range : search_within_range ref_engine.
Proof.
  intros rx text first last p q H Hle. simpl in H.
  unfold RefEngine.search in H.
  apply search_at_bounds in H. rewrite length_firstn in H. lia.
Qed.



Lemma search_at_never_throws ic ps : forall s off,
  RefEngine.search_at ic ps s off <> SearchThrows.
Proof.
  induction s as [|c s IH]; intros off; simpl;
    destruct (RefEngine.match_here ic ps _); try discriminate. apply IH.
Qed.

Lemma ref_engine_never_throws (rx : RefEngine.program) text first last :
  RefEngine.search rx text first last <> SearchThrows.
Proof. unfold RefEngine.search. apply search_at_never_throws. Qed.

(** ** Vectors of slots *)

Lemma obind_some {A B : Type} (x : option A) (k : A -> option B) (b : B) :
  obind x k = Some b -> exists a, x = Some a /\ k a = Some b.
Proof.
  destruct x as [a|]; simpl; intros H; [eauto | discriminate].
Qed.

Lemma vec_set_spec : forall (v : slots) i x,
  i < length v ->
  exists v', vec_set v i x = Some v' /\ length v' = length v /\
    nth_error v' i = Some x /\
    forall k, k <> i -> nth_error v' k = nth_error v k.
Proof.
  induction v as [|y v IH]; intros i x Hi; simpl in Hi; [lia|].
  destruct i as [|i]; simpl.
  - eexists; repeat split; intros [|k] Hk; simpl; congruence.
  - destruct (IH i x) as (v' & -> & Hlen & Hnth & Hother); [lia|].
    simpl. eexists; repeat split; simpl; auto.
    intros [|k] Hk; simpl; auto.
Qed.

Lemma vec_set_out_of_range : forall (v : slots) i x,
  length v <= i -> vec_set v i x = None.
Proof.
  induction v as [|y v IH]; intros i x Hi; simpl in *; [reflexivity|].
  destruct i as [|i]; [lia|]. rewrite IH by lia. reflexivity.
Qed.

Lemma clear_loop_spec : forall count (v : slots) from,
  from + count <= length v ->
  exists v', clear_loop count v from = Some v' /\ length v' = length v /\
    forall k, nth_error v' k =
      if (from <=? k) && (k <? from + count) then Some None else nth_error v k.
Proof.
  induction count as [|c IH]; intros v from Hle; simpl.
  - exists v; repeat split. intros k.
    destruct (from <=? k) eqn:E1, (k <? from + 0) eqn:E2; simpl; auto.
    apply Nat.leb_le in E1. apply Nat.ltb_lt in E2. lia.
  - destruct (vec_set_spec v from None) as (v1 & -> & Hlen & Hnth & Hother);
      [lia|].
    simpl. destruct (IH v1 (S from)) as (v2 & -> & Hlen2 & Hk); [lia|].
    exists v2; repeat split; [congruence|].
    intros k. rewrite Hk.
    destruct (Nat.eq_dec k from) as [->|Hne].
    + replace (S from <=? from) with false by (symmetry; apply Nat.leb_gt; lia).
      rewrite Nat.leb_refl.
      replace (from <? from + S c) with true by (symmetry; apply Nat.ltb_lt; lia).
      simpl. exact Hnth.
    + rewrite (Hother k Hne).
      destruct (S from <=? k) eqn:E1, (k <? S from + c) eqn:E2,
               (from <=? k) eqn:E3, (k <? from + S c) eqn:E4; simpl; auto;
        repeat match goal with
        | H : (_ <=? _) = true |- _ => apply Nat.leb_le in H
        | H : (_ <=? _) = false |- _ => apply Nat.leb_gt in H
        | H : (_ <? _) = true |- _ => apply Nat.ltb_lt in H
        | H : (_ <? _) = false |- _ => apply Nat.ltb_ge in H
        end; lia.
Qed.

Lemma scan_down_unfold (v : slots) i :
  scan_down v i =
  match nth_error v i with
  | None => None
  | Some (Some p) => Some (Some p)
  | Some None =>
      match i with
      | 0 => Some None
      | S i' => scan_down v i'
      end
  end.
Proof. destruct i; reflexivity. Qed.

(** The downward scan stops at the highest open slot at or below its
    start; slot 0 being open, it never runs out. *)
Lemma scan_down_spec : forall (v : slots) i r,
  nth_error v 0 = Some (Some r) -> i < length v ->
  exists j p, j <= i /\ nth_error v j = Some (Some p) /\
    scan_down v i = Some (Some p) /\
    forall k, j < k -> k <= i -> nth_error v k = Some None.
Proof.
  intros v i r H0. induction i as [|i IH]; intros Hi.
  - exists 0, r. rewrite scan_down_unfold, H0.
    repeat split; auto. intros k; lia.
  - rewrite scan_down_unfold.
    destruct (nth_error v (S i)) as [[p|]|] eqn:E.
    + exists (S i), p. repeat split; auto. intros k; lia.
    + destruct IH as (j & p & Hj & Hp & Hs & Hk); [lia|].
      exists j, p. repeat split; auto.
      intros k Hjk Hki. destruct (Nat.eq_dec k (S i)) as [->|]; auto.
      apply Hk; lia.
    + apply nth_error_None in E. lia.
Qed.

(** ** Appending through a pointer *)

Lemma nth_error_replace {A : Type} (F : list A) i (n x : A) :
  nth_error F i = Some n ->
  length (replace_nth i x F) = length F /\
  nth_error (replace_nth i x F) i = Some x /\
  forall k, k <> i -> nth_error (replace_nth i x F) k = nth_error F k.
Proof.
  unfold replace_nth.
  revert i. induction F as [|y F IH]; intros [|i] H; simpl in H; try discriminate.
  - simpl. repeat split; auto. intros [|k] Hk; simpl; congruence.
  - destruct (IH i H) as (Hlen & Hi & Hk).
    change (firstn (S i) (y :: F) ++ x :: skipn (S (S i)) (y :: F))
      with (y :: (firstn i F ++ x :: skipn (S i) F)).
    simpl. repeat split; auto.
    intros [|k] Hne; simpl; auto.
Qed.

Lemma replace_last {A : Type} (F : list A) i (n x : A) :
  nth_error F i = Some n -> S i = length F ->
  F = firstn i F ++ [n] /\ replace_nth i x F = firstn i F ++ [x].
Proof.
  unfold replace_nth.
  revert i. induction F as [|y F IH]; intros [|i] H Hlen; simpl in *;
    try discriminate.
  - destruct F; simpl in *; [|lia]. injection H as ->. auto.
  - destruct (IH i H) as (H1 & H2); [lia|]. rewrite H2, <- H1. auto.
Qed.

Lemma preorder_app (F G : list toc_item) :
  preorder (F ++ G) = preorder F ++ preorder G.
Proof. unfold preorder. apply flat_map_app. Qed.

Lemma preorder_singleton (n : toc_item) :
  preorder [n] = label_of n :: preorder (children n).
Proof. unfold preorder. destruct n. simpl. rewrite app_nil_r. reflexivity. Qed.

(** Appending through a pointer on the right edge appends to the
    pre-order, keeps the shorter pointers of the right edge valid, and
    puts the children of the new node on the right edge. *)
Lemma push_back_spine (item : toc_item) : forall p F,
  spine F p ->
  exists v F', deref F p = Some v /\ push_back_at F p item = Some F' /\
    deref F' p = Some (v ++ [item]) /\
    preorder F' = preorder F ++ preorder [item] /\
    spine F' (p ++ [length v]) /\
    (forall q, spine F q -> length q <= length p -> spine F' q).
Proof.
  induction p as [|i p IH]; intros F Hsp.
  - exists F, (F ++ [item]). simpl. repeat split; auto.
    + apply preorder_app.
    + exists item. rewrite nth_error_app2, Nat.sub_diag by lia.
      rewrite length_app. simpl. repeat split; auto. lia.
    + intros [|j q] _ Hq; simpl in *; [exact I | lia].
  - simpl in Hsp. destruct Hsp as (n & Hn & Hlast & Hsp).
    destruct (IH (children n) Hsp) as (v & cs & Hv & Hcs & Hd & Hpre & Hnew & Hold).
    destruct (replace_last F i n (set_children n cs) Hn Hlast) as (Hsplit & Hrepl).
    destruct (nth_error_replace F i n (set_children n cs) Hn) as (Hlen & Hi & _).
    assert (Hgoal : preorder (firstn i F ++ [set_children n cs]) =
                    preorder (firstn i F ++ [n]) ++ preorder [item]).
    { rewrite !preorder_app, (preorder_singleton n),
        (preorder_singleton (set_children n cs)).
      change (children (set_children n cs)) with cs.
      change (label_of (set_children n cs)) with (label_of n).
      rewrite Hpre, <- app_assoc. reflexivity. }
    rewrite <- Hsplit, <- Hrepl in Hgoal.
    exists v, (replace_nth i (set_children n cs) F).
    cbn [deref push_back_at]. rewrite Hn, Hcs, Hv. cbn [obind]. rewrite Hi.
    change (children (set_children n cs)) with cs.
    repeat split; auto.
    + cbn [app spine]. exists (set_children n cs). repeat split; auto. lia.
    + intros [|j q] Hq Hlen'; simpl in Hlen'; cbn [spine] in *; [exact I|].
      destruct Hq as (m & Hm & Hj & Hq).
      assert (j = i) by lia. subst j.
      rewrite Hn in Hm. injection Hm as <-.
      exists (set_children n cs). repeat split; auto; [lia|].
      apply Hold; [exact Hq | lia].
Qed.

Lemma back_children_pushed F p v item :
  deref F p = Some (v ++ [item]) ->
  back_children F p = Some (p ++ [length v]).
Proof.
  intros H. unfold back_children. rewrite H. cbn [obind].
  assert (Hl : length (v ++ [item]) - 1 = length v)
    by (rewrite length_app; simpl; lia).
  destruct (v ++ [item]) as [|x l] eqn:Ev.
  - destruct v; discriminate.
  - rewrite Hl. reflexivity.
Qed.

(** ** One accepted event *)

Ltac nat_bool :=
  repeat match goal with
  | H : (_ <=? _) = true |- _ => apply Nat.leb_le in H
  | H : (_ <=? _) = false |- _ => apply Nat.leb_gt in H
  | H : (_ <? _) = true |- _ => apply Nat.ltb_lt in H
  | H : (_ <? _) = false |- _ => apply Nat.ltb_ge in H
  | H : (_ =? _) = true |- _ => apply Nat.eqb_eq in H
  | H : (_ =? _) = false |- _ => apply Nat.eqb_neq in H
  end.

Lemma attach_spec size st lvl item :
  wf_state size st -> 1 <= lvl -> lvl < size ->
  exists j p v res s2,
    j < lvl /\ nth_error (stacks st) j = Some (Some p) /\
    (forall k, j < k -> k < lvl -> nth_error (stacks st) k = Some None) /\
    scan_down (stacks st) (lvl - 1) = Some (Some p) /\
    deref (result st) p = Some v /\
    push_back_at (result st) p item = Some res /\
    preorder res = preorder (result st) ++ preorder [item] /\
    attach size st lvl item = Some (mk_builder_state res s2) /\
    (forall k, nth_error s2 k = slots_after size lvl (stacks st) p (length v) k) /\
    wf_state size (mk_builder_state res s2).
Proof.
  intros [Hlen Hroot Hspine Horder] H1 Hlt.
  destruct (scan_down_spec (stacks st) (lvl - 1) [] Hroot) as (j & p & Hj & Hp & Hscan & Hnone);
    [lia|].
  destruct (push_back_spine item p (result st) (Hspine j p Hp))
    as (v & res & Hv & Hpush & Hd & Hpre & Hnew & Hold).
  destruct (vec_set_spec (stacks st) lvl (Some (p ++ [length v])))
    as (s1 & Hs1 & Hlen1 & Hnth1 & Hother1); [lia|].
  destruct (clear_loop_spec (size - S lvl) s1 (S lvl)) as (s2 & Hs2 & Hlen2 & Hnth2);
    [lia|].
  assert (Hslots : forall k,
            nth_error s2 k = slots_after size lvl (stacks st) p (length v) k).
  { intros k. rewrite Hnth2. unfold slots_after.
    destruct (S lvl <=? k) eqn:E1, (k <? S lvl + (size - S lvl)) eqn:E2,
             (k <? lvl) eqn:E3, (k =? lvl) eqn:E4, (k <? size) eqn:E5;
      nat_bool; simpl; try lia; subst; auto.
    all: try (apply nth_error_None; lia).
    all: try (apply Hother1; lia). }
  exists j, p, v, res, s2. repeat split; auto; try lia.
  - intros k Hjk Hk. apply Hnone; lia.
  - unfold attach. rewrite Hscan. cbn [obind]. rewrite Hpush. cbn [obind].
    rewrite (back_children_pushed res p v item Hd). cbn [obind].
    rewrite Hs1. cbn [obind]. rewrite Hs2. reflexivity.
  - simpl. congruence.
  - cbn [stacks result]. rewrite Hslots. unfold slots_after.
    replace (0 <? lvl) with true by (symmetry; apply Nat.ltb_lt; lia).
    exact Hroot.
  - cbn [stacks result]. intros i q Hq. rewrite Hslots in Hq. unfold slots_after in Hq.
    destruct (i <? lvl) eqn:E3; nat_bool.
    + apply Hold; [exact (Hspine i q Hq)|].
      destruct (Nat.lt_trichotomy i j) as [Hij|[->|Hij]].
      * pose proof (Horder i j q p Hij Hq Hp). lia.
      * rewrite Hp in Hq. injection Hq as <-. lia.
      * rewrite (Hnone i) in Hq by lia. discriminate.
    + destruct (i =? lvl) eqn:E4; nat_bool.
      * injection Hq as <-. exact Hnew.
      * destruct (i <? size); discriminate.
  - cbn [stacks result]. intros a b q r Hab Hq Hr. rewrite Hslots in Hq, Hr.
    unfold slots_after in Hq, Hr.
    destruct (b <? lvl) eqn:Eb; nat_bool.
    + replace (a <? lvl) with true in Hq by (symmetry; apply Nat.ltb_lt; lia).
      exact (Horder a b q r Hab Hq Hr).
    + destruct (b =? lvl) eqn:Eb'; nat_bool.
      * subst b. replace (a <? lvl) with true in Hq by (symmetry; apply Nat.ltb_lt; lia).
        injection Hr as <-. rewrite length_app. simpl.
        destruct (Nat.lt_trichotomy a j) as [Haj|[->|Haj]].
        -- pose proof (Horder a j q p Haj Hq Hp). lia.
        -- rewrite Hp in Hq. injection Hq as <-. lia.
        -- rewrite (Hnone a) in Hq by lia. discriminate.
      * destruct (b <? size); discriminate.
Qed.

(** ** The two loop bodies are instances of [attach] *)

Lemma heading_step_dropped MAX st m :
  heading_in_range MAX m = false -> heading_step MAX st m = Some st.
Proof.
  unfold heading_in_range, heading_step. intros H.
  apply negb_false_iff in H. rewrite H. reflexivity.
Qed.

Lemma heading_event_level MAX m :
  heading_in_range MAX m = true ->
  1 <= fst (heading_event m) /\ fst (heading_event m) < MAX + 1.
Proof.
  unfold heading_in_range, heading_event. intros H. simpl.
  apply negb_true_iff, orb_false_iff in H. destruct H as [H1 H2].
  apply Z.ltb_ge in H1. rewrite Z.gtb_ltb in H2. apply Z.ltb_ge in H2. lia.
Qed.

Lemma heading_step_attach MAX st m :
  heading_in_range MAX m = true ->
  heading_step MAX st m =
  attach (MAX + 1) st (fst (heading_event m)) (snd (heading_event m)).
Proof.
  intros H. pose proof (heading_event_level MAX m H) as [Hl1 Hl2].
  unfold heading_in_range in H. apply negb_true_iff in H.
  unfold heading_step, attach, heading_event in *. simpl fst in *. simpl snd.
  rewrite H. unfold scan_from.
  replace (level m - 1 <? 0)%Z with false by (symmetry; apply Z.ltb_ge; lia).
  replace (Z.to_nat (level m - 1)) with (Z.to_nat (level m) - 1) by lia.
  replace (Z.to_nat (level m + 1)) with (S (Z.to_nat (level m))) by lia.
  reflexivity.
Qed.

Lemma populate_step_dropped st e :
  depth_in_range e = false -> populate_step st e = Some st.
Proof.
  unfold depth_in_range, populate_step. intros H.
  apply negb_false_iff in H. rewrite H. reflexivity.
Qed.

Lemma depth_in_range_bounds e :
  depth_in_range e = true -> (0 <= ffi_depth e <= 32)%Z.
Proof.
  unfold depth_in_range, MAX_DEPTH. intros H.
  apply negb_true_iff, orb_false_iff in H. destruct H as [H1 H2].
  apply Z.ltb_ge in H1. rewrite Z.gtb_ltb in H2. apply Z.ltb_ge in H2. lia.
Qed.

Lemma populate_step_attach st e :
  depth_in_range e = true -> (ffi_depth e < MAX_DEPTH)%Z ->
  populate_step st e = attach 33 st (fst (toc_event e)) (snd (toc_event e)).
Proof.
  intros H Hlt. pose proof (depth_in_range_bounds e H) as Hb.
  unfold depth_in_range in H. apply negb_true_iff in H.
  unfold populate_step, attach, toc_event, MAX_DEPTH in *. simpl fst. simpl snd.
  rewrite H. unfold scan_from.
  replace (ffi_depth e <? 0)%Z with false by (symmetry; apply Z.ltb_ge; lia).
  replace (S (Z.to_nat (ffi_depth e)) - 1) with (Z.to_nat (ffi_depth e)) by lia.
  replace (Z.to_nat (ffi_depth e + 1)) with (S (Z.to_nat (ffi_depth e))) by lia.
  replace (Z.to_nat (ffi_depth e + 2)) with (S (S (Z.to_nat (ffi_depth e)))) by lia.
  replace (Z.to_nat (32 + 1)) with 33 by reflexivity.
  reflexivity.
Qed.

(** The slot an entry of depth [MAX_DEPTH] opens lies one past the end of
    the array. *)
Lemma populate_step_max_depth st e :
  length (stacks st) = 33 -> ffi_depth e = MAX_DEPTH ->
  populate_step st e = None.
Proof.
  intros Hlen Hd. unfold populate_step. rewrite Hd. cbn [Z.ltb Z.gtb orb].
  unfold MAX_DEPTH. simpl Z.compare. cbn iota.
  destruct (scan_from (stacks st) 32) as [found|]; [|reflexivity].
  cbn [obind].
  destruct (push_back_at _ _ _) as [res|]; [|reflexivity]. cbn [obind].
  destruct (back_children _ _) as [child|]; [|reflexivity]. cbn [obind].
  rewrite vec_set_out_of_range; [reflexivity|].
  rewrite Hlen. change (Z.to_nat (32 + 1)) with 33. lia.
Qed.

(** ** The loops *)

Lemma heading_loop_attach MAX : forall ms st,
  heading_loop MAX st ms =
  attach_loop (MAX + 1) st (map heading_event (filter (heading_in_range MAX) ms)).
Proof.
  induction ms as [|m ms IH]; intros st; [reflexivity|].
  cbn [heading_loop filter].
  destruct (heading_in_range MAX m) eqn:Hr.
  - cbn [map attach_loop]. rewrite (heading_step_attach MAX st m Hr).
    destruct (heading_event m) as [lvl item]. cbn [fst snd].
    destruct (attach (MAX + 1) st lvl item) as [st'|]; cbn [obind]; auto.
  - rewrite (heading_step_dropped MAX st m Hr). cbn [obind]. apply IH.
Qed.

Lemma populate_loop_attach : forall es st,
  Forall (fun e => (ffi_depth e < MAX_DEPTH)%Z) es ->
  populate_loop st es =
  attach_loop 33 st (map toc_event (filter depth_in_range es)).
Proof.
  induction es as [|e es IH]; intros st Hall; [reflexivity|].
  inversion Hall as [|? ? He Hes]; subst.
  cbn [populate_loop filter].
  destruct (depth_in_range e) eqn:Hr.
  - cbn [map attach_loop]. rewrite (populate_step_attach st e Hr He).
    destruct (toc_event e) as [lvl item]. cbn [fst snd].
    destruct (attach 33 st lvl item) as [st'|]; cbn [obind]; auto.
  - rewrite (populate_step_dropped st e Hr). cbn [obind]. apply IH, Hes.
Qed.

Lemma heading_events_good MAX ms :
  Forall (good_event (MAX + 1)) (map heading_event (filter (heading_in_range MAX) ms)).
Proof.
  apply Forall_map, Forall_forall. intros m Hm. apply filter_In in Hm.
  destruct Hm as [_ Hr]. destruct (heading_event_level MAX m Hr).
  unfold good_event. repeat split; auto.
Qed.

Lemma toc_events_good es :
  Forall (fun e => (ffi_depth e < MAX_DEPTH)%Z) es ->
  Forall (good_event 33) (map toc_event (filter depth_in_range es)).
Proof.
  intros Hall. apply Forall_map, Forall_forall. intros e He. apply filter_In in He.
  destruct He as [Hin Hr]. pose proof (depth_in_range_bounds e Hr).
  rewrite Forall_forall in Hall. specialize (Hall e Hin). unfold MAX_DEPTH in Hall.
  unfold good_event, toc_event. cbn [fst snd children]. repeat split; lia.
Qed.

Lemma preorder_leaf item : children item = [] -> preorder [item] = [label_of item].
Proof. intros H. rewrite preorder_singleton, H. reflexivity. Qed.

(** The generic loop never fails on good events, keeps the invariant and
    appends the events to the pre-order, in order. *)
Lemma attach_loop_spec size : forall evs st,
  wf_state size st -> Forall (good_event size) evs ->
  exists st', attach_loop size st evs = Some st' /\ wf_state size st' /\
    preorder (result st') =
    preorder (result st) ++ map (fun ev => label_of (snd ev)) evs.
Proof.
  induction evs as [|[lvl item] evs IH]; intros st Hwf Hall.
  - exists st. cbn [attach_loop map]. rewrite app_nil_r. auto.
  - inversion Hall as [|? ? (H1 & H2 & Hleaf) Hrest]; subst. cbn [fst snd] in *.
    destruct (attach_spec size st lvl item Hwf H1 H2)
      as (j & p & v & res & s2 & _ & _ & _ & _ & _ & _ & Hpre & Hatt & _ & Hwf').
    destruct (IH _ Hwf' Hrest) as (st' & Hloop & Hwf'' & Hpre').
    exists st'. cbn [attach_loop]. rewrite Hatt. cbn [obind].
    split; [exact Hloop|]. split; [exact Hwf''|].
    rewrite Hpre'. cbn [result map snd]. rewrite Hpre, (preorder_leaf item Hleaf).
    rewrite <- app_assoc. reflexivity.
Qed.

Lemma initial_state_wf n F :
  vec_set (repeat None (S n)) 0 (Some []) = Some (Some [] :: repeat None n) /\
  wf_state (S n) (mk_builder_state F (Some [] :: repeat None n)).
Proof.
  split; [reflexivity|].
  assert (Hnone : forall k q, nth_error (repeat (@None (list nat)) n) k <> Some (Some q)).
  { intros k q H. apply nth_error_In, repeat_spec in H. discriminate. }
  constructor; cbn [stacks result].
  - simpl. rewrite repeat_length. reflexivity.
  - reflexivity.
  - intros [|i] p H; simpl in H.
    + injection H as <-. exact I.
    + exfalso. exact (Hnone _ _ H).
  - intros i [|j] p q Hij Hp Hq; [lia|]. simpl in Hq.
    exfalso. exact (Hnone _ _ Hq).
Qed.

(** ** The builders as runs of their loops *)

Lemma heading_init_wf MAX :
  exists st0, heading_init MAX = Some st0 /\ result st0 = [] /\
    wf_state (MAX + 1) st0.
Proof.
  unfold heading_init. rewrite Nat.add_1_r.
  destruct (initial_state_wf MAX []) as [-> Hwf].
  eexists. cbn [obind]. split; [reflexivity|]. split; [reflexivity|exact Hwf].
Qed.

Lemma build_toc_from_headings_unfold MAX ms :
  build_toc_from_headings MAX ms =
  (st0 <- heading_init MAX ;; st <- heading_loop MAX st0 ms ;; Some (result st)).
Proof.
  destruct ms as [|m ms]; [|reflexivity].
  destruct (heading_init_wf MAX) as (st0 & -> & Hres & _).
  cbn. rewrite Hres. reflexivity.
Qed.

Lemma populate_toc_items_unfold toc_items es :
  populate_toc_items toc_items es =
  (st <- populate_loop (mk_builder_state toc_items (Some [] :: repeat None 32)) es ;;
   Some (result st)).
Proof. destruct es; reflexivity. Qed.

(** The run of the heading loop: it never fails, and its final state
    satisfies the invariant. *)
Lemma heading_run MAX ms :
  exists st0 st, heading_init MAX = Some st0 /\
    heading_loop MAX st0 ms = Some st /\
    build_toc_from_headings MAX ms = Some (result st) /\
    wf_state (MAX + 1) st /\
    preorder (result st) =
    map (fun ev => label_of (snd ev))
        (map heading_event (filter (heading_in_range MAX) ms)).
Proof.
  destruct (heading_init_wf MAX) as (st0 & Hinit & Hres & Hwf).
  destruct (attach_loop_spec (MAX + 1) _ st0 Hwf (heading_events_good MAX ms))
    as (st & Hloop & Hwf' & Hpre).
  rewrite <- heading_loop_attach in Hloop.
  exists st0, st. split; [exact Hinit|]. split; [exact Hloop|].
  split; [|split; [exact Hwf'|]].
  - rewrite build_toc_from_headings_unfold, Hinit. cbn [obind].
    rewrite Hloop. reflexivity.
  - rewrite Hpre, Hres. reflexivity.
Qed.

Lemma populate_step_wf st e st' :
  wf_state 33 st -> populate_step st e = Some st' -> wf_state 33 st'.
Proof.
  intros Hwf Hstep. destruct (depth_in_range e) eqn:Hr.
  - pose proof (depth_in_range_bounds e Hr) as Hb.
    destruct (Z.eq_dec (ffi_depth e) MAX_DEPTH) as [Heq|Hne].
    + rewrite populate_step_max_depth in Hstep; [discriminate| apply Hwf | exact Heq].
    + assert (Hlt : (ffi_depth e < MAX_DEPTH)%Z) by (unfold MAX_DEPTH in *; lia).
      rewrite (populate_step_attach st e Hr Hlt) in Hstep.
      destruct (attach_spec 33 st (fst (toc_event e)) (snd (toc_event e)) Hwf)
        as (j & p & v & res & s2 & _ & _ & _ & _ & _ & _ & _ & Hatt & _ & Hwf').
      * simpl. lia.
      * unfold MAX_DEPTH in Hlt. simpl. lia.
      * rewrite Hatt in Hstep. injection Hstep as <-. exact Hwf'.
  - rewrite (populate_step_dropped st e Hr) in Hstep. injection Hstep as <-. exact Hwf.
Qed.

Lemma populate_loop_wf : forall es st st',
  wf_state 33 st -> populate_loop st es = Some st' -> wf_state 33 st'.
Proof.
  induction es as [|e es IH]; intros st st' Hwf H; cbn [populate_loop] in H.
  - injection H as <-. exact Hwf.
  - apply obind_some in H. destruct H as (st1 & Hstep & Hloop).
    exact (IH st1 st' (populate_step_wf st e st1 Hwf Hstep) Hloop).
Qed.

Lemma populate_loop_max_depth : forall es st e,
  wf_state 33 st -> In e es -> ffi_depth e = MAX_DEPTH ->
  populate_loop st es = None.
Proof.
  induction es as [|x es IH]; intros st e Hwf Hin Hd; [destruct Hin|].
  cbn [populate_loop].
  destruct (populate_step st x) as [st1|] eqn:Hstep; [|reflexivity].
  cbn [obind]. destruct Hin as [->|Hin].
  - rewrite populate_step_max_depth in Hstep; [discriminate| apply Hwf | exact Hd].
  - exact (IH st1 e (populate_step_wf st x st1 Hwf Hstep) Hin Hd).
Qed.

(** In a state that satisfies the invariant, the scan from any slot of the
    array finds an open slot, and the append through the pointer found
    adds the node to that vector and to no other. *)
Lemma scan_and_push size st i item :
  wf_state size st -> i < size -> children item = [] ->
  exists p v F', scan_down (stacks st) i = Some (Some p) /\
    deref (result st) p = Some v /\
    push_back_at (result st) p item = Some F' /\
    deref F' p = Some (v ++ [item]) /\
    preorder F' = preorder (result st) ++ [label_of item].
Proof.
  intros Hwf Hi Hleaf.
  destruct (scan_down_spec (stacks st) i [] (wf_root _ _ Hwf))
    as (j & p & _ & Hp & Hscan & _); [rewrite (wf_length _ _ Hwf); exact Hi|].
  destruct (push_back_spine item p (result st) (wf_spine _ _ Hwf j p Hp))
    as (v & F' & Hv & Hpush & Hd & Hpre & _ & _).
  exists p, v, F'. rewrite <- (preorder_leaf item Hleaf). auto.
Qed.

(** C2: the pre-order traversal of the forest built from the heading
    markers lists the markers whose level lies in
    [1 .. MAX_HEADING_LEVELS], in their input order, each exactly once, as
    the name and offset the node receives (the text, and the position
    converted to [int]); the markers out of range are absent.  When the
    positions fit in an [int], the offsets are the positions themselves. *)
Theorem build_toc_from_headings_preorder (MAX : nat) (ms : list marker) :
  exists F, build_toc_from_headings MAX ms = Some F /\
    preorder F =
      map (fun m => (text m, [], static_cast_int (pos m)))
          (filter (heading_in_range MAX) ms) /\
    (Forall (fun m => (- 2 ^ 31 <= pos m < 2 ^ 31)%Z) ms ->
     map (fun l => (fst (fst l), snd l)) (preorder F) =
       map (fun m => (text m, pos m)) (filter (heading_in_range MAX) ms)).
Proof.
  destruct (heading_run MAX ms) as (st0 & st & _ & _ & Hbuild & _ & Hpre).
  exists (result st). split; [exact Hbuild|].
  rewrite map_map in Hpre. split; [exact Hpre|].
  intros Hfit. rewrite Hpre, map_map. apply map_ext_in.
  intros m Hm. apply filter_In in Hm. destruct Hm as [Hm _].
  rewrite Forall_forall in Hfit. specialize (Hfit m Hm).
  cbn [heading_event snd label_of name ref offset fst].
  unfold static_cast_int. rewrite Z.mod_small by lia.
  f_equal. lia.
Qed.

Lemma build_toc_from_headings_preorder_witness :
  exists F, build_toc_from_headings 6
      [mk_marker (wx "A") 0 1; mk_marker (wx "B") 5 3; mk_marker (wx "X") 7 9;
       mk_marker (wx "C") 9 2; mk_marker (wx "D") 12 1] = Some F /\
    map (fun l => (fst (fst l), snd l)) (preorder F) =
      [(wx "A", 0%Z); (wx "B", 5%Z); (wx "C", 9%Z); (wx "D", 12%Z)].
Proof.
  destruct (build_toc_from_headings_preorder 6
      [mk_marker (wx "A") 0 1; mk_marker (wx "B") 5 3; mk_marker (wx "X") 7 9;
       mk_marker (wx "C") 9 2; mk_marker (wx "D") 12 1]) as (F & HF & _ & Hfit).
  exists F. split; [exact HF|]. apply Hfit.
  repeat constructor; cbn [pos]; lia.
Defined.

Lemma heading_loop_drop MAX m : heading_in_range MAX m = false ->
  forall a b st,
  heading_loop MAX st (a ++ m :: b) = heading_loop MAX st (a ++ b).
Proof.
  intros Hr. induction a as [|x a IH]; intros b st.
  - cbn [app heading_loop]. rewrite (heading_step_dropped MAX st m Hr). reflexivity.
  - cbn [app heading_loop]. destruct (heading_step MAX st x); cbn [obind]; auto.
Qed.

Lemma populate_loop_drop e : depth_in_range e = false ->
  forall a b st,
  populate_loop st (a ++ e :: b) = populate_loop st (a ++ b).
Proof.
  intros Hr. induction a as [|x a IH]; intros b st.
  - cbn [app populate_loop]. rewrite (populate_step_dropped st e Hr). reflexivity.
  - cbn [app populate_loop]. destruct (populate_step st x); cbn [obind]; auto.
Qed.

(** C7: an event whose level is outside [1 .. MAX_HEADING_LEVELS], or
    whose depth is outside [0 .. 32] for the flat entries, leaves the state
    of the build as it is, and the build goes on; with or without such an
    event in the sequence, the builders return the same forest. *)
Theorem out_of_range_events_dropped (MAX : nat) :
  (forall st m, heading_in_range MAX m = false ->
     heading_step MAX st m = Some st) /\
  (forall a m b, heading_in_range MAX m = false ->
     build_toc_from_headings MAX (a ++ m :: b) =
     build_toc_from_headings MAX (a ++ b)) /\
  (forall st e, depth_in_range e = false -> populate_step st e = Some st) /\
  (forall toc_items a e b, depth_in_range e = false ->
     populate_toc_items toc_items (a ++ e :: b) =
     populate_toc_items toc_items (a ++ b)).
Proof.
  split; [|split; [|split]].
  - intros st m. apply heading_step_dropped.
  - intros a m b Hr. rewrite !build_toc_from_headings_unfold.
    destruct (heading_init MAX) as [st0|]; cbn [obind]; [|reflexivity].
    rewrite (heading_loop_drop MAX m Hr). reflexivity.
  - intros st e. apply populate_step_dropped.
  - intros t a e b Hr. rewrite !populate_toc_items_unfold.
    rewrite (populate_loop_drop e Hr). reflexivity.
Qed.

Lemma out_of_range_events_dropped_witness :
  build_toc_from_headings 6
    ([mk_marker (wx "A") 0 1] ++ mk_marker (wx "X") 3 7 :: [mk_marker (wx "B") 5 2]) =
  build_toc_from_headings 6 ([mk_marker (wx "A") 0 1] ++ [mk_marker (wx "B") 5 2]) /\
  populate_toc_items []
    ([mk_FfiTocItem (wx "a") [] 0 0] ++ mk_FfiTocItem (wx "x") [] 3 33
       :: [mk_FfiTocItem (wx "b") [] 5 1]) =
  populate_toc_items []
    ([mk_FfiTocItem (wx "a") [] 0 0] ++ [mk_FfiTocItem (wx "b") [] 5 1]).
Proof.
  destruct (out_of_range_events_dropped 6) as (_ & Hh & _ & Hp).
  split.
  - apply Hh. reflexivity.
  - apply Hp. reflexivity.
Defined.

Lemma populate_loop_attach_below : forall es st,
  Forall (fun e => ffi_depth e <> MAX_DEPTH) es ->
  populate_loop st es =
  attach_loop 33 st (map toc_event (filter depth_in_range es)).
Proof.
  induction es as [|e es IH]; intros st Hall; [reflexivity|].
  inversion Hall as [|? ? He Hes]; subst.
  cbn [populate_loop filter].
  destruct (depth_in_range e) eqn:Hr.
  - pose proof (depth_in_range_bounds e Hr) as Hb.
    assert (Hlt : (ffi_depth e < MAX_DEPTH)%Z) by (unfold MAX_DEPTH in *; lia).
    cbn [map attach_loop]. rewrite (populate_step_attach st e Hr Hlt).
    destruct (toc_event e) as [lvl item]. cbn [fst snd].
    destruct (attach 33 st lvl item) as [st'|]; cbn [obind]; auto.
  - rewrite (populate_step_dropped st e Hr). cbn [obind]. apply IH, Hes.
Qed.

Lemma toc_events_good_below es :
  Forall (fun e => ffi_depth e <> MAX_DEPTH) es ->
  Forall (good_event 33) (map toc_event (filter depth_in_range es)).
Proof.
  intros Hall. apply Forall_map, Forall_forall. intros e He. apply filter_In in He.
  destruct He as [Hin Hr]. pose proof (depth_in_range_bounds e Hr).
  rewrite Forall_forall in Hall. specialize (Hall e Hin). unfold MAX_DEPTH in Hall.
  unfold good_event, toc_event. cbn [fst snd children]. repeat split; lia.
Qed.

(** What the body of either loop does for an accepted event in a state
    that satisfies the invariant, up to the append: the scan from slot [i]
    ends on an open slot, the append through the pointer found adds the
    node at the end of that vector, and the generic body, when the slot
    [i + 1] it opens is in the array, returns the forest of that append
    with slot 0 untouched. *)
Lemma attach_scan_push size st i item :
  wf_state size st -> i < size -> children item = [] ->
  exists p v F', scan_down (stacks st) i = Some (Some p) /\
    deref (result st) p = Some v /\
    push_back_at (result st) p item = Some F' /\
    deref F' p = Some (v ++ [item]) /\
    preorder F' = preorder (result st) ++ [label_of item] /\
    (S i < size ->
     exists st', attach size st (S i) item = Some st' /\ result st' = F' /\
       wf_state size st').
Proof.
  intros Hwf Hi Hleaf.
  destruct (scan_and_push size st i item Hwf Hi Hleaf)
    as (p & v & F' & Hs & Hv & Hp & Hd & Hpre).
  exists p, v, F'. repeat (split; [assumption|]).
  intros Hlt.
  destruct (attach_spec size st (S i) item Hwf)
    as (j & p2 & v2 & res & s2 & _ & _ & _ & Hs2 & _ & Hp2 & _ & Hatt & _ & Hwf');
    [lia|exact Hlt|].
  cbn [Nat.sub] in Hs2. rewrite Nat.sub_0_r, Hs in Hs2. injection Hs2 as <-.
  rewrite Hp in Hp2. injection Hp2 as <-.
  exists (mk_builder_state F' s2). auto.
Qed.

(** C10: in both builders slot 0 of the array of open levels holds the
    address of the root vector in every state the loop reaches.  In such
    a state the body of the loop, given an accepted event, scans down to a
    non-null pointer (the [nullptr] fallback is never taken) and appends
    the node through it, at the end of that one vector: the pre-order of
    the forest is the one before with the new node at its end.  The
    heading loop reaches a state after every sequence of markers, and its
    body returns the forest of that append.  So does the body of the loop
    over the flat entries for a depth below [MAX_DEPTH]; for the depth
    [MAX_DEPTH] the append is followed by the assignment to a slot one
    past the end of the array, the body has no result, and the loop
    reaches a state after a sequence of entries only when none of them
    has that depth: the entries that follow such an entry are appended
    in no defined run. *)
Theorem parent_scan_total (MAX : nat) :
  (forall ms, exists st0 st,
     heading_init MAX = Some st0 /\ heading_loop MAX st0 ms = Some st /\
     vec_get (stacks st) 0 = Some (Some []) /\
     forall m, heading_in_range MAX m = true ->
       exists p v st',
         scan_from (stacks st) (level m - 1) = Some (Some p) /\
         deref (result st) p = Some v /\
         heading_step MAX st m = Some st' /\
         push_back_at (result st) p (snd (heading_event m)) = Some (result st') /\
         deref (result st') p = Some (v ++ [snd (heading_event m)]) /\
         preorder (result st') =
           preorder (result st) ++ [label_of (snd (heading_event m))] /\
         vec_get (stacks st') 0 = Some (Some [])) /\
  (forall toc_items es st,
     populate_loop (mk_builder_state toc_items (Some [] :: repeat None 32)) es
       = Some st ->
     vec_get (stacks st) 0 = Some (Some []) /\
     forall e, depth_in_range e = true ->
       exists p v F',
         scan_from (stacks st) (ffi_depth e) = Some (Some p) /\
         deref (result st) p = Some v /\
         push_back_at (result st) p (snd (toc_event e)) = Some F' /\
         deref F' p = Some (v ++ [snd (toc_event e)]) /\
         preorder F' = preorder (result st) ++ [label_of (snd (toc_event e))] /\
         populate_step st e =
           (child <- back_children F' p ;;
            s1 <- vec_set (stacks st) (Z.to_nat (ffi_depth e + 1)) (Some child) ;;
            s2 <- clear_loop (Z.to_nat (MAX_DEPTH + 1) - Z.to_nat (ffi_depth e + 2))
                    s1 (Z.to_nat (ffi_depth e + 2)) ;;
            Some (mk_builder_state F' s2)) /\
         ((ffi_depth e < MAX_DEPTH)%Z ->
          exists st', populate_step st e = Some st' /\ result st' = F' /\
            vec_get (stacks st') 0 = Some (Some [])) /\
         (ffi_depth e = MAX_DEPTH -> populate_step st e = None)) /\
  (forall toc_items es,
     (exists st,
        populate_loop (mk_builder_state toc_items (Some [] :: repeat None 32)) es
          = Some st) <->
     Forall (fun e => ffi_depth e <> MAX_DEPTH) es).
Proof.
  split; [|split].
  - intros ms. destruct (heading_run MAX ms) as (st0 & st & Hinit & Hloop & _ & Hwf & _).
    exists st0, st. split; [exact Hinit|]. split; [exact Hloop|].
    split; [exact (wf_root _ _ Hwf)|].
    intros m Hr. destruct (heading_event_level MAX m Hr) as [H1 H2].
    destruct (attach_scan_push (MAX + 1) st (fst (heading_event m) - 1)
                (snd (heading_event m)) Hwf)
      as (p & v & F' & Hs & Hv & Hp & Hd & Hpre & Hstep); [lia|reflexivity|].
    destruct Hstep as (st' & Hatt & Hres & Hwf'); [lia|].
    replace (S (fst (heading_event m) - 1)) with (fst (heading_event m)) in Hatt by lia.
    rewrite <- (heading_step_attach MAX st m Hr) in Hatt. subst F'.
    exists p, v, st'. repeat split; auto.
    + unfold scan_from. cbn [heading_event fst] in *.
      replace (level m - 1 <? 0)%Z with false by (symmetry; apply Z.ltb_ge; lia).
      replace (Z.to_nat (level m - 1)) with (Z.to_nat (level m) - 1) by lia.
      exact Hs.
    + exact (wf_root _ _ Hwf').
  - intros t es st Hloop.
    assert (Hwf : wf_state 33 st).
    { apply (populate_loop_wf es _ st (proj2 (initial_state_wf 32 t)) Hloop). }
    split; [exact (wf_root _ _ Hwf)|].
    intros e Hr. pose proof (depth_in_range_bounds e Hr) as Hb.
    destruct (attach_scan_push 33 st (Z.to_nat (ffi_depth e))
                (snd (toc_event e)) Hwf)
      as (p & v & F' & Hs & Hv & Hp & Hd & Hpre & Hstep); [lia|reflexivity|].
    assert (Hscan : scan_from (stacks st) (ffi_depth e) = Some (Some p)).
    { unfold scan_from.
      replace (ffi_depth e <? 0)%Z with false by (symmetry; apply Z.ltb_ge; lia).
      exact Hs. }
    exists p, v, F'. repeat (split; [assumption|]). split; [|split].
    + unfold depth_in_range in Hr. apply negb_true_iff in Hr.
      unfold populate_step. rewrite Hr, Hscan. cbn [obind].
      change (mk_toc_item (ffi_name e) (ffi_reference e) (ffi_offset e) [])
        with (snd (toc_event e)).
      rewrite Hp. reflexivity.
    + intros Hlt. unfold MAX_DEPTH in Hlt.
      destruct Hstep as (st' & Hatt & Hres & Hwf'); [lia|].
      exists st'. rewrite (populate_step_attach st e Hr Hlt).
      split; [exact Hatt|]. split; [exact Hres|exact (wf_root _ _ Hwf')].
    + intros Heq. apply populate_step_max_depth; [apply Hwf|exact Heq].
  - intros t es. destruct (initial_state_wf 32 t) as [_ Hwf]. split.
    + intros [st Hloop]. apply Forall_forall. intros e Hin Heq.
      rewrite (populate_loop_max_depth es _ e Hwf Hin Heq) in Hloop. discriminate.
    + intros Hall.
      destruct (attach_loop_spec 33 _ _ Hwf (toc_events_good_below es Hall))
        as (st & Hloop & _).
      exists st. rewrite (populate_loop_attach_below es _ Hall). exact Hloop.
Qed.

Lemma parent_scan_total_witness :
  (exists p v st',
     scan_from [Some []; Some [0]; None; None; None; None; None] (3 - 1)
       = Some (Some p) /\
     deref [mk_toc_item (wx "A") [] 0 []] p = Some v /\
     heading_step 6
       (mk_builder_state [mk_toc_item (wx "A") [] 0 []]
          [Some []; Some [0]; None; None; None; None; None])
       (mk_marker (wx "B") 5 3) = Some st' /\
     result st' = [mk_toc_item (wx "A") [] 0 [mk_toc_item (wx "B") [] 5 []]]) /\
  (exists p F',
     scan_from (Some [] :: repeat None 32) 32 = Some (Some p) /\
     push_back_at [] p (mk_toc_item (wx "a") [] 0 []) = Some F' /\
     populate_step (mk_builder_state [] (Some [] :: repeat None 32))
       (mk_FfiTocItem (wx "a") [] 0 32) = None) /\
  ~ (exists st,
       populate_loop (mk_builder_state [] (Some [] :: repeat None 32))
         [mk_FfiTocItem (wx "a") [] 0 32; mk_FfiTocItem (wx "b") [] 5 0]
       = Some st).
Proof.
  destruct (parent_scan_total 6) as (Hh & Hp & Hreach).
  split; [|split].
  - destruct (Hh [mk_marker (wx "A") 0 1]) as (st0 & st & Hinit & Hloop & _ & Hm).
    injection Hinit as <-. injection Hloop as <-.
    destruct (Hm (mk_marker (wx "B") 5 3))
      as (p & v & st' & H1 & H2 & H3 & _); [reflexivity|].
    exists p, v, st'. split; [exact H1|]. split; [exact H2|]. split; [exact H3|].
    vm_compute in H3. injection H3 as <-. reflexivity.
  - destruct (Hp [] [] (mk_builder_state [] (Some [] :: repeat None 32)) eq_refl)
      as [_ He].
    destruct (He (mk_FfiTocItem (wx "a") [] 0 32))
      as (p & v & F' & H1 & _ & H3 & _ & _ & _ & _ & Hmax); [reflexivity|].
    exists p, F'. split; [exact H1|]. split; [exact H3|]. apply Hmax. reflexivity.
  - intros Hst. apply (Hreach [] _) in Hst.
    inversion Hst as [|x l Hx _]; subst. apply Hx. reflexivity.
Defined.

(** C1: for the flat entries the attachment property breaks at the last
    depth of the valid range.  An entry of depth [MAX_DEPTH] passes the
    range check, and the assignment to slot [depth + 1] then addresses the
    element one past the end of the array of [MAX_DEPTH + 1] slots: the
    run of [populate_toc_items] is undefined, and no forest comes out of
    it.  (For the headings, and for the flat entries of a smaller depth,
    the property holds: theorems [build_toc_from_headings_attachment] and
    [populate_toc_items_attachment].) *)
Theorem populate_toc_items_max_depth (toc_items : list toc_item)
  (es : list FfiTocItem) (e : FfiTocItem) :
  In e es -> ffi_depth e = MAX_DEPTH ->
  depth_in_range e = true /\ populate_toc_items toc_items es = None.
Proof.
  intros Hin Hd. split.
  - unfold depth_in_range. rewrite Hd. reflexivity.
  - rewrite populate_toc_items_unfold.
    rewrite (populate_loop_max_depth es _ e (proj2 (initial_state_wf 32 toc_items)) Hin Hd).
    reflexivity.
Qed.

Lemma populate_toc_items_max_depth_witness :
  depth_in_range (mk_FfiTocItem (wx "deep") [] 7 32) = true /\
  populate_toc_items []
    [mk_FfiTocItem (wx "top") [] 0 0; mk_FfiTocItem (wx "deep") [] 7 32] = None.
Proof.
  apply (populate_toc_items_max_depth []
           [mk_FfiTocItem (wx "top") [] 0 0; mk_FfiTocItem (wx "deep") [] 7 32]
           (mk_FfiTocItem (wx "deep") [] 7 32)).
  - right. left. reflexivity.
  - reflexivity.
Defined.

(** ** Where the builders attach a node *)

Lemma push_back_at_cons F i p item F' :
  push_back_at F (i :: p) item = Some F' ->
  exists n cs, nth_error F i = Some n /\
    push_back_at (children n) p item = Some cs /\
    F' = replace_nth i (set_children n cs) F.
Proof.
  cbn [push_back_at]. destruct (nth_error F i) as [n|]; [|discriminate].
  intros H. apply obind_some in H. destruct H as (cs & Hcs & H).
  injection H as <-. eauto.
Qed.

(** An append changes no label and moves no node. *)
Lemma push_back_at_nth p F F' item k c :
  push_back_at F p item = Some F' -> nth_error F k = Some c ->
  exists c', nth_error F' k = Some c' /\ label_of c' = label_of c.
Proof.
  intros Hpush Hk. destruct p as [|i p].
  - injection Hpush as <-. exists c. split; [|reflexivity].
    rewrite nth_error_app1; [exact Hk|]. apply nth_error_Some. congruence.
  - apply push_back_at_cons in Hpush. destruct Hpush as (n & cs & Hn & _ & ->).
    destruct (nth_error_replace F i n (set_children n cs) Hn) as (_ & Hi & Hother).
    destruct (Nat.eq_dec k i) as [->|Hne].
    + rewrite Hn in Hk. injection Hk as <-. eauto.
    + rewrite <- (Hother k Hne) in Hk. eauto.
Qed.

Lemma push_back_at_In p F F' item c :
  push_back_at F p item = Some F' -> In c F ->
  exists c', In c' F' /\ label_of c' = label_of c.
Proof.
  intros Hpush Hin. apply In_nth_error in Hin. destruct Hin as [k Hk].
  destruct (push_back_at_nth p F F' item k c Hpush Hk) as (c' & Hc' & Hl).
  exists c'. split; [exact (nth_error_In _ _ Hc')|exact Hl].
Qed.

Lemma is_root_push p F F' item lab :
  push_back_at F p item = Some F' -> is_root F lab -> is_root F' lab.
Proof.
  intros Hpush (n & Hin & <-).
  destruct (push_back_at_In p F F' item n Hpush Hin) as (n' & Hin' & Hl).
  exists n'. auto.
Qed.

Lemma is_child_push : forall p F F' item a b,
  push_back_at F p item = Some F' -> is_child F a b -> is_child F' a b.
Proof.
  induction p as [|i p IH]; intros F F' item a b Hpush Hc.
  - injection Hpush as <-.
    destruct Hc as [F n c Hn Hcn|F n a b Hn Hc].
    + apply child_here; [apply in_or_app; left; exact Hn|exact Hcn].
    + apply (child_below _ n); [apply in_or_app; left; exact Hn|exact Hc].
  - apply push_back_at_cons in Hpush. destruct Hpush as (n0 & cs & Hn0 & Hcs & ->).
    destruct (nth_error_replace F i n0 (set_children n0 cs) Hn0) as (_ & Hi & Hother).
    pose proof (nth_error_In _ _ Hi) as Hin0.
    destruct Hc as [F n c Hn Hcn|F n a b Hn Hc];
      apply In_nth_error in Hn; destruct Hn as [k Hk];
      destruct (Nat.eq_dec k i) as [->|Hne].
    + rewrite Hn0 in Hk. injection Hk as <-.
      destruct (push_back_at_In p _ cs item c Hcs Hcn) as (c' & Hc' & <-).
      change (label_of n0) with (label_of (set_children n0 cs)).
      apply child_here; [exact Hin0|exact Hc'].
    + rewrite <- (Hother k Hne) in Hk.
      apply child_here; [exact (nth_error_In _ _ Hk)|exact Hcn].
    + rewrite Hn0 in Hk. injection Hk as <-.
      apply (child_below _ (set_children n0 cs)); [exact Hin0|].
      exact (IH _ cs item a b Hcs Hc).
    + rewrite <- (Hother k Hne) in Hk.
      apply (child_below _ n); [exact (nth_error_In _ _ Hk)|exact Hc].
Qed.

Lemma node_at_cons F i p :
  node_at F (i :: p) =
  match nth_error F i with
  | Some n =>
      match p with
      | [] => Some n
      | _ :: _ => node_at (children n) p
      end
  | None => None
  end.
Proof. reflexivity. Qed.

Lemma node_at_push : forall q p F F' item n,
  push_back_at F p item = Some F' -> node_at F q = Some n ->
  exists n', node_at F' q = Some n' /\ label_of n' = label_of n.
Proof.
  induction q as [|k q IH]; intros p F F' item n Hpush Hq; [discriminate|].
  rewrite node_at_cons in Hq.
  destruct (nth_error F k) as [m|] eqn:Hk; [|discriminate].
  destruct q as [|k' q].
  - injection Hq as <-.
    destruct (push_back_at_nth p F F' item k m Hpush Hk) as (m' & Hm' & Hl).
    exists m'. rewrite node_at_cons, Hm'. auto.
  - destruct p as [|i p].
    + injection Hpush as <-. exists n. rewrite node_at_cons.
      rewrite nth_error_app1 by (apply nth_error_Some; congruence).
      rewrite Hk. auto.
    + apply push_back_at_cons in Hpush. destruct Hpush as (n0 & cs & Hn0 & Hcs & ->).
      destruct (nth_error_replace F i n0 (set_children n0 cs) Hn0) as (_ & Hi & Hother).
      destruct (Nat.eq_dec k i) as [->|Hne].
      * rewrite Hn0 in Hk. injection Hk as <-.
        destruct (IH p _ cs item n Hcs Hq) as (n' & Hn' & Hl).
        exists n'. rewrite node_at_cons, Hi. auto.
      * exists n. rewrite node_at_cons, (Hother k Hne), Hk. auto.
Qed.

(** The node appended through the pointer to the children of [n] is a
    child of [n]. *)
Lemma is_child_new : forall p F F' item n,
  node_at F p = Some n -> push_back_at F p item = Some F' ->
  is_child F' (label_of n) (label_of item).
Proof.
  induction p as [|i p IH]; intros F F' item n Hn Hpush; [discriminate|].
  rewrite node_at_cons in Hn.
  apply push_back_at_cons in Hpush. destruct Hpush as (n0 & cs & Hn0 & Hcs & ->).
  rewrite Hn0 in Hn.
  destruct (nth_error_replace F i n0 (set_children n0 cs) Hn0) as (_ & Hi & _).
  pose proof (nth_error_In _ _ Hi) as Hin0.
  destruct p as [|k p].
  - injection Hn as <-. injection Hcs as <-.
    change (label_of n0) with (label_of (set_children n0 (children n0 ++ [item]))).
    apply child_here; [exact Hin0|]. apply in_or_app. right. left. reflexivity.
  - apply (child_below _ (set_children n0 cs)); [exact Hin0|].
    exact (IH _ cs item n Hn Hcs).
Qed.

Lemma is_root_new F F' item :
  push_back_at F [] item = Some F' -> is_root F' (label_of item).
Proof.
  intros H. injection H as <-. exists item. split; [|reflexivity].
  apply in_or_app. right. left. reflexivity.
Qed.

(** The pointer stored in the slot of the new node designates its
    children. *)
Lemma node_at_new : forall p F F' v item,
  deref F p = Some v -> push_back_at F p item = Some F' ->
  node_at F' (p ++ [length v]) = Some item.
Proof.
  induction p as [|i p IH]; intros F F' v item Hv Hpush.
  - injection Hv as <-. injection Hpush as <-.
    cbn [app]. rewrite node_at_cons.
    rewrite nth_error_app2, Nat.sub_diag by lia. reflexivity.
  - apply push_back_at_cons in Hpush. destruct Hpush as (n0 & cs & Hn0 & Hcs & ->).
    cbn [deref] in Hv. rewrite Hn0 in Hv.
    destruct (nth_error_replace F i n0 (set_children n0 cs) Hn0) as (_ & Hi & _).
    cbn [app]. rewrite node_at_cons, Hi.
    destruct (p ++ [length v]) as [|k q] eqn:Epq.
    + destruct p; discriminate.
    + rewrite <- Epq. exact (IH _ cs v item Hv Hcs).
Qed.

Lemma nearest_smaller_none : forall hist lvl,
  nearest_smaller hist lvl = None ->
  forall k, k < lvl -> open_label hist k = None.
Proof.
  induction hist as [|[l item] hist IH]; intros lvl H k Hk; [reflexivity|].
  cbn [nearest_smaller] in H. cbn [open_label].
  destruct (l <? lvl) eqn:E; [discriminate|]. nat_bool.
  replace (l =? k) with false by (symmetry; apply Nat.eqb_neq; lia).
  replace (l <? k) with false by (symmetry; apply Nat.ltb_ge; lia).
  exact (IH lvl H k Hk).
Qed.

Lemma nearest_smaller_some : forall hist lvl lab,
  Forall (fun ev => 1 <= fst ev) hist ->
  nearest_smaller hist lvl = Some lab ->
  exists j, 1 <= j /\ j < lvl /\ open_label hist j = Some lab /\
    forall k, j < k -> k < lvl -> open_label hist k = None.
Proof.
  induction hist as [|[l item] hist IH]; intros lvl lab Hall H; [discriminate|].
  inversion Hall as [|? ? Hl Hrest]; subst. cbn [fst] in Hl.
  cbn [nearest_smaller] in H. cbn [open_label].
  destruct (l <? lvl) eqn:E; nat_bool.
  - injection H as <-. exists l. rewrite Nat.eqb_refl.
    repeat split; auto. intros k Hk Hk'.
    replace (l =? k) with false by (symmetry; apply Nat.eqb_neq; lia).
    replace (l <? k) with true by (symmetry; apply Nat.ltb_lt; lia).
    reflexivity.
  - destruct (IH lvl lab Hrest H) as (j & Hj1 & Hj2 & Hopen & Hnone).
    exists j.
    replace (l =? j) with false by (symmetry; apply Nat.eqb_neq; lia).
    replace (l <? j) with false by (symmetry; apply Nat.ltb_ge; lia).
    repeat split; auto. intros k Hk Hk'.
    replace (l =? k) with false by (symmetry; apply Nat.eqb_neq; lia).
    replace (l <? k) with false by (symmetry; apply Nat.ltb_ge; lia).
    exact (Hnone k Hk Hk').
Qed.

(** One accepted event: the new node goes under the nearest preceding
    event of a smaller level, every node stays where it was, and the slots
    keep their owners. *)
Lemma attach_attached size st hist lvl item :
  wf_state size st -> owner_inv size st hist ->
  Forall (fun ev => 1 <= fst ev) hist ->
  1 <= lvl -> lvl < size ->
  exists st', attach size st lvl item = Some st' /\
    wf_state size st' /\ owner_inv size st' ((lvl, item) :: hist) /\
    attached (result st') hist lvl item /\
    (forall a b, is_child (result st) a b -> is_child (result st') a b) /\
    (forall a, is_root (result st) a -> is_root (result st') a).
Proof.
  intros Hwf Hown Hhist H1 Hlt.
  destruct (attach_spec size st lvl item Hwf H1 Hlt)
    as (j & p & v & res & s2 & Hj & Hp & Hnone & _ & Hv & Hpush & _ & Hatt & Hslots & Hwf').
  exists (mk_builder_state res s2). split; [exact Hatt|]. split; [exact Hwf'|].
  cbn [result stacks]. split; [|split; [|split]].
  - intros i Hi1 Hi2. cbn [result stacks open_label]. rewrite Hslots.
    unfold slots_after.
    destruct (i <? lvl) eqn:E1; nat_bool.
    + replace (lvl =? i) with false by (symmetry; apply Nat.eqb_neq; lia).
      replace (lvl <? i) with false by (symmetry; apply Nat.ltb_ge; lia).
      specialize (Hown i Hi1 Hi2).
      destruct (nth_error (stacks st) i) as [[q|]|]; auto.
      destruct Hown as (n & Hn & Hopen).
      destruct (node_at_push q p _ res item n Hpush Hn) as (n' & Hn' & Hl).
      exists n'. rewrite Hl. auto.
    + destruct (i =? lvl) eqn:E2; nat_bool.
      * subst i. rewrite Nat.eqb_refl. exists item. split; [|reflexivity].
        exact (node_at_new p _ res v item Hv Hpush).
      * replace (lvl =? i) with false by (symmetry; apply Nat.eqb_neq; lia).
        replace (lvl <? i) with true by (symmetry; apply Nat.ltb_lt; lia).
        replace (i <? size) with true by (symmetry; apply Nat.ltb_lt; lia).
        reflexivity.
  - unfold attached.
    destruct (nearest_smaller hist lvl) as [lab|] eqn:Ens.
    + destruct (nearest_smaller_some hist lvl lab Hhist Ens)
        as (j' & Hj1 & Hj2 & Hopen & Hclosed).
      assert (Hjj : j = j').
      { destruct (Nat.lt_trichotomy j j') as [Hlt'|[Heq|Hgt]]; [|exact Heq|].
        - pose proof (Hown j' Hj1 ltac:(lia)) as Ho.
          rewrite (Hnone j' Hlt' Hj2) in Ho. congruence.
        - pose proof (Hown j ltac:(lia) ltac:(lia)) as Ho.
          rewrite Hp in Ho. destruct Ho as (n & _ & Ho).
          rewrite (Hclosed j Hgt Hj) in Ho. discriminate. }
      subst j'. pose proof (Hown j Hj1 ltac:(lia)) as Ho.
      rewrite Hp in Ho. destruct Ho as (n & Hn & Ho).
      rewrite Hopen in Ho. injection Ho as ->.
      exact (is_child_new p _ res item n Hn Hpush).
    + assert (Hj0 : j = 0).
      { destruct j as [|j]; [reflexivity|].
        pose proof (Hown (S j) ltac:(lia) ltac:(lia)) as Ho.
        rewrite Hp in Ho. destruct Ho as (n & _ & Ho).
        rewrite (nearest_smaller_none hist lvl Ens (S j) Hj) in Ho. discriminate. }
      subst j. rewrite (wf_root _ _ Hwf) in Hp. injection Hp as <-.
      exact (is_root_new _ res item Hpush).
  - intros a b. apply (is_child_push p _ res item a b Hpush).
  - intros a. apply (is_root_push p _ res item a Hpush).
Qed.

Lemma attached_mono F F' hist lvl item :
  (forall a b, is_child F a b -> is_child F' a b) ->
  (forall a, is_root F a -> is_root F' a) ->
  attached F hist lvl item -> attached F' hist lvl item.
Proof.
  unfold attached. intros Hc Hr. destruct (nearest_smaller hist lvl); auto.
Qed.

(** The loop: every event ends up under the nearest event before it of a
    smaller level. *)
Lemma attach_loop_attached size : forall evs st hist,
  wf_state size st -> owner_inv size st hist ->
  Forall (fun ev => 1 <= fst ev) hist ->
  Forall (good_event size) evs ->
  exists st', attach_loop size st evs = Some st' /\
    (forall pre lvl item post, evs = pre ++ (lvl, item) :: post ->
       attached (result st') (rev pre ++ hist) lvl item) /\
    (forall a b, is_child (result st) a b -> is_child (result st') a b) /\
    (forall a, is_root (result st) a -> is_root (result st') a).
Proof.
  induction evs as [|[lvl item] evs IH]; intros st hist Hwf Hown Hhist Hall.
  - exists st. split; [reflexivity|]. split; [|auto].
    intros [|x pre] ? ? ? H; discriminate.
  - inversion Hall as [|? ? (H1 & H2 & _) Hrest]; subst. cbn [fst] in *.
    destruct (attach_attached size st hist lvl item Hwf Hown Hhist H1 H2)
      as (st1 & Hatt & Hwf1 & Hown1 & Hnew & Hc1 & Hr1).
    destruct (IH st1 ((lvl, item) :: hist) Hwf1 Hown1) as (st' & Hloop & Hsplit & Hc & Hr).
    { constructor; [exact H1|exact Hhist]. }
    { exact Hrest. }
    exists st'. cbn [attach_loop]. rewrite Hatt. cbn [obind].
    split; [exact Hloop|]. split; [|split].
    + intros [|x pre] l it post Heq.
      * injection Heq as <- <- <-. cbn [rev app].
        exact (attached_mono _ _ hist lvl item Hc Hr Hnew).
      * cbn [app] in Heq. injection Heq as <- Heq.
        cbn [rev]. rewrite <- app_assoc. cbn [app].
        exact (Hsplit pre l it post Heq).
    + intros a b H. apply Hc, Hc1, H.
    + intros a H. apply Hr, Hr1, H.
Qed.

Lemma initial_owner_inv n F : 
  owner_inv (S n) (mk_builder_state F (Some [] :: repeat None n)) [].
Proof.
  intros [|i] Hi1 Hi2; [lia|]. cbn [stacks nth_error open_label].
  rewrite nth_error_repeat by lia. reflexivity.
Qed.

(** ** Sibling order *)

Lemma subseq_refl {A : Type} (l : list A) : subseq l l.
Proof. induction l; [apply subseq_nil|apply subseq_take; assumption]. Qed.

Lemma subseq_app_skip_l {A : Type} (a l1 l2 : list A) :
  subseq l1 l2 -> subseq l1 (a ++ l2).
Proof. intros H. induction a; cbn [app]; [exact H|apply subseq_skip; assumption]. Qed.

Lemma subseq_app_skip_r {A : Type} (b l1 l2 : list A) :
  subseq l1 l2 -> subseq l1 (l2 ++ b).
Proof.
  intros H. induction H; cbn [app].
  - induction b; [apply subseq_nil|apply subseq_skip; assumption].
  - apply subseq_skip; assumption.
  - apply subseq_take; assumption.
Qed.

Lemma subseq_trans {A : Type} (l1 l2 l3 : list A) :
  subseq l1 l2 -> subseq l2 l3 -> subseq l1 l3.
Proof.
  intros H12 H23. revert l1 H12.
  induction H23 as [|x l2 l3 H23 IH|x l2 l3 H23 IH]; intros l1 H12.
  - exact H12.
  - apply subseq_skip. apply IH, H12.
  - inversion H12; subst.
    + apply subseq_skip. apply IH. assumption.
    + apply subseq_take. apply IH. assumption.
Qed.

Lemma preorder_cons n F :
  preorder (n :: F) = label_of n :: preorder (children n) ++ preorder F.
Proof.
  change (n :: F) with ([n] ++ F). rewrite preorder_app, preorder_singleton.
  reflexivity.
Qed.

Lemma roots_subseq_preorder F : subseq (map label_of F) (preorder F).
Proof.
  induction F as [|n F IH]; [apply subseq_nil|].
  rewrite preorder_cons. cbn [map]. apply subseq_take.
  apply subseq_app_skip_l. exact IH.
Qed.

Lemma children_subseq_preorder n F :
  In n F -> subseq (preorder (children n)) (preorder F).
Proof.
  intros Hin. apply in_split in Hin. destruct Hin as (F1 & F2 & ->).
  rewrite preorder_app, preorder_cons.
  apply subseq_app_skip_l. apply subseq_skip. apply subseq_app_skip_r.
  apply subseq_refl.
Qed.

(** In every list of siblings the nodes stand in the order of the
    pre-order traversal. *)
Lemma siblings_subseq_preorder F L :
  sibling_list F L -> subseq (map label_of L) (preorder F).
Proof.
  induction 1 as [F|F n L Hin Hs IH].
  - apply roots_subseq_preorder.
  - exact (subseq_trans _ _ _ IH (children_subseq_preorder n F Hin)).
Qed.

Lemma strictly_increasing_NoDup (l : list Z) :
  StronglySorted Z.lt l -> NoDup l.
Proof.
  induction 1 as [|x l Hs IH Hall]; constructor; auto.
  intros Hin. rewrite Forall_forall in Hall. specialize (Hall x Hin). lia.
Qed.

(** ** The attachment of every node *)

Lemma nearest_smaller_skip : forall h1 h2 lvl,
  Forall (fun ev => lvl <= fst ev) h1 ->
  nearest_smaller (h1 ++ h2) lvl = nearest_smaller h2 lvl.
Proof.
  induction h1 as [|[l item] h1 IH]; intros h2 lvl Hall; [reflexivity|].
  inversion Hall as [|? ? Hl Hrest]; subst. cbn [fst] in Hl.
  cbn [app nearest_smaller].
  replace (l <? lvl) with false by (symmetry; apply Nat.ltb_ge; lia).
  apply IH, Hrest.
Qed.

(** The generic loop, from the initial state: the pre-order, and the
    place of every node. *)
Lemma attach_run_attachment n F0 evs :
  Forall (good_event (S n)) evs ->
  exists st, attach_loop (S n) (mk_builder_state F0 (Some [] :: repeat None n)) evs
      = Some st /\
    preorder (result st) = preorder F0 ++ map (fun ev => label_of (snd ev)) evs /\
    forall pre ev post, evs = pre ++ ev :: post ->
      (forall a p b, pre = a ++ p :: b -> fst p < fst ev ->
         Forall (fun x => fst ev <= fst x) b ->
         is_child (result st) (label_of (snd p)) (label_of (snd ev))) /\
      (Forall (fun x => fst ev <= fst x) pre ->
         is_root (result st) (label_of (snd ev))).
Proof.
  intros Hgood.
  destruct (initial_state_wf n F0) as [_ Hwf].
  destruct (attach_loop_spec (S n) evs _ Hwf Hgood) as (st & Hloop & _ & Hpre).
  destruct (attach_loop_attached (S n) evs _ [] Hwf (initial_owner_inv n F0)
              (Forall_nil _) Hgood) as (st' & Hloop' & Hsplit & _ & _).
  rewrite Hloop in Hloop'. injection Hloop' as <-.
  exists st. split; [exact Hloop|]. split; [exact Hpre|].
  intros pre [lvl item] post Heq. specialize (Hsplit pre lvl item post Heq).
  rewrite app_nil_r in Hsplit. unfold attached in Hsplit. cbn [fst snd].
  split.
  - intros a [lp ip] b -> Hlt Hall. cbn [fst snd] in *.
    rewrite rev_app_distr in Hsplit. cbn [rev] in Hsplit.
    rewrite <- app_assoc in Hsplit. cbn [app] in Hsplit.
    rewrite nearest_smaller_skip in Hsplit by (apply Forall_rev; exact Hall).
    cbn [nearest_smaller] in Hsplit.
    replace (lp <? lvl) with true in Hsplit by (symmetry; apply Nat.ltb_lt; lia).
    exact Hsplit.
  - intros Hall.
    rewrite <- (app_nil_r (rev pre)) in Hsplit.
    rewrite nearest_smaller_skip in Hsplit by (apply Forall_rev; exact Hall).
    exact Hsplit.
Qed.

Lemma filter_all {A : Type} (f : A -> bool) (l : list A) :
  Forall (fun x => f x = true) l -> filter f l = l.
Proof.
  induction 1 as [|x l Hx Hl IH]; [reflexivity|].
  cbn [filter]. rewrite Hx, IH. reflexivity.
Qed.

(** X1: the attachment property of claim C1 for [build_toc_from_headings]:
    when every marker has a level in
    [1 .. MAX_HEADING_LEVELS] and the positions increase strictly (and fit
    in an [int], so that the offsets identify the nodes), the node of each
    marker is a child of the node of the nearest preceding marker of a
    strictly smaller level, whichever levels were skipped in between, and
    a root when there is no such marker; in every list of siblings the
    nodes stand in the order of arrival of their markers. *)
Theorem build_toc_from_headings_attachment (MAX : nat) (ms : list marker) :
  Forall (fun m => heading_in_range MAX m = true) ms ->
  StronglySorted Z.lt (map pos ms) ->
  Forall (fun m => (- 2 ^ 31 <= pos m < 2 ^ 31)%Z) ms ->
  exists F, build_toc_from_headings MAX ms = Some F /\
    NoDup (map snd (preorder F)) /\
    (forall pre m post, ms = pre ++ m :: post ->
       (forall a p b, pre = a ++ p :: b -> (level p < level m)%Z ->
          Forall (fun x => (level m <= level x)%Z) b ->
          is_child F (heading_label p) (heading_label m)) /\
       (Forall (fun x => (level m <= level x)%Z) pre ->
          is_root F (heading_label m))) /\
    (forall L, sibling_list F L ->
       subseq (map label_of L) (map heading_label ms)).
Proof.
  intros Hrange Hsorted Hfit.
  pose proof (filter_all (heading_in_range MAX) ms Hrange) as Hfilter.
  assert (Hgood : Forall (good_event (S MAX)) (map heading_event ms)).
  { rewrite <- Hfilter at 1. rewrite <- (Nat.add_1_r MAX).
    apply heading_events_good. }
  destruct (attach_run_attachment MAX [] (map heading_event ms) Hgood)
    as (st & Hloop & Hpre & Hsplit).
  assert (Hbuild : build_toc_from_headings MAX ms = Some (result st)).
  { rewrite build_toc_from_headings_unfold. unfold heading_init.
    rewrite Nat.add_1_r. cbn [vec_set repeat obind].
    rewrite heading_loop_attach, Hfilter, Nat.add_1_r, Hloop. reflexivity. }
  cbn [preorder flat_map app] in Hpre. rewrite map_map in Hpre.
  change (fun x => label_of (snd (heading_event x))) with heading_label in Hpre.
  exists (result st). split; [exact Hbuild|]. split; [|split].
  - rewrite Hpre, map_map. apply strictly_increasing_NoDup.
    replace (map (fun x => snd (heading_label x)) ms) with (map pos ms); [exact Hsorted|].
    apply map_ext_in. intros m Hm. rewrite Forall_forall in Hfit.
    specialize (Hfit m Hm). unfold heading_label, static_cast_int. cbn [snd].
    rewrite Z.mod_small by lia. lia.
  - intros pre m post Heq.
    destruct (Hsplit (map heading_event pre) (heading_event m) (map heading_event post))
      as [Hchild Hroot].
    { rewrite Heq, map_app. reflexivity. }
    assert (Hm : heading_in_range MAX m = true).
    { rewrite Forall_forall in Hrange. apply Hrange. rewrite Heq.
      apply in_or_app. right. left. reflexivity. }
    destruct (heading_event_level MAX m Hm) as [Hm1 _]. cbn [heading_event fst] in Hm1.
    split.
    + intros a p b -> Hlt Hall.
      apply (Hchild (map heading_event a) (heading_event p) (map heading_event b)).
      * rewrite map_app. reflexivity.
      * cbn [heading_event fst]. lia.
      * apply Forall_map. eapply Forall_impl; [|exact Hall].
        intros x Hx. cbn beta in Hx. cbn [heading_event fst]. lia.
    + intros Hall. apply Hroot.
      apply Forall_map. eapply Forall_impl; [|exact Hall].
      intros x Hx. cbn beta in Hx. cbn [heading_event fst]. lia.
  - intros L HL. rewrite <- Hpre. apply siblings_subseq_preorder, HL.
Qed.

Lemma build_toc_from_headings_attachment_witness :
  exists F,
    build_toc_from_headings 6
      [mk_marker (wx "A") 0 1; mk_marker (wx "B") 5 3; mk_marker (wx "C") 9 2]
      = Some F /\
    is_child F (wx "A", [], 0%Z) (wx "B", [], 5%Z) /\
    is_child F (wx "A", [], 0%Z) (wx "C", [], 9%Z) /\
    is_root F (wx "A", [], 0%Z).
Proof.
  destruct (build_toc_from_headings_attachment 6
      [mk_marker (wx "A") 0 1; mk_marker (wx "B") 5 3; mk_marker (wx "C") 9 2])
    as (F & HF & _ & Hplace & _).
  - repeat constructor.
  - repeat constructor; lia.
  - repeat constructor; cbn [pos]; lia.
  - exists F. split; [exact HF|]. split; [|split].
    + destruct (Hplace [mk_marker (wx "A") 0 1] (mk_marker (wx "B") 5 3)
                  [mk_marker (wx "C") 9 2] eq_refl) as [Hc _].
      apply (Hc [] (mk_marker (wx "A") 0 1) [] eq_refl); [cbn; lia|constructor].
    + destruct (Hplace [mk_marker (wx "A") 0 1; mk_marker (wx "B") 5 3]
                  (mk_marker (wx "C") 9 2) [] eq_refl) as [Hc _].
      apply (Hc [] (mk_marker (wx "A") 0 1) [mk_marker (wx "B") 5 3] eq_refl);
        [cbn; lia|repeat constructor; cbn; lia].
    + destruct (Hplace [] (mk_marker (wx "A") 0 1)
                  [mk_marker (wx "B") 5 3; mk_marker (wx "C") 9 2] eq_refl) as [_ Hr].
      apply Hr. constructor.
Defined.

(** X2: the attachment property of claim C1 for [populate_toc_items] below
    the last depth: when every entry has a depth in [0 .. MAX_DEPTH - 1] and the offsets increase strictly, the
    node of each entry is a child of the node of the nearest preceding
    entry of a strictly smaller depth, a root when there is none, and
    siblings stand in the order of arrival. *)
Theorem populate_toc_items_attachment (es : list FfiTocItem) :
  Forall (fun e => (0 <= ffi_depth e < MAX_DEPTH)%Z) es ->
  StronglySorted Z.lt (map ffi_offset es) ->
  exists F, populate_toc_items [] es = Some F /\
    NoDup (map snd (preorder F)) /\
    (forall pre e post, es = pre ++ e :: post ->
       (forall a p b, pre = a ++ p :: b -> (ffi_depth p < ffi_depth e)%Z ->
          Forall (fun x => (ffi_depth e <= ffi_depth x)%Z) b ->
          is_child F (toc_label p) (toc_label e)) /\
       (Forall (fun x => (ffi_depth e <= ffi_depth x)%Z) pre ->
          is_root F (toc_label e))) /\
    (forall L, sibling_list F L -> subseq (map label_of L) (map toc_label es)).
Proof.
  intros Hrange Hsorted.
  assert (Hin : Forall (fun e => depth_in_range e = true) es).
  { eapply Forall_impl; [|exact Hrange]. intros e He. cbn beta in He.
    unfold depth_in_range, MAX_DEPTH in *.
    replace (ffi_depth e <? 0)%Z with false by (symmetry; apply Z.ltb_ge; lia).
    replace (ffi_depth e >? 32)%Z with false
      by (symmetry; rewrite Z.gtb_ltb; apply Z.ltb_ge; lia).
    reflexivity. }
  assert (Hlt : Forall (fun e => (ffi_depth e < MAX_DEPTH)%Z) es).
  { eapply Forall_impl; [|exact Hrange]. intros e He. cbn beta in He. lia. }
  pose proof (filter_all depth_in_range es Hin) as Hfilter.
  assert (Hgood : Forall (good_event 33) (map toc_event es)).
  { rewrite <- Hfilter at 1. apply toc_events_good, Hlt. }
  destruct (attach_run_attachment 32 [] (map toc_event es) Hgood)
    as (st & Hloop & Hpre & Hsplit).
  assert (Hbuild : populate_toc_items [] es = Some (result st)).
  { rewrite populate_toc_items_unfold, (populate_loop_attach es _ Hlt), Hfilter, Hloop.
    reflexivity. }
  cbn [preorder flat_map app] in Hpre. rewrite map_map in Hpre.
  change (fun x => label_of (snd (toc_event x))) with toc_label in Hpre.
  exists (result st). split; [exact Hbuild|]. split; [|split].
  - rewrite Hpre, map_map. apply strictly_increasing_NoDup. exact Hsorted.
  - intros pre e post Heq.
    destruct (Hsplit (map toc_event pre) (toc_event e) (map toc_event post))
      as [Hchild Hroot].
    { rewrite Heq, map_app. reflexivity. }
    assert (He : (0 <= ffi_depth e)%Z).
    { rewrite Forall_forall in Hrange. apply Hrange. rewrite Heq.
      apply in_or_app. right. left. reflexivity. }
    assert (Hpre0 : Forall (fun x => (0 <= ffi_depth x)%Z) pre).
    { apply Forall_forall. intros x Hx. rewrite Forall_forall in Hrange.
      apply Hrange. rewrite Heq. apply in_or_app. left. exact Hx. }
    split.
    + intros a p b -> Hlt' Hall.
      apply (Hchild (map toc_event a) (toc_event p) (map toc_event b)).
      * rewrite map_app. reflexivity.
      * rewrite Forall_forall in Hpre0.
        assert (0 <= ffi_depth p)%Z
          by (apply Hpre0; apply in_or_app; right; left; reflexivity).
        cbn [toc_event fst]. lia.
      * apply Forall_map. eapply Forall_impl; [|exact Hall].
        intros x Hx. cbn beta in Hx. cbn [toc_event fst]. lia.
    + intros Hall. apply Hroot.
      apply Forall_map. eapply Forall_impl; [|exact Hall].
      intros x Hx. cbn beta in Hx. cbn [toc_event fst]. lia.
  - intros L HL. rewrite <- Hpre. apply siblings_subseq_preorder, HL.
Qed.

Lemma populate_toc_items_attachment_witness :
  exists F,
    populate_toc_items []
      [mk_FfiTocItem (wx "a") (wx "r1") 0 0; mk_FfiTocItem (wx "b") (wx "r2") 4 2;
       mk_FfiTocItem (wx "c") (wx "r3") 8 1] = Some F /\
    is_child F (wx "a", wx "r1", 0%Z) (wx "c", wx "r3", 8%Z).
Proof.
  destruct (populate_toc_items_attachment
      [mk_FfiTocItem (wx "a") (wx "r1") 0 0; mk_FfiTocItem (wx "b") (wx "r2") 4 2;
       mk_FfiTocItem (wx "c") (wx "r3") 8 1])
    as (F & HF & _ & Hplace & _).
  - repeat constructor; cbn; unfold MAX_DEPTH; lia.
  - repeat constructor; lia.
  - exists F. split; [exact HF|].
    destruct (Hplace [mk_FfiTocItem (wx "a") (wx "r1") 0 0;
                      mk_FfiTocItem (wx "b") (wx "r2") 4 2]
                (mk_FfiTocItem (wx "c") (wx "r3") 8 1) [] eq_refl) as [Hc _].
    apply (Hc [] (mk_FfiTocItem (wx "a") (wx "r1") 0 0)
              [mk_FfiTocItem (wx "b") (wx "r2") 4 2] eq_refl);
      [cbn; lia|repeat constructor; cbn; lia].
Defined.

(** ** cleanup_toc *)

Section CleanupFacts.
Context {L : wx_locale}.

Lemma wxString_eqb_eq (a b : wxString) : wxString_eqb a b = true <-> a = b.
Proof.
  revert b. induction a as [|x a IH]; intros [|y b]; simpl; split; intros H;
    try discriminate; auto.
  - apply andb_true_iff in H. destruct H as [H1 H2].
    apply Ascii.eqb_eq in H1. apply IH in H2. congruence.
  - injection H as -> ->. rewrite Ascii.eqb_refl. apply IH. reflexivity.
Qed.

Lemma IsEmpty_nil (s : wxString) : IsEmpty s = true <-> s = [].
Proof. destruct s; simpl; split; intros H; congruence. Qed.

Lemma height_unfold n : height n = S (forest_height (children n)).
Proof. destruct n. reflexivity. Qed.

Lemma forest_height_cons n F :
  forest_height (n :: F) = Nat.max (height n) (forest_height F).
Proof. reflexivity. Qed.

Lemma forest_height_app F G :
  forest_height (F ++ G) = Nat.max (forest_height F) (forest_height G).
Proof.
  induction F as [|n F IH]; [reflexivity|].
  cbn [app]. rewrite !forest_height_cons, IH. lia.
Qed.

Lemma forest_height_In n F : In n F -> height n <= forest_height F.
Proof.
  induction F as [|m F IH]; intros H; [destruct H|].
  rewrite forest_height_cons. destruct H as [->|H].
  - lia.
  - apply IH in H. lia.
Qed.

Lemma collapse_check_height item :
  forest_height (children (collapse_check item)) <= forest_height (children item).
Proof.
  unfold collapse_check. destruct (children item) as [|first rest] eqn:E.
  - rewrite E. lia.
  - destruct (collapse_pred item first).
    + cbn [children]. rewrite forest_height_app, forest_height_cons, height_unfold. lia.
    + rewrite E. lia.
Qed.

Lemma cleanup_toc_fuel_S fuel items :
  cleanup_toc_fuel (S fuel) items =
  map (fun item =>
         set_children (collapse_check item)
           (cleanup_toc_fuel fuel (children (collapse_check item))))
      items.
Proof. reflexivity. Qed.

Lemma cleanup_toc_fuel_more : forall fuel items,
  forest_height items <= fuel ->
  cleanup_toc_fuel (S fuel) items = cleanup_toc_fuel fuel items.
Proof.
  induction fuel as [|fuel IH]; intros items H.
  - destruct items as [|n items]; [reflexivity|].
    rewrite forest_height_cons, height_unfold in H. lia.
  - rewrite (cleanup_toc_fuel_S (S fuel) items), (cleanup_toc_fuel_S fuel items).
    apply map_ext_in. intros item Hin.
    rewrite IH; [reflexivity|].
    pose proof (forest_height_In item items Hin).
    pose proof (collapse_check_height item).
    rewrite height_unfold in *. lia.
Qed.

Lemma cleanup_toc_fuel_enough : forall extra items,
  cleanup_toc_fuel (forest_height items + extra) items = cleanup_toc items.
Proof.
  induction extra as [|extra IH]; intros items.
  - rewrite Nat.add_0_r. reflexivity.
  - rewrite Nat.add_succ_r, cleanup_toc_fuel_more by lia. apply IH.
Qed.

(** The recursion of the source: the check on each item in turn, then the
    call on its children as the check left them. *)
Lemma cleanup_toc_unfold items :
  cleanup_toc items =
  map (fun item =>
         set_children (collapse_check item)
           (cleanup_toc (children (collapse_check item))))
      items.
Proof.
  unfold cleanup_toc at 1.
  destruct (forest_height items) as [|h] eqn:Eh.
  - destruct items as [|n items]; [reflexivity|].
    rewrite forest_height_cons, height_unfold in Eh. lia.
  - rewrite cleanup_toc_fuel_S. apply map_ext_in. intros item Hin. f_equal.
    pose proof (forest_height_In item items Hin) as H1.
    pose proof (collapse_check_height item) as H2.
    rewrite height_unfold in H1.
    replace h with (forest_height (children (collapse_check item)) +
                    (h - forest_height (children (collapse_check item)))) by lia.
    apply cleanup_toc_fuel_enough.
Qed.

Lemma set_children_same n : set_children n (children n) = n.
Proof. destruct n. reflexivity. Qed.

End CleanupFacts.

Section CleanupTheorems.
Context {L : wx_locale}.

Lemma collapse_pred_true item first_child :
  collapse_pred item first_child = true <->
  CmpNoCase_is_zero (name item) (name first_child) = true /\
  (ref item = ref first_child \/ ref item = []).
Proof.
  unfold collapse_pred. rewrite andb_true_iff, orb_true_iff.
  rewrite wxString_eqb_eq, IsEmpty_nil. reflexivity.
Qed.

Lemma cleanup_toc_nth items i item :
  nth_error items i = Some item ->
  nth_error (cleanup_toc items) i =
  Some (set_children (collapse_check item)
          (cleanup_toc (children (collapse_check item)))).
Proof.
  intros H. rewrite cleanup_toc_unfold.
  rewrite nth_error_map, H. reflexivity.
Qed.

(** A node that the pass reaches comes out as a node of the result: the
    node as its check leaves it, over its cleaned children list. *)
Lemma cleanup_toc_reached items item :
  reached items item ->
  in_forest (cleanup_toc items)
    (set_children (collapse_check item)
       (cleanup_toc (children (collapse_check item)))).
Proof.
  induction 1 as [items item Hin|items item n Hin _ IH].
  - apply in_forest_root. rewrite (cleanup_toc_unfold items).
    exact (in_map _ items item Hin).
  - apply (in_forest_below _
             (set_children (collapse_check item)
                (cleanup_toc (children (collapse_check item))))).
    + rewrite (cleanup_toc_unfold items). exact (in_map _ items item Hin).
    + destruct (collapse_check item). exact IH.
Qed.

(** C5, as amended: [cleanup_toc] applies its check to every node that
    the pass reaches: the elements of the list it is called on and,
    through the recursive calls, the elements of the children list that a
    reached node has once its own check is done.  Such a node comes out
    as one node of the result, under its name, at the index it had when
    it is an element of the list itself.  For a reached node with first
    child [first_child] and further children [rest]: when the names agree
    without regard to case and the references are equal or the node has
    none, the first child is taken out and its children stand in its
    place, at the front, before the pass goes on into the new children
    list; the node adopts the reference and the offset of the first child
    when it has no reference and the child has one, and keeps its own
    otherwise.  A reached node that does not meet the condition, or has
    no children, is left as it is by the check: only its children list is
    cleaned in turn. *)
Theorem cleanup_toc_collapse (items : list toc_item) (item : toc_item) :
  reached items item ->
  exists item', in_forest (cleanup_toc items) item' /\
    (forall i, nth_error items i = Some item ->
       nth_error (cleanup_toc items) i = Some item') /\
    name item' = name item /\
    match children item with
    | [] => item' = item
    | first_child :: rest =>
        (CmpNoCase_is_zero (name item) (name first_child) = true /\
         (ref item = ref first_child \/ ref item = []) ->
         children item' = cleanup_toc (children first_child ++ rest) /\
         (ref item = [] /\ ref first_child <> [] ->
          ref item' = ref first_child /\ offset item' = offset first_child) /\
         (~ (ref item = [] /\ ref first_child <> []) ->
          ref item' = ref item /\ offset item' = offset item)) /\
        (~ (CmpNoCase_is_zero (name item) (name first_child) = true /\
            (ref item = ref first_child \/ ref item = [])) ->
         item' = set_children item (cleanup_toc (children item)))
    end.
Proof.
  intros Hreached.
  exists (set_children (collapse_check item)
            (cleanup_toc (children (collapse_check item)))).
  split; [exact (cleanup_toc_reached items item Hreached)|].
  split; [intros i Hnth; exact (cleanup_toc_nth items i item Hnth)|].
  unfold collapse_check.
  destruct (children item) as [|first_child rest] eqn:Ech.
  - rewrite Ech. split; [reflexivity|].
    rewrite cleanup_toc_unfold. cbn [map]. rewrite <- Ech. apply set_children_same.
  - destruct (collapse_pred item first_child) eqn:Hpred.
    + split; [reflexivity|]. split.
      * intros _. cbn [set_children children name ref offset].
        split; [reflexivity|].
        destruct (IsEmpty (ref item)) eqn:E1, (IsEmpty (ref first_child)) eqn:E2;
          cbn [andb negb]; split; intros H; auto.
        -- destruct H as [_ H]. apply IsEmpty_nil in E2. contradiction.
        -- exfalso. apply H. split; [apply IsEmpty_nil; exact E1|].
           intros Hn. apply IsEmpty_nil in Hn. congruence.
        -- destruct H as [H _]. apply IsEmpty_nil in H. congruence.
        -- destruct H as [H _]. apply IsEmpty_nil in H. congruence.
      * intros Hn. exfalso. apply Hn, collapse_pred_true, Hpred.
    + split; [reflexivity|]. split.
      * intros Hc. apply collapse_pred_true in Hc. congruence.
      * intros _. rewrite <- Ech. reflexivity.
Qed.

Lemma collapse_check_settled n : ~ collapses n -> collapse_check n = n.
Proof.
  unfold collapses, collapse_check. intros H.
  destruct (children n) as [|first_child rest]; [reflexivity|].
  destruct (collapse_pred n first_child); [exfalso; apply H; reflexivity|reflexivity].
Qed.

(** A pass over a forest in which the check finds nothing to collapse
    changes nothing. *)
Lemma cleanup_toc_fuel_settled : forall fuel items,
  Forall settled_item items -> cleanup_toc_fuel fuel items = items.
Proof.
  induction fuel as [|fuel IH]; intros items Hall; [reflexivity|].
  rewrite cleanup_toc_fuel_S. rewrite <- (map_id items) at 2.
  apply map_ext_in. intros item Hin.
  rewrite Forall_forall in Hall. specialize (Hall item Hin).
  inversion Hall as [n Hnc Hch]; subst.
  rewrite (collapse_check_settled item Hnc), (IH _ Hch).
  apply set_children_same.
Qed.

Lemma collapses_dec n : collapses n \/ ~ collapses n.
Proof.
  unfold collapses. destruct (children n) as [|first_child rest]; [right; auto|].
  destruct (collapse_pred n first_child); [left; reflexivity|right; discriminate].
Qed.

(** The condition of the check reads the names and the references only. *)
Lemma collapse_pred_set_children a ca b cb :
  collapse_pred (set_children a ca) (set_children b cb) = collapse_pred a b.
Proof. destruct a, b. reflexivity. Qed.

Lemma children_set_children n cs : children (set_children n cs) = cs.
Proof. destruct n. reflexivity. Qed.

(** The children that the check leaves to a node are subtrees of the node
    it was given. *)
Lemma collapse_check_children_Forall (P : toc_item -> Prop) n :
  (forall m, P m -> Forall P (children m)) ->
  Forall P (children n) -> Forall P (children (collapse_check n)).
Proof.
  intros Hsub Hall. unfold collapse_check.
  destruct (children n) as [|first_child rest] eqn:Ech; [rewrite Ech; exact Hall|].
  destruct (collapse_pred n first_child); [|rewrite Ech; exact Hall].
  cbn [children]. inversion Hall as [|x l Hx Hl]; subst.
  apply Forall_app. split; [exact (Hsub first_child Hx)|exact Hl].
Qed.

(** One pass over a forest without chains of either kind leaves no node
    that meets the condition of the check. *)
Lemma cleanup_toc_settles : forall h items,
  forest_height items <= h ->
  Forall no_chain_item items -> Forall no_late_chain_item items ->
  Forall settled_item (cleanup_toc items).
Proof.
  induction h as [|h IH]; intros items Hh Hchain Hlate;
    rewrite (cleanup_toc_unfold items).
  - destruct items as [|n items]; [constructor|].
    rewrite forest_height_cons, height_unfold in Hh. lia.
  - apply Forall_map, Forall_forall. intros n Hin.
    rewrite Forall_forall in Hchain, Hlate.
    specialize (Hchain n Hin). specialize (Hlate n Hin).
    inversion Hchain as [n1 Hc1 Hc2]; subst.
    inversion Hlate as [n2 Hl1 Hl2]; subst.
    assert (Hnc : ~ collapses (collapse_check n)).
    { destruct (collapses_dec n) as [Hyes|Hno]; [exact (Hc1 Hyes)|].
      rewrite (collapse_check_settled n Hno). exact Hno. }
    constructor.
    + unfold collapses. rewrite children_set_children.
      rewrite (cleanup_toc_unfold (children (collapse_check n))).
      destruct (children (collapse_check n)) as [|c rest] eqn:Ech; [auto|].
      cbn [map]. rewrite collapse_pred_set_children.
      rewrite (Hl1 c rest eq_refl); [discriminate|].
      unfold collapses in Hnc. rewrite Ech in Hnc.
      destruct (collapse_pred (collapse_check n) c); [exfalso; auto|reflexivity].
    + rewrite children_set_children. apply IH.
      * pose proof (forest_height_In n items Hin) as H1.
        pose proof (collapse_check_height n) as H2.
        rewrite height_unfold in H1. lia.
      * apply collapse_check_children_Forall; [|exact Hc2].
        intros m Hm. inversion Hm; assumption.
      * apply collapse_check_children_Forall; [|exact Hl2].
        intros m Hm. inversion Hm; assumption.
Qed.

(** C6, as amended: when no node of the forest meets the condition of the
    check again, against its new first child, once collapsed, and no node
    comes to meet it against the first child that its own check leaves it
    only because that child adopted a reference in its own check, one
    pass of [cleanup_toc] leaves nothing to collapse and a second pass
    returns the same forest as the first. *)
Theorem cleanup_toc_idempotent (items : list toc_item) :
  Forall no_chain_item items -> Forall no_late_chain_item items ->
  cleanup_toc (cleanup_toc items) = cleanup_toc items.
Proof.
  intros Hchain Hlate. unfold cleanup_toc at 1.
  apply cleanup_toc_fuel_settled.
  exact (cleanup_toc_settles (forest_height items) items (le_n _) Hchain Hlate).
Qed.

End CleanupTheorems.

Lemma cleanup_toc_collapse_witness :
  exists item',
    nth_error
      (cleanup_toc
         [mk_toc_item (wx "Intro") [] 0
            [mk_toc_item (wx "INTRO") (wx "ch1") 4
               [mk_toc_item (wx "Scope") (wx "ch1s1") 9 []];
             mk_toc_item (wx "Next") (wx "ch2") 20 []]]) 0 = Some item' /\
    name item' = wx "Intro" /\ ref item' = wx "ch1" /\ offset item' = 4%Z /\
    children item' =
      cleanup_toc [mk_toc_item (wx "Scope") (wx "ch1s1") 9 [];
                   mk_toc_item (wx "Next") (wx "ch2") 20 []].
Proof.
  destruct (cleanup_toc_collapse
              [mk_toc_item (wx "Intro") [] 0
                 [mk_toc_item (wx "INTRO") (wx "ch1") 4
                    [mk_toc_item (wx "Scope") (wx "ch1s1") 9 []];
                  mk_toc_item (wx "Next") (wx "ch2") 20 []]]
              (mk_toc_item (wx "Intro") [] 0
                 [mk_toc_item (wx "INTRO") (wx "ch1") 4
                    [mk_toc_item (wx "Scope") (wx "ch1s1") 9 []];
                  mk_toc_item (wx "Next") (wx "ch2") 20 []]))
    as (item' & _ & Hnth & Hname & Hcase).
  { apply reached_here. left. reflexivity. }
  cbn [children] in Hcase. destruct Hcase as [Hyes _].
  destruct Hyes as (Hch & Hadopt & _).
  { split; [reflexivity|right; reflexivity]. }
  destruct Hadopt as [Href Hoff].
  { split; [reflexivity|discriminate]. }
  exists item'. split; [exact (Hnth 0 eq_refl)|]. repeat split; assumption.
Defined.

Lemma in_forest_preorder F n : in_forest F n -> In (label_of n) (preorder F).
Proof.
  induction 1 as [F n Hin|F m n Hin _ IH]; unfold preorder; apply in_flat_map.
  - exists n. split; [exact Hin|]. destruct n. left. reflexivity.
  - exists m. split; [exact Hin|]. destruct m. right. exact IH.
Qed.

(** C5, as stated, fails for a node that the pass does not reach.  In the
    chain x|0 [x|1 [x|2 [y|3]]] the node x|1 has a first child, x|2, and
    meets the condition of the check against it; but the root collapses
    first and takes x|1 out, the pass goes on into the children that x|1
    had, and the check is never applied to x|1: its first child x|2 is
    not removed, it stays with its own child, and no node of the result
    stands for x|1. *)
Lemma cleanup_toc_collapse_unreached :
  let y := mk_toc_item (wx "y") [] 3 [] in
  let x2 := mk_toc_item (wx "x") [] 2 [y] in
  let x1 := mk_toc_item (wx "x") [] 1 [x2] in
  let items := [mk_toc_item (wx "x") [] 0 [x1]] in
  in_forest items x1 /\ children x1 = [x2] /\ collapse_pred x1 x2 = true /\
  cleanup_toc items = [mk_toc_item (wx "x") [] 0 [x2]] /\
  in_forest (cleanup_toc items) x2 /\
  ~ (exists item', in_forest (cleanup_toc items) item' /\
       offset item' = offset x1) /\
  ~ reached items x1.
Proof.
  cbv zeta. split; [|split; [|split; [|split; [|split; [|split]]]]].
  - apply (in_forest_below _ (mk_toc_item (wx "x") [] 0
             [mk_toc_item (wx "x") [] 1
                [mk_toc_item (wx "x") [] 2 [mk_toc_item (wx "y") [] 3 []]]])).
    + left. reflexivity.
    + apply in_forest_root. left. reflexivity.
  - reflexivity.
  - reflexivity.
  - reflexivity.
  - apply (in_forest_below _ (mk_toc_item (wx "x") [] 0
             [mk_toc_item (wx "x") [] 2 [mk_toc_item (wx "y") [] 3 []]])).
    + left. reflexivity.
    + apply in_forest_root. left. reflexivity.
  - intros (item' & Hin & Hoff). apply in_forest_preorder in Hin.
    destruct item' as [nm rf off ch]. cbn [offset] in Hoff. subst off.
    vm_compute in Hin.
    destruct Hin as [H|[H|[H|[]]]]; discriminate.
  - intros H.
    inversion H as [? ? Hin|? item ? Hin Hbelow]; subst.
    + destruct Hin as [Heq|[]]. discriminate.
    + destruct Hin as [<-|[]].
      change (reached [mk_toc_item (wx "x") [] 2 [mk_toc_item (wx "y") [] 3 []]]
                (mk_toc_item (wx "x") [] 1
                   [mk_toc_item (wx "x") [] 2 [mk_toc_item (wx "y") [] 3 []]]))
        in Hbelow.
      inversion Hbelow as [? ? Hin2|? item2 ? Hin2 Hbelow2]; subst.
      * destruct Hin2 as [Heq|[]]. discriminate.
      * destruct Hin2 as [<-|[]].
        change (reached [mk_toc_item (wx "y") [] 3 []]
                  (mk_toc_item (wx "x") [] 1
                     [mk_toc_item (wx "x") [] 2 [mk_toc_item (wx "y") [] 3 []]]))
          in Hbelow2.
        inversion Hbelow2 as [? ? Hin3|? item3 ? Hin3 Hbelow3]; subst.
        -- destruct Hin3 as [Heq|[]]. discriminate.
        -- destruct Hin3 as [<-|[]].
           change (reached []
                     (mk_toc_item (wx "x") [] 1
                        [mk_toc_item (wx "x") [] 2 [mk_toc_item (wx "y") [] 3 []]]))
             in Hbelow3.
           inversion Hbelow3 as [? ? Hin4|? item4 ? Hin4 _]; destruct Hin4.
Qed.

Lemma cleanup_toc_idempotent_witness :
  cleanup_toc
    [mk_toc_item (wx "Intro") [] 0
       [mk_toc_item (wx "INTRO") (wx "ch1") 4
          [mk_toc_item (wx "Scope") (wx "ch1s1") 9 []]]] =
  [mk_toc_item (wx "Intro") (wx "ch1") 4
     [mk_toc_item (wx "Scope") (wx "ch1s1") 9 []]] /\
  cleanup_toc
    (cleanup_toc
       [mk_toc_item (wx "Intro") [] 0
          [mk_toc_item (wx "INTRO") (wx "ch1") 4
             [mk_toc_item (wx "Scope") (wx "ch1s1") 9 []]]]) =
  cleanup_toc
    [mk_toc_item (wx "Intro") [] 0
       [mk_toc_item (wx "INTRO") (wx "ch1") 4
          [mk_toc_item (wx "Scope") (wx "ch1s1") 9 []]]].
Proof.
  split; [reflexivity|].
  apply (cleanup_toc_idempotent
           [mk_toc_item (wx "Intro") [] 0
              [mk_toc_item (wx "INTRO") (wx "ch1") 4
                 [mk_toc_item (wx "Scope") (wx "ch1s1") 9 []]]]).
  - repeat (constructor; cbn; try discriminate; auto).
  - repeat match goal with
           | |- Forall _ [] => apply Forall_nil
           | |- Forall _ (_ :: _) => apply Forall_cons
           | |- no_late_chain_item _ =>
               apply no_late_chain_node;
               [intros c rest Hch; vm_compute in Hch; try discriminate;
                injection Hch as Hc Hrest; subst c rest; intros _; reflexivity
               |cbn [children]]
           end.
Defined.

(** C6, as stated, fails: no node of this forest meets the condition of
    the check again after being collapsed, and yet the second pass
    collapses the root, whose first child adopted the reference "r" during
    the first pass. *)
Lemma cleanup_toc_not_idempotent :
  let items :=
    [mk_toc_item (wx "x") (wx "r") 0
       [mk_toc_item (wx "x") [] 3
          [mk_toc_item (wx "x") (wx "r") 5 []]]] in
  Forall no_chain_item items /\
  cleanup_toc items =
    [mk_toc_item (wx "x") (wx "r") 0 [mk_toc_item (wx "x") (wx "r") 5 []]] /\
  cleanup_toc (cleanup_toc items) = [mk_toc_item (wx "x") (wx "r") 0 []] /\
  cleanup_toc (cleanup_toc items) <> cleanup_toc items.
Proof.
  cbv zeta. split; [|split; [|split]].
  - repeat (constructor; cbn; try discriminate; auto).
  - reflexivity.
  - reflexivity.
  - discriminate.
Qed.

(** ** Text search: conversions and substring search *)

Lemma to_size_t_small z : (0 <= z < 2 ^ 64)%Z -> to_size_t z = z.
Proof. intros H. unfold to_size_t. apply Z.mod_small. exact H. Qed.

Lemma to_long_small z : (0 <= z < 2 ^ 63)%Z -> to_long z = z.
Proof. intros H. unfold to_long. rewrite Z.mod_small; lia. Qed.

Lemma to_long_npos : to_long npos = wxNOT_FOUND.
Proof. reflexivity. Qed.

Lemma to_size_t_range z : (0 <= to_size_t z < 2 ^ 64)%Z.
Proof. unfold to_size_t. apply Z.mod_pos_bound. lia. Qed.

Lemma starts_with_length needle : forall s,
  starts_with needle s = true -> length needle <= length s.
Proof.
  induction needle as [|x needle IH]; intros [|y s] H; simpl in *; try lia;
    try discriminate.
  apply andb_true_iff in H. destruct H as [_ H]. apply IH in H. lia.
Qed.

Lemma find_at_spec needle : forall s off p,
  find_at s needle off = Some p ->
  off <= p /\ occurs_at s needle (p - off) /\
  forall k, k < p - off -> starts_with needle (skipn k s) = false.
Proof.
  induction s as [|c s IH]; intros off p H; simpl in H.
  - destruct (starts_with needle []) eqn:E; [|discriminate].
    injection H as <-. rewrite Nat.sub_diag. repeat split; auto; try lia.
    apply starts_with_length in E. simpl in *. lia.
  - destruct (starts_with needle (c :: s)) eqn:E.
    + injection H as <-. rewrite Nat.sub_diag. repeat split; auto; try lia.
      apply starts_with_length in E. simpl in *. lia.
    + apply IH in H. destruct H as (Hle & (Hocc & Hlen) & Hmin).
      replace (p - off) with (S (p - S off)) by lia.
      repeat split; auto; try lia.
      * simpl. lia.
      * intros [|k] Hk; [exact E|]. simpl. apply Hmin. lia.
Qed.

Lemma find_at_none needle : forall s off,
  find_at s needle off = None ->
  forall k, starts_with needle (skipn k s) = false.
Proof.
  induction s as [|c s IH]; intros off H k; simpl in H.
  - destruct (starts_with needle []) eqn:E; [discriminate|].
    destruct k; exact E.
  - destruct (starts_with needle (c :: s)) eqn:E; [discriminate|].
    destruct k as [|k]; [exact E|]. simpl. exact (IH _ H k).
Qed.

Lemma rfind_at_none needle : forall s off,
  rfind_at s needle off = None ->
  forall k, starts_with needle (skipn k s) = false.
Proof.
  induction s as [|c s IH]; intros off H k; cbn [rfind_at] in H.
  - destruct (starts_with needle []) eqn:E; [discriminate|].
    destruct k; exact E.
  - destruct (rfind_at s needle (S off)) eqn:Er; [discriminate|].
    destruct (starts_with needle (c :: s)) eqn:E; [discriminate|].
    destruct k as [|k]; [exact E|]. simpl. exact (IH _ Er k).
Qed.

Lemma rfind_at_spec needle : forall s off p,
  rfind_at s needle off = Some p ->
  off <= p /\ occurs_at s needle (p - off) /\
  forall k, p - off < k -> k <= length s ->
    starts_with needle (skipn k s) = false.
Proof.
  induction s as [|c s IH]; intros off p H; cbn [rfind_at] in H.
  - destruct (starts_with needle []) eqn:E; [|discriminate].
    injection H as <-. rewrite Nat.sub_diag. repeat split; auto; try lia.
    + apply starts_with_length in E. simpl in *. lia.
    + intros k Hk Hk'. simpl in Hk'. lia.
  - destruct (rfind_at s needle (S off)) as [p'|] eqn:Er.
    + injection H as <-. apply IH in Er. destruct Er as (Hle & (Hocc & Hlen) & Hmax).
      replace (p' - off) with (S (p' - S off)) by lia.
      repeat split; auto; try lia.
      * simpl. lia.
      * intros [|k] Hk Hk'; [lia|]. simpl. apply Hmax; simpl in Hk'; lia.
    + destruct (starts_with needle (c :: s)) eqn:E; [|discriminate].
      injection H as <-. rewrite Nat.sub_diag. repeat split; auto; try lia.
      * apply starts_with_length in E. simpl in *. lia.
      * intros [|k] Hk _; [lia|]. simpl. exact (rfind_at_none needle s _ Er k).
Qed.

Lemma starts_with_firstn needle : forall m s,
  starts_with needle (firstn m s) = true <->
  starts_with needle s = true /\ length needle <= m.
Proof.
  induction needle as [|x needle IH]; intros m s; simpl.
  - split; auto. intros _. split; [reflexivity|lia].
  - destruct m as [|m], s as [|y s]; simpl;
      try (split; [discriminate|intros [H1 H2]; try discriminate; lia]).
    rewrite !andb_true_iff, IH. split; intros H; repeat split; try tauto; lia.
Qed.

Lemma occurs_at_skipn s needle off k :
  off <= length s ->
  occurs_at (skipn off s) needle k <-> occurs_at s needle (off + k).
Proof.
  intros Hoff. unfold occurs_at.
  rewrite skipn_skipn, length_skipn, (Nat.add_comm k off). split; intros [H1 H2];
    split; auto; lia.
Qed.

Lemma occurs_at_firstn s needle w p :
  w <= length s ->
  occurs_at (firstn w s) needle p <-> occurs_at s needle p /\ p + length needle <= w.
Proof.
  intros Hw. unfold occurs_at.
  rewrite skipn_firstn_comm, starts_with_firstn, length_firstn.
  split; intros H; repeat split; try tauto; lia.
Qed.

(** [s.find(needle, pos)]: [npos] when [needle] does not occur at or after
    [pos], the first such occurrence otherwise. *)
Lemma find_spec s needle pos :
  (0 <= pos)%Z ->
  (find s needle pos = npos /\
   forall k, Z.to_nat pos <= k -> ~ occurs_at s needle k) \/
  (exists p, find s needle pos = Z.of_nat p /\ Z.to_nat pos <= p /\
     occurs_at s needle p /\
     forall k, Z.to_nat pos <= k -> k < p -> ~ occurs_at s needle k).
Proof.
  intros Hpos. unfold find.
  destruct (Z.of_nat (length s) <? pos)%Z eqn:Elen.
  - left. split; [reflexivity|]. apply Z.ltb_lt in Elen.
    intros k Hk [_ Hocc]. lia.
  - apply Z.ltb_ge in Elen.
    assert (Hoff : Z.to_nat pos <= length s) by lia.
    destruct (find_at (skipn (Z.to_nat pos) s) needle (Z.to_nat pos)) as [p|] eqn:Ef.
    + right. apply find_at_spec in Ef. destruct Ef as (Hle & Hocc & Hmin).
      exists p. repeat split; auto.
      * apply (occurs_at_skipn s needle (Z.to_nat pos)) in Hocc; [|exact Hoff].
        replace (Z.to_nat pos + (p - Z.to_nat pos)) with p in Hocc by lia.
        apply Hocc.
      * apply (occurs_at_skipn s needle (Z.to_nat pos)) in Hocc; [|exact Hoff].
        replace (Z.to_nat pos + (p - Z.to_nat pos)) with p in Hocc by lia.
        apply Hocc.
      * intros k Hk Hkp [Hs _].
        specialize (Hmin (k - Z.to_nat pos)). rewrite skipn_skipn in Hmin.
        replace (k - Z.to_nat pos + Z.to_nat pos) with k in Hmin by lia.
        rewrite Hmin in Hs by lia. discriminate.
    + left. split; [reflexivity|]. intros k Hk [Hs _].
      pose proof (find_at_none needle _ _ Ef (k - Z.to_nat pos)) as Hn.
      rewrite skipn_skipn in Hn.
      replace (k - Z.to_nat pos + Z.to_nat pos) with k in Hn by lia.
      congruence.
Qed.

(** [s.rfind(needle)]: [npos] when [needle] does not occur, the last
    occurrence otherwise. *)
Lemma rfind_spec s needle :
  (rfind s needle = npos /\ forall k, ~ occurs_at s needle k) \/
  (exists p, rfind s needle = Z.of_nat p /\ occurs_at s needle p /\
     forall k, p < k -> ~ occurs_at s needle k).
Proof.
  unfold rfind. destruct (rfind_at s needle 0) as [p|] eqn:Er.
  - right. apply rfind_at_spec in Er. destruct Er as (_ & Hocc & Hmax).
    rewrite Nat.sub_0_r in *. exists p. repeat split; try apply Hocc.
    intros k Hk [Hs Hl]. rewrite Hmax in Hs by lia. discriminate.
  - left. split; [reflexivity|]. intros k [Hs _].
    rewrite (rfind_at_none needle s 0 Er k) in Hs. discriminate.
Qed.

Lemma Left_spec s count :
  (0 <= count)%Z ->
  Left s count = firstn (Nat.min (Z.to_nat count) (length s)) s.
Proof.
  intros Hc. unfold Left. destruct (Z.of_nat (length s) <? count)%Z eqn:E.
  - apply Z.ltb_lt in E. rewrite Nat.min_r by lia. symmetry. apply firstn_all.
  - apply Z.ltb_ge in E. rewrite Nat.min_l by lia. reflexivity.
Qed.

(** ** The whole-word loop *)

Section WholeWord.
Context {L : wx_locale}.
Variables (haystack needle search_haystack search_needle : wxString).
Hypothesis Hsh : length search_haystack = length haystack.
Hypothesis Hsn : length search_needle = length needle.
Hypothesis Hlen : (Z.of_nat (length haystack) < 2 ^ 63)%Z.

Lemma whole_word_loop_S fwd fuel pos :
  whole_word_loop haystack needle search_haystack search_needle fwd (S fuel) pos =
  let pos1 :=
    if fwd
    then to_long (find search_haystack search_needle (to_size_t pos))
    else to_long (rfind (Left search_haystack (to_size_t pos)) search_needle) in
  if (pos1 =? wxNOT_FOUND)%Z then Some wxNOT_FOUND
  else if word_check haystack needle pos1 then Some pos1
  else
    let pos2 := if fwd then (pos1 + 1)%Z else (pos1 - 1)%Z in
    if fwd && (to_size_t pos2 >=? Z.of_nat (length haystack))%Z
    then Some wxNOT_FOUND
    else if negb fwd && (pos2 <? 0)%Z then Some wxNOT_FOUND
    else whole_word_loop haystack needle search_haystack search_needle fwd fuel pos2.
Proof. reflexivity. Qed.

Lemma word_check_spec p :
  p + length needle <= length haystack ->
  word_check haystack needle (Z.of_nat p) = true <->
  whole_word_at haystack (length needle) p.
Proof.
  intros Hp. unfold word_check, whole_word_at, char_at.
  rewrite (to_size_t_small (Z.of_nat p)) by lia.
  rewrite (to_size_t_small (Z.of_nat p + Z.of_nat (length needle))) by lia.
  rewrite andb_true_iff.
  assert (H1 : (if (Z.of_nat p =? 0)%Z then true
                else negb (wxIsalnum (nth (Z.to_nat (to_size_t (Z.of_nat p - 1)))
                                        haystack zero))) = true <->
               (p = 0 \/ wxIsalnum (nth (p - 1) haystack zero) = false)).
  { destruct (Z.of_nat p =? 0)%Z eqn:E.
    - apply Z.eqb_eq in E. split; auto. intros _. left. lia.
    - apply Z.eqb_neq in E. rewrite to_size_t_small by lia.
      replace (Z.to_nat (Z.of_nat p - 1)) with (p - 1) by lia.
      rewrite negb_true_iff. split; auto. intros [H|H]; [lia|exact H]. }
  assert (H2 : (if (Z.of_nat p + Z.of_nat (length needle)
                      >=? Z.of_nat (length haystack))%Z
                then true
                else negb (wxIsalnum (nth (Z.to_nat (Z.of_nat p + Z.of_nat (length needle)))
                                        haystack zero))) = true <->
               (length haystack <= p + length needle \/
                wxIsalnum (nth (p + length needle) haystack zero) = false)).
  { destruct (Z.of_nat p + Z.of_nat (length needle) >=? Z.of_nat (length haystack))%Z eqn:E.
    - rewrite Z.geb_le in E. split; auto. intros _. left. lia.
    - rewrite Z.geb_leb in E. apply Z.leb_gt in E.
      replace (Z.to_nat (Z.of_nat p + Z.of_nat (length needle)))
        with (p + length needle) by lia.
      rewrite negb_true_iff. split; auto. intros [H|H]; [lia|exact H]. }
  rewrite H1, H2. reflexivity.
Qed.

(** The forward loop returns the first whole-word occurrence at or after
    its starting position, if there is one. *)
Lemma whole_word_loop_forward : needle <> [] -> forall fuel pos,
  1 <= fuel ->
  (Z.of_nat (length haystack) + 1 <= Z.of_nat fuel + to_size_t pos)%Z ->
  exists r,
    whole_word_loop haystack needle search_haystack search_needle true fuel pos
      = Some r /\
    ((r = wxNOT_FOUND /\
      forall k, (to_size_t pos <= Z.of_nat k)%Z ->
        occurs_at search_haystack search_needle k ->
        ~ whole_word_at haystack (length needle) k) \/
     (exists p, r = Z.of_nat p /\ (to_size_t pos <= Z.of_nat p)%Z /\
        occurs_at search_haystack search_needle p /\
        whole_word_at haystack (length needle) p /\
        forall k, (to_size_t pos <= Z.of_nat k)%Z -> k < p ->
          occurs_at search_haystack search_needle k ->
          ~ whole_word_at haystack (length needle) k)).
Proof.
  intros Hne. assert (Hn1 : 1 <= length needle) by (destruct needle; simpl; [congruence|lia]).
  induction fuel as [|fuel IH]; intros pos H1 Hfuel; [lia|].
  rewrite whole_word_loop_S. cbv zeta.
  pose proof (to_size_t_range pos) as Hu.
  destruct (find_spec search_haystack search_needle (to_size_t pos) (proj1 Hu))
    as [[Hf Hnone]|(p & Hf & Hp & Hocc & Hmin)]; rewrite Hf.
  - rewrite to_long_npos. cbn [Z.eqb wxNOT_FOUND Pos.eqb].
    exists wxNOT_FOUND. split; [reflexivity|]. left. split; [reflexivity|].
    intros k Hk Ho _. apply (Hnone k); [lia|exact Ho].
  - assert (Hpl : p + length needle <= length haystack).
    { destruct Hocc as [_ Ho]. lia. }
    rewrite to_long_small by lia.
    replace (Z.of_nat p =? wxNOT_FOUND)%Z with false
      by (symmetry; apply Z.eqb_neq; unfold wxNOT_FOUND; lia).
    destruct (word_check haystack needle (Z.of_nat p)) eqn:Ec.
    + exists (Z.of_nat p). split; [reflexivity|]. right. exists p.
      repeat split; try apply Hocc; try lia.
      * apply word_check_spec; auto.
      * apply word_check_spec; auto.
      * intros k Hk Hkp Ho _. apply (Hmin k); [lia|exact Hkp|exact Ho].
    + assert (Hrej : ~ whole_word_at haystack (length needle) p).
      { intros Hw. apply word_check_spec in Hw; [congruence|exact Hpl]. }
      rewrite (to_size_t_small (Z.of_nat p + 1)) by lia.
      cbn [andb negb].
      destruct (Z.of_nat p + 1 >=? Z.of_nat (length haystack))%Z eqn:Eend.
      * rewrite Z.geb_le in Eend.
        exists wxNOT_FOUND. split; [reflexivity|]. left. split; [reflexivity|].
        intros k Hk Ho Hw.
        destruct (Nat.lt_trichotomy k p) as [Hkp|[->|Hkp]].
        -- apply (Hmin k); [lia|exact Hkp|exact Ho].
        -- contradiction.
        -- destruct Ho as [_ Ho]. lia.
      * rewrite Z.geb_leb in Eend. apply Z.leb_gt in Eend.
        destruct (IH (Z.of_nat p + 1)%Z) as (r & Hr & Hres).
        -- lia.
        -- rewrite to_size_t_small by lia. lia.
        -- rewrite to_size_t_small in Hres by lia.
           exists r. split; [exact Hr|].
           destruct Hres as [[-> Hall]|(q & -> & Hq & Hoq & Hwq & Hminq)].
           ++ left. split; [reflexivity|]. intros k Hk Ho Hw.
              destruct (Nat.lt_trichotomy k p) as [Hkp|[->|Hkp]].
              ** apply (Hmin k); [lia|exact Hkp|exact Ho].
              ** contradiction.
              ** apply (Hall k); [lia|exact Ho|exact Hw].
           ++ right. exists q. repeat split; try apply Hoq; try apply Hwq; try lia.
              intros k Hk Hkq Ho Hw.
              destruct (Nat.lt_trichotomy k p) as [Hkp|[->|Hkp]].
              ** apply (Hmin k); [lia|exact Hkp|exact Ho].
              ** contradiction.
              ** apply (Hminq k); [lia|exact Hkq|exact Ho|exact Hw].
Qed.

(** The backward loop stops, and what it returns is a whole-word
    occurrence that ends at or before its starting position. *)
Lemma whole_word_loop_backward : forall fuel pos,
  Nat.min (Z.to_nat (to_size_t pos)) (length haystack) + 1 <= fuel ->
  exists r,
    whole_word_loop haystack needle search_haystack search_needle false fuel pos
      = Some r /\
    (r = wxNOT_FOUND \/
     exists p, r = Z.of_nat p /\
       occurs_at search_haystack search_needle p /\
       (Z.of_nat (p + length needle) <= to_size_t pos)%Z /\
       whole_word_at haystack (length needle) p).
Proof.
  induction fuel as [|fuel IH]; intros pos Hfuel; [lia|].
  rewrite whole_word_loop_S. cbv zeta.
  pose proof (to_size_t_range pos) as Hu.
  rewrite (Left_spec search_haystack (to_size_t pos) (proj1 Hu)).
  set (w := Nat.min (Z.to_nat (to_size_t pos)) (length search_haystack)).
  assert (Hw : w <= length search_haystack) by (unfold w; lia).
  destruct (rfind_spec (firstn w search_haystack) search_needle)
    as [[Hf _]|(p & Hf & Hocc & _)]; rewrite Hf.
  - rewrite to_long_npos. exists wxNOT_FOUND. split; [reflexivity|]. left. reflexivity.
  - apply occurs_at_firstn in Hocc; [|exact Hw]. destruct Hocc as [Hocc Hpw].
    assert (Hpl : p + length needle <= length haystack) by (unfold w in *; lia).
    rewrite to_long_small by lia.
    replace (Z.of_nat p =? wxNOT_FOUND)%Z with false
      by (symmetry; apply Z.eqb_neq; unfold wxNOT_FOUND; lia).
    destruct (word_check haystack needle (Z.of_nat p)) eqn:Ec.
    + exists (Z.of_nat p). split; [reflexivity|]. right. exists p.
      split; [reflexivity|]. split; [exact Hocc|]. split; [unfold w in *; lia|].
      apply word_check_spec; auto.
    + cbn [andb negb].
      destruct (Z.of_nat p - 1 <? 0)%Z eqn:Eneg.
      * exists wxNOT_FOUND. split; [reflexivity|]. left. reflexivity.
      * apply Z.ltb_ge in Eneg.
        destruct (IH (Z.of_nat p - 1)%Z) as (r & Hr & Hres).
        -- rewrite to_size_t_small by lia. unfold w in *. lia.
        -- exists r. split; [exact Hr|].
           destruct Hres as [->|(q & -> & Hoq & Hq & Hwq)]; [left; reflexivity|].
           right. exists q. rewrite to_size_t_small in Hq by lia.
           split; [reflexivity|]. split; [exact Hoq|]. split; [unfold w in *; lia|].
           exact Hwq.
Qed.

End WholeWord.

(** ** The literal search *)

Section LiteralTheorems.
Context {L : wx_locale} {E : regex_engine}.

Lemma IsEmpty_false (s : wxString) : s <> [] -> IsEmpty s = false.
Proof. destruct s; [congruence|reflexivity]. Qed.

Lemma find_text_whole_word fuel haystack needle start options :
  needle <> [] -> match_whole_word options = true -> use_regex options = false ->
  find_text fuel haystack needle start options =
  whole_word_loop haystack needle
    (if match_case options then haystack else Lower haystack)
    (if match_case options then needle else Lower needle)
    (forward options) fuel start.
Proof.
  intros Hne Hw Hr. unfold find_text, find_text_literal.
  rewrite (IsEmpty_false needle Hne), Hr, Hw. reflexivity.
Qed.

Lemma search_form_length (b : bool) (s : wxString) :
  length (if b then s else Lower s) = length s.
Proof. destruct b; [reflexivity|]. unfold Lower. apply length_map. Qed.

(** C9: the candidate loop of the whole-word literal search stops, in
    either direction: with a budget of two more iterations than the
    haystack has characters, [find_text] returns, and it returns
    [wxNOT_FOUND] or the offset of an occurrence that passed both boundary
    tests. *)
Theorem whole_word_loop_terminates (fuel : nat) (haystack needle : wxString)
  (start : Z) (options : find_options) :
  needle <> [] -> match_whole_word options = true -> use_regex options = false ->
  (Z.of_nat (length haystack) < 2 ^ 63)%Z ->
  length haystack + 2 <= fuel ->
  exists r, find_text fuel haystack needle start options = Some r /\
    (r = wxNOT_FOUND \/
     exists p, r = Z.of_nat p /\
       occurs_at (if match_case options then haystack else Lower haystack)
                 (if match_case options then needle else Lower needle) p /\
       whole_word_at haystack (length needle) p).
Proof.
  intros Hne Hw Hr Hlen Hfuel.
  rewrite (find_text_whole_word fuel haystack needle start options Hne Hw Hr).
  pose proof (to_size_t_range start) as Hu.
  destruct (forward options).
  - destruct (whole_word_loop_forward haystack needle _ _
                (search_form_length (match_case options) haystack)
                (search_form_length (match_case options) needle)
                Hlen Hne fuel start) as (r & Hres & Hcase); [lia|lia|].
    exists r. split; [exact Hres|].
    destruct Hcase as [[-> _]|(p & -> & _ & Ho & Hww & _)]; [left; reflexivity|].
    right. exists p. auto.
  - destruct (whole_word_loop_backward haystack needle _ _
                (search_form_length (match_case options) haystack)
                (search_form_length (match_case options) needle)
                Hlen fuel start) as (r & Hres & Hcase); [lia|].
    exists r. split; [exact Hres|].
    destruct Hcase as [->|(p & -> & Ho & _ & Hww)]; [left; reflexivity|].
    right. exists p. auto.
Qed.

(** X3: the forward whole-word search returns the first occurrence at or
    after [start] that passes both boundary tests, and [wxNOT_FOUND] when
    there is none. *)
Theorem find_text_whole_word_forward (fuel : nat) (haystack needle : wxString)
  (start : Z) (options : find_options) :
  needle <> [] -> match_whole_word options = true -> use_regex options = false ->
  forward options = true ->
  (Z.of_nat (length haystack) < 2 ^ 63)%Z -> (0 <= start < 2 ^ 63)%Z ->
  length haystack + 2 <= fuel ->
  let sh := if match_case options then haystack else Lower haystack in
  let sn := if match_case options then needle else Lower needle in
  exists r, find_text fuel haystack needle start options = Some r /\
    ((r = wxNOT_FOUND /\
      forall k, (start <= Z.of_nat k)%Z -> occurs_at sh sn k ->
        ~ whole_word_at haystack (length needle) k) \/
     (exists p, r = Z.of_nat p /\ (start <= Z.of_nat p)%Z /\
        occurs_at sh sn p /\ whole_word_at haystack (length needle) p /\
        forall k, (start <= Z.of_nat k)%Z -> k < p -> occurs_at sh sn k ->
          ~ whole_word_at haystack (length needle) k)).
Proof.
  intros Hne Hw Hr Hf Hlen Hstart Hfuel sh sn.
  rewrite (find_text_whole_word fuel haystack needle start options Hne Hw Hr), Hf.
  destruct (whole_word_loop_forward haystack needle sh sn
              (search_form_length (match_case options) haystack)
              (search_form_length (match_case options) needle)
              Hlen Hne fuel start) as (r & Hres & Hcase).
  - lia.
  - pose proof (to_size_t_range start). lia.
  - rewrite to_size_t_small in Hcase by lia. exists r. split; [exact Hres|exact Hcase].
Qed.

End LiteralTheorems.

Lemma whole_word_loop_terminates_witness :
  exists r,
    find_text 17 (wx "cat catalog cat") (wx "cat") 15
      (mk_find_options false true true false) = Some r /\
    (r = wxNOT_FOUND \/
     exists p, r = Z.of_nat p /\
       occurs_at (wx "cat catalog cat") (wx "cat") p /\
       whole_word_at (wx "cat catalog cat") 3 p).
Proof.
  apply (whole_word_loop_terminates 17 (wx "cat catalog cat") (wx "cat") 15
           (mk_find_options false true true false)).
  - discriminate.
  - reflexivity.
  - reflexivity.
  - simpl. lia.
  - simpl. lia.
Defined.

Lemma find_text_whole_word_forward_witness :
  exists r,
    find_text 17 (wx "cat catalog cat") (wx "cat") 1
      (mk_find_options true true true false) = Some r.
Proof.
  destruct (find_text_whole_word_forward 17 (wx "cat catalog cat") (wx "cat") 1
              (mk_find_options true true true false)) as (r & Hr & _).
  - discriminate.
  - reflexivity.
  - reflexivity.
  - reflexivity.
  - simpl. lia.
  - lia.
  - simpl. lia.
  - exists r. exact Hr.
Defined.

(** C4: the documented example holds, and so does the forward direction
    (theorem [find_text_whole_word_forward]); the backward direction does
    not return the last whole-word occurrence in general.  After it
    rejects a candidate at offset [pos], the loop searches the prefix of
    length [pos - 1], which leaves out every occurrence that overlaps or
    touches the rejected one.  Here the occurrence at offset 0 starts the
    buffer and is followed by a space, the candidate at offset 2 is
    rejected, and the search returns [wxNOT_FOUND]. *)
Theorem find_text_whole_word_backward_misses :
  find_text 17 (wx "cat catalog cat") (wx "cat") 15
    (mk_find_options false true true false) = Some 12%Z /\
  find_text 7 (wx " a ab") (wx " a") 5
    (mk_find_options false true true false) = Some wxNOT_FOUND /\
  occurs_at (wx " a ab") (wx " a") 0 /\
  whole_word_at (wx " a ab") 2 0 /\
  (Z.of_nat (0 + 2) <= 5)%Z.
Proof.
  split; [reflexivity|]. split; [reflexivity|].
  split; [split; [reflexivity|simpl; lia]|].
  split; [|simpl; lia].
  split; [left; reflexivity|right; reflexivity].
Qed.

(** ** The regular-expression search *)

Section RegexTheorems.
Context {L : wx_locale} {E : regex_engine}.

Lemma regex_backward_loop_S fuel (rx : regex) text end_ cur last_match :
  regex_backward_loop (S fuel) rx text end_ cur last_match =
  if cur <=? end_ then
    match regex_search rx text cur end_ with
    | Match first _ =>
        regex_backward_loop fuel rx text end_ (first + 1) (Z.of_nat first)
    | NoMatch => Some last_match
    | SearchThrows => Some wxNOT_FOUND
    end
  else Some last_match.
Proof. reflexivity. Qed.

(** The backward loop stops: each search resumes one past the start of the
    match before. *)
Lemma regex_backward_loop_returns (rx : regex) text end_ :
  search_within_range E ->
  forall fuel cur last_match,
  cur <= end_ + 1 -> end_ + 2 <= fuel + cur ->
  exists r, regex_backward_loop fuel rx text end_ cur last_match = Some r /\
    (r = wxNOT_FOUND \/ r = last_match \/
     exists p, r = Z.of_nat p /\ p <= end_).
Proof.
  intros Hrange. induction fuel as [|fuel IH]; intros cur last Hcur Hfuel; [lia|].
  rewrite regex_backward_loop_S.
  destruct (cur <=? end_) eqn:Ecur; [|eauto].
  apply Nat.leb_le in Ecur.
  destruct (regex_search rx text cur end_) as [| |p q] eqn:Es; eauto.
  destruct (Hrange rx text cur end_ p q Es Ecur) as (H1 & H2 & H3).
  destruct (IH (p + 1) (Z.of_nat p)) as (r & Hr & Hcase); [lia|lia|].
  exists r. split; [exact Hr|].
  destruct Hcase as [->|[->|(p' & -> & Hp')]]; eauto.
  right. right. exists p. split; [reflexivity|lia].
Qed.









End RegexTheorems.



(** ** Errors and outcomes of the search *)

Section SearchOutcomes.
Context {L : wx_locale} {E : regex_engine}.

Lemma find_nonneg_or_npos s needle pos :
  (0 <= pos)%Z -> (Z.of_nat (length s) < 2 ^ 63)%Z ->
  to_long (find s needle pos) = wxNOT_FOUND \/ (0 <= to_long (find s needle pos))%Z.
Proof.
  intros Hpos Hlen.
  destruct (find_spec s needle pos Hpos) as [[-> _]|(p & -> & _ & [_ Ho] & _)].
  - left. apply to_long_npos.
  - right. rewrite to_long_small; lia.
Qed.

Lemma rfind_nonneg_or_npos s needle :
  (Z.of_nat (length s) < 2 ^ 63)%Z ->
  to_long (rfind s needle) = wxNOT_FOUND \/ (0 <= to_long (rfind s needle))%Z.
Proof.
  intros Hlen.
  destruct (rfind_spec s needle) as [[-> _]|(p & -> & [_ Ho] & _)].
  - left. apply to_long_npos.
  - right. rewrite to_long_small; lia.
Qed.

Lemma Left_length s count : (0 <= count)%Z -> length (Left s count) <= length s.
Proof. intros H. rewrite (Left_spec s count H), length_firstn. lia. Qed.

Lemma find_text_literal_outcome fuel haystack needle start options :
  needle <> [] ->
  (Z.of_nat (length haystack) < 2 ^ 63)%Z -> length haystack + 2 <= fuel ->
  exists r, find_text_literal fuel haystack needle start options = Some r /\
    (r = wxNOT_FOUND \/ (0 <= r)%Z).
Proof.
  intros Hne Hlen Hfuel. unfold find_text_literal.
  pose proof (to_size_t_range start) as Hu.
  pose proof (search_form_length (match_case options) haystack) as Hsh.
  pose proof (search_form_length (match_case options) needle) as Hsn.
  destruct (match_whole_word options); cbn [negb].
  - destruct (forward options).
    + destruct (whole_word_loop_forward haystack needle _ _ Hsh Hsn Hlen Hne
                  fuel start) as (r & Hres & Hcase); [lia|lia|].
      exists r. split; [exact Hres|].
      destruct Hcase as [[-> _]|(p & -> & _)]; [left; reflexivity|right; lia].
    + destruct (whole_word_loop_backward haystack needle _ _ Hsh Hsn Hlen
                  fuel start) as (r & Hres & Hcase); [lia|].
      exists r. split; [exact Hres|].
      destruct Hcase as [->|(p & -> & _)]; [left; reflexivity|right; lia].
  - eexists. split; [reflexivity|].
    destruct (forward options).
    + apply find_nonneg_or_npos; [lia|]. rewrite Hsh. exact Hlen.
    + apply rfind_nonneg_or_npos.
      pose proof (Left_length (if match_case options then haystack else Lower haystack)
                    (to_size_t start) (proj1 Hu)).
      lia.
Qed.

(** C8: [find_text] returns [wxNOT_FOUND] for an empty needle; with
    [use_regex], it returns [wxNOT_FOUND] when the constructor of the
    pattern throws and when a search throws, in the forward search and at
    whichever turn of the backward loop, whatever match was recorded
    before.  No outcome of [find_text] is an exception: given the
    iteration budget its loops need, it returns a value, [wxNOT_FOUND] or
    a non-negative offset. *)
Theorem find_text_error_collapse :
  (forall fuel haystack start options,
     find_text fuel haystack [] start options = Some wxNOT_FOUND) /\
  (forall fuel haystack needle start options,
     use_regex options = true ->
     regex_ctor
       (if match_whole_word options
        then wx "\b" ++ ToStdString needle ++ wx "\b"
        else ToStdString needle)
       (negb (match_case options)) = None ->
     find_text fuel haystack needle start options = Some wxNOT_FOUND) /\
  (forall fuel haystack needle start options (rx : regex),
     use_regex options = true -> forward options = true ->
     regex_ctor
       (if match_whole_word options
        then wx "\b" ++ ToStdString needle ++ wx "\b"
        else ToStdString needle)
       (negb (match_case options)) = Some rx ->
     regex_search rx (ToStdString haystack)
       (Z.to_nat (Z.min (to_size_t start)
                    (Z.of_nat (length (ToStdString haystack)))))
       (length (ToStdString haystack)) = SearchThrows ->
     find_text fuel haystack needle start options = Some wxNOT_FOUND) /\
  (forall fuel (rx : regex) text end_ cur last_match,
     cur <= end_ -> regex_search rx text cur end_ = SearchThrows ->
     regex_backward_loop (S fuel) rx text end_ cur last_match
       = Some wxNOT_FOUND) /\
  (search_within_range E ->
   forall fuel haystack needle start options,
     (Z.of_nat (length haystack) < 2 ^ 63)%Z ->
     length haystack + 2 <= fuel ->
     length (ToStdString haystack) + 2 <= fuel ->
     exists r, find_text fuel haystack needle start options = Some r /\
       (r = wxNOT_FOUND \/ (0 <= r)%Z)).
Proof.
  split; [|split; [|split; [|split]]].
  - reflexivity.
  - intros fuel haystack needle start options Hr Hctor.
    unfold find_text, find_text_regex.
    destruct (IsEmpty needle); [reflexivity|]. rewrite Hr, Hctor. reflexivity.
  - intros fuel haystack needle start options rx Hr Hf Hctor Hthrow.
    unfold find_text, find_text_regex.
    destruct (IsEmpty needle); [reflexivity|]. rewrite Hr, Hctor, Hf, Hthrow.
    reflexivity.
  - intros fuel rx text end_ cur last Hcur Hthrow.
    rewrite regex_backward_loop_S, Hthrow.
    replace (cur <=? end_) with true by (symmetry; apply Nat.leb_le; exact Hcur).
    reflexivity.
  - intros Hrange fuel haystack needle start options Hlen Hfuel Hfuel'.
    unfold find_text. destruct (IsEmpty needle) eqn:Een.
    { exists wxNOT_FOUND. auto. }
    assert (Hne : needle <> []) by (intros ->; discriminate).
    destruct (use_regex options).
    + unfold find_text_regex.
      destruct (regex_ctor _ _) as [rx|]; [|exists wxNOT_FOUND; auto].
      destruct (forward options).
      * destruct (regex_search rx _ _ _) as [| |p q];
          eexists; (split; [reflexivity|]); auto. right. lia.
      * destruct (regex_backward_loop_returns rx (ToStdString haystack)
                    (Z.to_nat (Z.min (to_size_t start)
                                 (Z.of_nat (length (ToStdString haystack)))))
                    Hrange fuel 0 wxNOT_FOUND) as (r & Hres & Hcase); [lia|lia|].
        exists r. split; [exact Hres|].
        destruct Hcase as [->|[->|(p & -> & _)]]; auto. right. lia.
    + apply find_text_literal_outcome; auto.
Qed.

End SearchOutcomes.

Lemma find_text_error_collapse_witness :
  find_text 13 (wx "Cat dog cot") (wx "(") 0
    (mk_find_options true false false true) = Some wxNOT_FOUND /\
  exists r,
    find_text 13 (wx "Cat dog cot") (wx "c.t") 11
      (mk_find_options false false false true) = Some r /\
    (r = wxNOT_FOUND \/ (0 <= r)%Z).
Proof.
  destruct (find_text_error_collapse (L := c_locale) (E := ref_engine))
    as (_ & Hctor & _ & _ & Hout).
  split.
  - apply Hctor; reflexivity.
  - apply Hout.
    + exact ref_engine_within_range.
    + simpl. lia.
    + simpl. lia.
    + simpl. lia.
Defined.

(** * Further properties of the code *)

(** ** When [populate_toc_items] is defined *)

(** X4: [populate_toc_items] is undefined exactly when some entry has the
    depth [MAX_DEPTH]; in every other case it returns the vector it was
    given with the accepted entries added, and the pre-order of the result
    is that of the vector followed by the accepted entries in their input
    order. *)
Theorem populate_toc_items_defined (toc_items : list toc_item)
  (es : list FfiTocItem) :
  (populate_toc_items toc_items es = None <->
   exists e, In e es /\ ffi_depth e = MAX_DEPTH) /\
  (forall F, populate_toc_items toc_items es = Some F ->
     preorder F = preorder toc_items ++ map toc_label (filter depth_in_range es)).
Proof.
  assert (Hsome : Forall (fun e => ffi_depth e <> MAX_DEPTH) es ->
            exists F, populate_toc_items toc_items es = Some F /\
              preorder F =
              preorder toc_items ++ map toc_label (filter depth_in_range es)).
  { intros Hall. destruct (initial_state_wf 32 toc_items) as [_ Hwf].
    destruct (attach_loop_spec 33 _ _ Hwf (toc_events_good_below es Hall))
      as (st & Hloop & _ & Hpre).
    exists (result st). split.
    - rewrite populate_toc_items_unfold, (populate_loop_attach_below es _ Hall), Hloop.
      reflexivity.
    - rewrite Hpre, map_map. reflexivity. }
  assert (Hdec : Forall (fun e => ffi_depth e <> MAX_DEPTH) es \/
                 exists e, In e es /\ ffi_depth e = MAX_DEPTH).
  { clear Hsome. induction es as [|e es IH]; [left; constructor|].
    destruct (Z.eq_dec (ffi_depth e) MAX_DEPTH) as [Heq|Hne].
    - right. exists e. split; [left; reflexivity|exact Heq].
    - destruct IH as [IH|(x & Hx & Hd)].
      + left. constructor; assumption.
      + right. exists x. split; [right; exact Hx|exact Hd]. }
  assert (Hnone : (exists e, In e es /\ ffi_depth e = MAX_DEPTH) ->
            populate_toc_items toc_items es = None).
  { intros (e & Hin & Hd). rewrite populate_toc_items_unfold.
    rewrite (populate_loop_max_depth es _ e
               (proj2 (initial_state_wf 32 toc_items)) Hin Hd).
    reflexivity. }
  split; [split|].
  - intros HN. destruct Hdec as [Hall|Hex]; [|exact Hex].
    destruct (Hsome Hall) as (F & HF & _). congruence.
  - exact Hnone.
  - intros F HF. destruct Hdec as [Hall|Hex].
    + destruct (Hsome Hall) as (F' & HF' & Hpre). congruence.
    + rewrite (Hnone Hex) in HF. discriminate.
Qed.

Lemma populate_some_below toc_items es F :
  populate_toc_items toc_items es = Some F ->
  Forall (fun e => ffi_depth e <> MAX_DEPTH) es.
Proof.
  intros HF. apply Forall_forall. intros e Hin Hd.
  rewrite populate_toc_items_unfold in HF.
  rewrite (populate_loop_max_depth es _ e
             (proj2 (initial_state_wf 32 toc_items)) Hin Hd) in HF.
  discriminate.
Qed.

(** ** The depth of the forests built *)

Lemma forest_height_firstn i : forall F,
  forest_height (firstn i F) <= forest_height F.
Proof.
  induction i as [|i IH]; intros [|n F]; cbn [firstn]; try (simpl; lia).
  rewrite !forest_height_cons. specialize (IH F). lia.
Qed.

Lemma forest_height_skipn i : forall F,
  forest_height (skipn i F) <= forest_height F.
Proof.
  induction i as [|i IH]; intros [|n F]; cbn [skipn]; try lia.
  rewrite forest_height_cons. specialize (IH F). lia.
Qed.

Lemma forest_height_replace i x F :
  forest_height (replace_nth i x F) <= Nat.max (forest_height F) (height x).
Proof.
  unfold replace_nth. rewrite forest_height_app, forest_height_cons.
  pose proof (forest_height_firstn i F). pose proof (forest_height_skipn (S i) F).
  lia.
Qed.

(** A node appended through a pointer [p] lies [length p + 1] levels
    deep. *)
Lemma push_back_at_height item : children item = [] -> forall p F F',
  push_back_at F p item = Some F' ->
  forest_height F' <= Nat.max (forest_height F) (S (length p)).
Proof.
  intros Hleaf. induction p as [|i p IH]; intros F F' Hpush.
  - injection Hpush as <-. rewrite forest_height_app, forest_height_cons.
    rewrite height_unfold, Hleaf. simpl. lia.
  - apply push_back_at_cons in Hpush. destruct Hpush as (n & cs & Hn & Hcs & ->).
    pose proof (forest_height_replace i (set_children n cs) F) as Hr.
    pose proof (forest_height_In n F (nth_error_In _ _ Hn)) as Hin.
    specialize (IH _ _ Hcs).
    rewrite height_unfold in Hr, Hin. cbn [children set_children] in Hr.
    simpl length. lia.
Qed.

Lemma attach_height size st lvl item :
  wf_state size st -> slot_depth st ->
  1 <= lvl -> lvl < size -> children item = [] ->
  exists st', attach size st lvl item = Some st' /\ wf_state size st' /\
    slot_depth st' /\
    forest_height (result st') <= Nat.max (forest_height (result st)) lvl.
Proof.
  intros Hwf Hdepth H1 Hlt Hleaf.
  destruct (attach_spec size st lvl item Hwf H1 Hlt)
    as (j & p & v & res & s2 & Hj & Hp & _ & _ & _ & Hpush & _ & Hatt & Hslots & Hwf').
  pose proof (Hdepth j p Hp) as Hpj.
  exists (mk_builder_state res s2). split; [exact Hatt|]. split; [exact Hwf'|].
  cbn [result stacks]. split.
  - intros i q Hq. cbn [stacks] in Hq. rewrite Hslots in Hq. unfold slots_after in Hq.
    destruct (i <? lvl) eqn:E1; nat_bool; [exact (Hdepth i q Hq)|].
    destruct (i =? lvl) eqn:E2; nat_bool.
    + injection Hq as <-. rewrite length_app. simpl. lia.
    + destruct (i <? size); discriminate.
  - pose proof (push_back_at_height item Hleaf p _ _ Hpush). lia.
Qed.

Lemma attach_loop_height size : forall evs st,
  wf_state size st -> slot_depth st -> Forall (good_event size) evs ->
  exists st', attach_loop size st evs = Some st' /\
    forest_height (result st') <= Nat.max (forest_height (result st)) (size - 1).
Proof.
  induction evs as [|[lvl item] evs IH]; intros st Hwf Hdepth Hall.
  - exists st. split; [reflexivity|lia].
  - inversion Hall as [|? ? (H1 & H2 & Hleaf) Hrest]; subst. cbn [fst snd] in *.
    destruct (attach_height size st lvl item Hwf Hdepth H1 H2 Hleaf)
      as (st1 & Hatt & Hwf1 & Hd1 & Hh1).
    destruct (IH st1 Hwf1 Hd1 Hrest) as (st' & Hloop & Hh).
    exists st'. cbn [attach_loop]. rewrite Hatt. cbn [obind].
    split; [exact Hloop|lia].
Qed.

Lemma initial_slot_depth n F :
  slot_depth (mk_builder_state F (Some [] :: repeat None n)).
Proof.
  intros [|i] p H; cbn [stacks nth_error] in H.
  - injection H as <-. simpl. lia.
  - apply nth_error_In, repeat_spec in H. discriminate.
Qed.

(** X5: the forest built from the headings is at most [MAX_HEADING_LEVELS]
    levels deep; the flat entries add nodes at most [MAX_DEPTH] levels
    deep to the vector they are appended to. *)
Theorem built_forest_height (MAX : nat) :
  (forall ms, exists F, build_toc_from_headings MAX ms = Some F /\
     forest_height F <= MAX) /\
  (forall toc_items es F, populate_toc_items toc_items es = Some F ->
     forest_height F <= Nat.max (forest_height toc_items) 32).
Proof.
  split.
  - intros ms. destruct (initial_state_wf MAX []) as [_ Hwf].
    destruct (attach_loop_height (S MAX)
                (map heading_event (filter (heading_in_range MAX) ms)) _ Hwf
                (initial_slot_depth MAX [])) as (st & Hloop & Hh).
    { rewrite <- (Nat.add_1_r MAX). apply heading_events_good. }
    exists (result st). split.
    + rewrite build_toc_from_headings_unfold. unfold heading_init.
      rewrite Nat.add_1_r. cbn [vec_set repeat obind].
      rewrite heading_loop_attach, Nat.add_1_r, Hloop. reflexivity.
    + cbn [result] in Hh. simpl forest_height in Hh. lia.
  - intros toc_items es F HF.
    pose proof (populate_some_below toc_items es F HF) as Hall.
    destruct (initial_state_wf 32 toc_items) as [_ Hwf].
    destruct (attach_loop_height 33 (map toc_event (filter depth_in_range es)) _ Hwf
                (initial_slot_depth 32 toc_items) (toc_events_good_below es Hall))
      as (st & Hloop & Hh).
    rewrite populate_toc_items_unfold, (populate_loop_attach_below es _ Hall), Hloop in HF.
    injection HF as <-. cbn [result] in Hh. lia.
Qed.

Lemma built_forest_height_witness :
  exists F,
    populate_toc_items []
      [mk_FfiTocItem (wx "a") [] 0 0; mk_FfiTocItem (wx "b") [] 4 7;
       mk_FfiTocItem (wx "c") [] 9 31] = Some F /\
    forest_height F <= Nat.max (forest_height []) 32.
Proof.
  eexists. split; [reflexivity|].
  apply (proj2 (built_forest_height 6) []
           [mk_FfiTocItem (wx "a") [] 0 0; mk_FfiTocItem (wx "b") [] 4 7;
            mk_FfiTocItem (wx "c") [] 9 31]).
  reflexivity.
Defined.

(** ** Entries that never go deeper *)

Lemma populate_loop_flat : forall es st b,
  wf_state 33 st ->
  Forall (fun e => (0 <= ffi_depth e < MAX_DEPTH)%Z) es ->
  StronglySorted (fun a c => (ffi_depth c <= ffi_depth a)%Z) es ->
  Forall (fun e => S (Z.to_nat (ffi_depth e)) <= b) es ->
  (forall k, 1 <= k -> k < b -> nth_error (stacks st) k = Some None) ->
  exists st', populate_loop st es = Some st' /\
    result st' = load_flat_toc (result st) es.
Proof.
  induction es as [|e es IH]; intros st b Hwf Hrange Hsorted Hb Hclosed.
  - exists st. split; reflexivity.
  - inversion Hrange as [|? ? He Hrange']; subst.
    inversion Hsorted as [|? ? Hsorted' Hle]; subst.
    inversion Hb as [|? ? Hbe Hb']; subst.
    assert (Hr : depth_in_range e = true).
    { unfold depth_in_range, MAX_DEPTH in *.
      replace (ffi_depth e <? 0)%Z with false by (symmetry; apply Z.ltb_ge; lia).
      replace (ffi_depth e >? 32)%Z with false
        by (symmetry; rewrite Z.gtb_ltb; apply Z.ltb_ge; lia).
      reflexivity. }
    cbn [populate_loop]. rewrite (populate_step_attach st e Hr (proj2 He)).
    cbn [toc_event fst snd].
    destruct (attach_spec 33 st (S (Z.to_nat (ffi_depth e)))
                (mk_toc_item (ffi_name e) (ffi_reference e) (ffi_offset e) []) Hwf)
      as (j & p & v & res & s2 & Hj & Hp & _ & _ & _ & Hpush & _ & Hatt & Hslots & Hwf').
    { lia. }
    { unfold MAX_DEPTH in He. lia. }
    assert (Hj0 : j = 0).
    { destruct j as [|j]; [reflexivity|].
      rewrite (Hclosed (S j)) in Hp by lia. discriminate. }
    subst j. rewrite (wf_root _ _ Hwf) in Hp. injection Hp as <-.
    injection Hpush as <-.
    rewrite Hatt. cbn [obind].
    destruct (IH (mk_builder_state
                    (result st ++ [mk_toc_item (ffi_name e) (ffi_reference e)
                                     (ffi_offset e) []]) s2)
                 (S (Z.to_nat (ffi_depth e))) Hwf' Hrange' Hsorted')
      as (st' & Hloop & Hres).
    + apply Forall_forall. intros x Hx.
      rewrite Forall_forall in Hle, Hrange'.
      specialize (Hle x Hx). specialize (Hrange' x Hx). cbn beta in *. lia.
    + intros k Hk1 Hk2. cbn [stacks]. rewrite Hslots. unfold slots_after.
      replace (k <? S (Z.to_nat (ffi_depth e))) with true
        by (symmetry; apply Nat.ltb_lt; lia).
      apply Hclosed; lia.
    + exists st'. split; [exact Hloop|]. rewrite Hres. reflexivity.
Qed.

(** X6: when the depths of the entries never increase along the sequence, no
    entry is nested: [populate_toc_items] returns what the loop of the
    earlier revision of the loader built, every entry a root, in order. *)
Theorem populate_toc_items_flat (toc_items : list toc_item) (es : list FfiTocItem) :
  Forall (fun e => (0 <= ffi_depth e < MAX_DEPTH)%Z) es ->
  StronglySorted (fun a c => (ffi_depth c <= ffi_depth a)%Z) es ->
  populate_toc_items toc_items es = Some (load_flat_toc toc_items es).
Proof.
  intros Hrange Hsorted. rewrite populate_toc_items_unfold.
  destruct (populate_loop_flat es
              (mk_builder_state toc_items (Some [] :: repeat None 32)) 33
              (proj2 (initial_state_wf 32 toc_items)) Hrange Hsorted)
    as (st & Hloop & Hres).
  - eapply Forall_impl; [|exact Hrange]. intros e He. cbn beta in He.
    unfold MAX_DEPTH in He. lia.
  - intros [|k] Hk1 Hk2; [lia|]. cbn [stacks nth_error].
    rewrite nth_error_repeat by lia. reflexivity.
  - rewrite Hloop. cbn [obind]. rewrite Hres. reflexivity.
Qed.

Lemma populate_toc_items_flat_witness :
  populate_toc_items [mk_toc_item (wx "old") [] 0 []]
    [mk_FfiTocItem (wx "a") (wx "r1") 3 2; mk_FfiTocItem (wx "b") (wx "r2") 5 2;
     mk_FfiTocItem (wx "c") (wx "r3") 8 0] =
  Some [mk_toc_item (wx "old") [] 0 []; mk_toc_item (wx "a") (wx "r1") 3 [];
        mk_toc_item (wx "b") (wx "r2") 5 []; mk_toc_item (wx "c") (wx "r3") 8 []].
Proof.
  apply (populate_toc_items_flat [mk_toc_item (wx "old") [] 0 []]
           [mk_FfiTocItem (wx "a") (wx "r1") 3 2; mk_FfiTocItem (wx "b") (wx "r2") 5 2;
            mk_FfiTocItem (wx "c") (wx "r3") 8 0]).
  - repeat constructor; cbn; unfold MAX_DEPTH; lia.
  - repeat constructor; cbn; lia.
Defined.

(** ** What a pass of [cleanup_toc] keeps *)

Section CleanupFurther.
Context {L : wx_locale}.

Lemma cleanup_toc_cons x F :
  cleanup_toc (x :: F) =
  set_children (collapse_check x) (cleanup_toc (children (collapse_check x)))
  :: cleanup_toc F.
Proof.
  rewrite (cleanup_toc_unfold (x :: F)), (cleanup_toc_unfold F). reflexivity.
Qed.

Lemma cleanup_toc_nil : cleanup_toc [] = [].
Proof. reflexivity. Qed.

Lemma node_count_cons x F :
  node_count (x :: F) = S (node_count (children x)) + node_count F.
Proof.
  unfold node_count. rewrite preorder_cons. cbn [length]. rewrite length_app.
  reflexivity.
Qed.

Lemma node_count_app F G : node_count (F ++ G) = node_count F + node_count G.
Proof. unfold node_count. rewrite preorder_app, length_app. reflexivity. Qed.

Lemma collapse_check_name x : name (collapse_check x) = name x.
Proof.
  unfold collapse_check. destruct (children x) as [|c rest]; [reflexivity|].
  destruct (collapse_pred x c); reflexivity.
Qed.

(** The check takes at most one node out of the children of a node, and
    takes one out exactly when it collapses the node. *)
Lemma collapse_check_count x :
  node_count (children (collapse_check x)) <= node_count (children x) /\
  (node_count (children (collapse_check x)) = node_count (children x) ->
   ~ collapses x).
Proof.
  unfold collapse_check, collapses.
  destruct (children x) as [|c rest] eqn:E.
  - rewrite E. split; [lia|]. intros _ H. exact H.
  - destruct (collapse_pred x c).
    + cbn [children]. rewrite node_count_app, node_count_cons. split; lia.
    + rewrite E. split; [lia|]. intros _ H. discriminate.
Qed.

(** A pass never adds a node, and a pass that loses none had nothing to
    collapse. *)
Lemma cleanup_toc_count : forall h F, forest_height F <= h ->
  node_count (cleanup_toc F) <= node_count F /\
  (node_count (cleanup_toc F) = node_count F -> Forall settled_item F).
Proof.
  induction h as [|h IHh]; intros F Hh.
  - destruct F as [|x F]; [rewrite cleanup_toc_nil; split; [lia|constructor]|].
    rewrite forest_height_cons, height_unfold in Hh. lia.
  - induction F as [|x F IHF]; [rewrite cleanup_toc_nil; split; [lia|constructor]|].
    rewrite forest_height_cons, height_unfold in Hh.
    destruct IHF as [HleF HeqF]; [lia|].
    pose proof (collapse_check_height x) as Hch.
    destruct (IHh (children (collapse_check x))) as [Hlec Heqc]; [lia|].
    destruct (collapse_check_count x) as [Hlex Heqx].
    rewrite cleanup_toc_cons, !node_count_cons. cbn [children set_children].
    split; [lia|].
    intros Heq.
    assert (Hnc : ~ collapses x) by (apply Heqx; lia).
    constructor; [|apply HeqF; lia].
    constructor; [exact Hnc|].
    rewrite (collapse_check_settled x Hnc) in Heqc. apply Heqc.
    rewrite (collapse_check_settled x Hnc) in *. lia.
Qed.

(** X7: the forests that a pass of [cleanup_toc] leaves as they are are those
    in which no node meets the condition of the check against its first
    child; they are also those that lose no node in the pass. *)
Theorem cleanup_toc_fixpoint (F : list toc_item) :
  (cleanup_toc F = F <-> Forall settled_item F) /\
  (node_count (cleanup_toc F) = node_count F <-> Forall settled_item F).
Proof.
  assert (H1 : Forall settled_item F -> cleanup_toc F = F).
  { intros H. unfold cleanup_toc. apply cleanup_toc_fuel_settled, H. }
  assert (H2 : node_count (cleanup_toc F) = node_count F -> Forall settled_item F).
  { apply (cleanup_toc_count (forest_height F) F). lia. }
  split; split; auto.
  - intros Heq. apply H2. rewrite Heq. reflexivity.
  - intros H. rewrite (H1 H). reflexivity.
Qed.

Lemma iter_fixpoint {A : Type} (f : A -> A) (x : A) n :
  f x = x -> Nat.iter n f x = x.
Proof. intros H. induction n; simpl; congruence. Qed.

Lemma iter_shift {A : Type} (f : A -> A) (x : A) n :
  Nat.iter (S n) f x = Nat.iter n f (f x).
Proof. induction n; simpl in *; congruence. Qed.

(** X8: a pass never adds a node, and repeating the pass as many times as the
    forest has nodes (or more) reaches a forest that a further pass leaves
    as it is: the duplication chains that one pass collapses in part are
    collapsed in full after finitely many. *)
Theorem cleanup_toc_stabilises (F : list toc_item) :
  node_count (cleanup_toc F) <= node_count F /\
  forall n, node_count F <= n ->
    cleanup_toc (Nat.iter n cleanup_toc F) = Nat.iter n cleanup_toc F.
Proof.
  split; [apply (cleanup_toc_count (forest_height F) F); lia|].
  intros n. revert F. induction n as [|n IH]; intros F Hn.
  - destruct F as [|x F]; [reflexivity|]. rewrite node_count_cons in Hn. lia.
  - rewrite iter_shift.
    destruct (cleanup_toc_count (forest_height F) F) as [Hle Heq]; [lia|].
    destruct (Nat.eq_dec (node_count (cleanup_toc F)) (node_count F)) as [E|E].
    + assert (Hfix : cleanup_toc F = F).
      { unfold cleanup_toc. apply cleanup_toc_fuel_settled, Heq, E. }
      rewrite Hfix, (iter_fixpoint cleanup_toc F n Hfix). exact Hfix.
    + apply IH. lia.
Qed.

Lemma subseq_app {A : Type} (a b c d : list A) :
  subseq a b -> subseq c d -> subseq (a ++ c) (b ++ d).
Proof.
  intros Hab Hcd. induction Hab; cbn [app].
  - exact Hcd.
  - apply subseq_skip. assumption.
  - apply subseq_take. assumption.
Qed.

Lemma names_of_cons x F :
  names_of (x :: F) = name x :: names_of (children x) ++ names_of F.
Proof.
  unfold names_of. rewrite preorder_cons. cbn [map]. rewrite map_app.
  reflexivity.
Qed.

Lemma names_of_app F G : names_of (F ++ G) = names_of F ++ names_of G.
Proof. unfold names_of. rewrite preorder_app, map_app. reflexivity. Qed.

Lemma collapse_check_names x :
  subseq (names_of (children (collapse_check x))) (names_of (children x)).
Proof.
  unfold collapse_check. destruct (children x) as [|c rest] eqn:E.
  - rewrite E. apply subseq_refl.
  - destruct (collapse_pred x c).
    + cbn [children]. rewrite names_of_app, names_of_cons.
      apply subseq_skip, subseq_refl.
    + rewrite E. apply subseq_refl.
Qed.

Lemma cleanup_toc_names_height : forall h F, forest_height F <= h ->
  subseq (names_of (cleanup_toc F)) (names_of F).
Proof.
  induction h as [|h IHh]; intros F Hh.
  - destruct F as [|x F]; [apply subseq_nil|].
    rewrite forest_height_cons, height_unfold in Hh. lia.
  - induction F as [|x F IHF]; [apply subseq_nil|].
    rewrite forest_height_cons, height_unfold in Hh.
    pose proof (collapse_check_height x) as Hch.
    rewrite cleanup_toc_cons, !names_of_cons.
    cbn [children set_children name]. rewrite collapse_check_name.
    apply subseq_take. apply subseq_app; [|apply IHF; lia].
    apply (subseq_trans _ (names_of (children (collapse_check x)))).
    + apply IHh. lia.
    + apply collapse_check_names.
Qed.

(** X9: a pass only takes nodes out: the names of the forest it returns, in
    pre-order, are those of the forest it was given with some left out,
    none added and none moved.  The roots all stay, under their names,
    and each root is cleaned independently of the others. *)
Theorem cleanup_toc_keeps_order (F G : list toc_item) :
  subseq (names_of (cleanup_toc F)) (names_of F) /\
  map name (cleanup_toc F) = map name F /\
  cleanup_toc (F ++ G) = cleanup_toc F ++ cleanup_toc G.
Proof.
  split; [|split].
  - apply (cleanup_toc_names_height (forest_height F)). lia.
  - rewrite cleanup_toc_unfold, map_map. apply map_ext. intros x.
    cbn [set_children name]. apply collapse_check_name.
  - rewrite !cleanup_toc_unfold. apply map_app.
Qed.

End CleanupFurther.

Lemma cleanup_toc_stabilises_witness :
  node_count
    [mk_toc_item (wx "x") [] 0
       [mk_toc_item (wx "x") [] 1
          [mk_toc_item (wx "x") [] 2 [mk_toc_item (wx "x") [] 3 []]]]] <= 4 /\
  cleanup_toc
    (Nat.iter 4 cleanup_toc
       [mk_toc_item (wx "x") [] 0
          [mk_toc_item (wx "x") [] 1
             [mk_toc_item (wx "x") [] 2 [mk_toc_item (wx "x") [] 3 []]]]]) =
  Nat.iter 4 cleanup_toc
    [mk_toc_item (wx "x") [] 0
       [mk_toc_item (wx "x") [] 1
          [mk_toc_item (wx "x") [] 2 [mk_toc_item (wx "x") [] 3 []]]]].
Proof.
  split; [vm_compute; lia|].
  apply (proj2 (cleanup_toc_stabilises
    [mk_toc_item (wx "x") [] 0
       [mk_toc_item (wx "x") [] 1
          [mk_toc_item (wx "x") [] 2 [mk_toc_item (wx "x") [] 3 []]]]])).
  vm_compute. lia.
Defined.

(** ** The plain literal search *)

Section LiteralFurther.
Context {L : wx_locale} {E : regex_engine}.

Lemma find_text_plain fuel haystack needle start options :
  needle <> [] -> use_regex options = false -> match_whole_word options = false ->
  find_text fuel haystack needle start options =
  Some (if forward options
        then to_long (find (if match_case options then haystack else Lower haystack)
                        (if match_case options then needle else Lower needle)
                        (to_size_t start))
        else to_long (rfind (Left (if match_case options then haystack
                                   else Lower haystack) (to_size_t start))
                        (if match_case options then needle else Lower needle))).
Proof.
  intros Hne Hr Hw. unfold find_text, find_text_literal.
  rewrite (IsEmpty_false needle Hne), Hr, Hw. reflexivity.
Qed.

(** X10: without [match_whole_word], the forward literal search returns the
    first offset at or after [start] where the needle occurs (both strings
    taken in lower case unless [match_case]), and [wxNOT_FOUND] exactly
    when it occurs nowhere from [start] on. *)
Theorem find_text_literal_forward (fuel : nat) (haystack needle : wxString)
  (start : Z) (options : find_options) :
  needle <> [] -> use_regex options = false -> match_whole_word options = false ->
  forward options = true ->
  (Z.of_nat (length haystack) < 2 ^ 63)%Z -> (0 <= start < 2 ^ 63)%Z ->
  let sh := if match_case options then haystack else Lower haystack in
  let sn := if match_case options then needle else Lower needle in
  exists r, find_text fuel haystack needle start options = Some r /\
    ((r = wxNOT_FOUND /\
      forall k, (start <= Z.of_nat k)%Z -> ~ occurs_at sh sn k) \/
     (exists p, r = Z.of_nat p /\ (start <= Z.of_nat p)%Z /\ occurs_at sh sn p /\
        forall k, (start <= Z.of_nat k)%Z -> k < p -> ~ occurs_at sh sn k)).
Proof.
  intros Hne Hr Hw Hf Hlen Hstart sh sn.
  rewrite (find_text_plain fuel haystack needle start options Hne Hr Hw), Hf.
  fold sh. fold sn. rewrite (to_size_t_small start) by lia.
  pose proof (search_form_length (match_case options) haystack) as Hsh. fold sh in Hsh.
  eexists. split; [reflexivity|].
  destruct (find_spec sh sn start (proj1 Hstart))
    as [[-> Hnone]|(p & -> & Hp & Hocc & Hmin)].
  - left. split; [apply to_long_npos|]. intros k Hk. apply Hnone. lia.
  - right. exists p. destruct Hocc as [Ho1 Ho2].
    rewrite to_long_small by lia.
    repeat split; auto; try lia.
    intros k Hk Hkp. apply Hmin; lia.
Qed.

(** X11: without [match_whole_word], the backward literal search returns the
    last offset where the needle occurs and ends at or before [start], and
    [wxNOT_FOUND] exactly when there is no such occurrence. *)
Theorem find_text_literal_backward (fuel : nat) (haystack needle : wxString)
  (start : Z) (options : find_options) :
  needle <> [] -> use_regex options = false -> match_whole_word options = false ->
  forward options = false ->
  (Z.of_nat (length haystack) < 2 ^ 63)%Z -> (0 <= start < 2 ^ 63)%Z ->
  let sh := if match_case options then haystack else Lower haystack in
  let sn := if match_case options then needle else Lower needle in
  exists r, find_text fuel haystack needle start options = Some r /\
    ((r = wxNOT_FOUND /\
      forall k, occurs_at sh sn k -> ~ (Z.of_nat (k + length needle) <= start)%Z) \/
     (exists p, r = Z.of_nat p /\ occurs_at sh sn p /\
        (Z.of_nat (p + length needle) <= start)%Z /\
        forall k, p < k -> occurs_at sh sn k ->
          ~ (Z.of_nat (k + length needle) <= start)%Z)).
Proof.
  intros Hne Hr Hw Hf Hlen Hstart sh sn.
  rewrite (find_text_plain fuel haystack needle start options Hne Hr Hw), Hf.
  fold sh. fold sn. rewrite (to_size_t_small start) by lia.
  pose proof (search_form_length (match_case options) haystack) as Hsh. fold sh in Hsh.
  pose proof (search_form_length (match_case options) needle) as Hsn. fold sn in Hsn.
  rewrite (Left_spec sh start (proj1 Hstart)).
  set (w := Nat.min (Z.to_nat start) (length sh)).
  assert (Hw' : w <= length sh) by (unfold w; lia).
  eexists. split; [reflexivity|].
  destruct (rfind_spec (firstn w sh) sn) as [[-> Hnone]|(p & -> & Hocc & Hmax)].
  - left. split; [apply to_long_npos|]. intros k Hk Hend.
    apply (Hnone k). apply occurs_at_firstn; [exact Hw'|].
    split; [exact Hk|]. destruct Hk as [_ Hk]. unfold w. lia.
  - right. exists p. apply occurs_at_firstn in Hocc; [|exact Hw'].
    destruct Hocc as [[Ho1 Ho2] Hpw].
    rewrite to_long_small by lia.
    split; [reflexivity|]. split; [split; assumption|]. split; [unfold w in *; lia|].
    intros k Hpk Hk Hend. apply (Hmax k Hpk).
    apply occurs_at_firstn; [exact Hw'|].
    split; [exact Hk|]. destruct Hk as [_ Hk]. unfold w. lia.
Qed.

End LiteralFurther.

Lemma find_text_literal_forward_witness :
  exists r,
    find_text 0 (wx "Hello World") (wx "world") 0
      (mk_find_options true false false false) = Some r /\
    exists p, r = Z.of_nat p /\
      occurs_at (Lower (wx "Hello World")) (Lower (wx "world")) p.
Proof.
  destruct (find_text_literal_forward (L := c_locale) (E := ref_engine)
              0 (wx "Hello World") (wx "world") 0
              (mk_find_options true false false false))
    as (r & Hr & Hcase).
  - discriminate.
  - reflexivity.
  - reflexivity.
  - reflexivity.
  - simpl. lia.
  - lia.
  - exists r. split; [exact Hr|].
    destruct Hcase as [[-> Hnone]|(p & -> & _ & Hocc & _)].
    + exfalso. apply (Hnone 6); [lia|]. split; [reflexivity|simpl; lia].
    + exists p. split; [reflexivity|exact Hocc].
Defined.

Lemma find_text_literal_backward_witness :
  exists r,
    find_text 0 (wx "abcabc") (wx "bc") 5
      (mk_find_options false true false false) = Some r /\
    exists p, r = Z.of_nat p /\ (Z.of_nat (p + 2) <= 5)%Z.
Proof.
  destruct (find_text_literal_backward (L := c_locale) (E := ref_engine)
              0 (wx "abcabc") (wx "bc") 5
              (mk_find_options false true false false))
    as (r & Hr & Hcase).
  - discriminate.
  - reflexivity.
  - reflexivity.
  - reflexivity.
  - simpl. lia.
  - lia.
  - exists r. split; [exact Hr|].
    destruct Hcase as [[-> Hnone]|(p & -> & _ & Hend & _)].
    + exfalso. apply (Hnone 1); [split; [reflexivity|simpl; lia]|simpl; lia].
    + exists p. split; [reflexivity|exact Hend].
Defined.

(** ** A negative start *)

Section NegativeStart.
Context {L : wx_locale} {E : regex_engine}.

Lemma to_size_t_negative z :
  (- 2 ^ 63 <= z < 0)%Z -> to_size_t z = (z + 2 ^ 64)%Z.
Proof.
  intros H. unfold to_size_t.
  rewrite <- (Z_mod_plus_full z 1 (2 ^ 64)). rewrite Z.mul_1_l.
  apply Z.mod_small. lia.
Qed.

Lemma Left_beyond s count :
  (Z.of_nat (length s) <= count)%Z -> Left s count = s.
Proof.
  intros H. unfold Left. destruct (Z.of_nat (length s) <? count)%Z eqn:Eb;
    [reflexivity|].
  apply Z.ltb_ge in Eb. replace (Z.to_nat count) with (length s) by lia.
  apply firstn_all.
Qed.

Lemma find_beyond s needle pos :
  (Z.of_nat (length s) < pos)%Z -> find s needle pos = npos.
Proof.
  intros H. unfold find.
  replace (Z.of_nat (length s) <? pos)%Z with true by (symmetry; apply Z.ltb_lt; lia).
  reflexivity.
Qed.

(** X12: [start] is a [long], converted to [size_t] where it is used.  When it
    is negative, the forward literal search returns [wxNOT_FOUND], and the
    backward literal search and both regular-expression searches behave
    as if [start] were the length of the text: the backward searches scan
    the whole text. *)
Theorem find_text_negative_start (fuel : nat) (haystack needle : wxString)
  (start : Z) (options : find_options) :
  (- 2 ^ 63 <= start < 0)%Z ->
  (Z.of_nat (length haystack) < 2 ^ 63)%Z ->
  (Z.of_nat (length (ToStdString haystack)) < 2 ^ 63)%Z ->
  (use_regex options = false -> forward options = true -> 1 <= fuel ->
   find_text fuel haystack needle start options = Some wxNOT_FOUND) /\
  (use_regex options = false -> forward options = false ->
   find_text fuel haystack needle start options =
   find_text fuel haystack needle (Z.of_nat (length haystack)) options) /\
  (use_regex options = true ->
   find_text fuel haystack needle start options =
   find_text fuel haystack needle
     (Z.of_nat (length (ToStdString haystack))) options).
Proof.
  intros Hstart Hlen Htext.
  pose proof (to_size_t_negative start Hstart) as Hu.
  pose proof (search_form_length (match_case options) haystack) as Hsh.
  split; [|split].
  - intros Hr Hf Hfuel. unfold find_text.
    destruct (IsEmpty needle); [reflexivity|]. rewrite Hr.
    unfold find_text_literal. rewrite Hf.
    destruct (match_whole_word options); cbn [negb].
    + destruct fuel as [|fuel]; [lia|].
      rewrite whole_word_loop_S. cbv zeta.
      rewrite find_beyond by (rewrite Hsh, Hu; lia).
      rewrite to_long_npos. reflexivity.
    + rewrite find_beyond by (rewrite Hsh, Hu; lia).
      rewrite to_long_npos. reflexivity.
  - intros Hr Hf. unfold find_text.
    destruct (IsEmpty needle); [reflexivity|]. rewrite Hr.
    unfold find_text_literal. rewrite Hf.
    assert (HL : Left (if match_case options then haystack else Lower haystack)
                   (to_size_t start) =
                 Left (if match_case options then haystack else Lower haystack)
                   (to_size_t (Z.of_nat (length haystack)))).
    { rewrite (to_size_t_small (Z.of_nat (length haystack))) by lia.
      rewrite !Left_beyond; [reflexivity|rewrite Hsh; lia|rewrite Hsh, Hu; lia]. }
    destruct (match_whole_word options); cbn [negb].
    + destruct fuel as [|fuel]; [reflexivity|].
      rewrite !whole_word_loop_S. cbv zeta. rewrite HL. reflexivity.
    + rewrite HL. reflexivity.
  - intros Hr. unfold find_text.
    destruct (IsEmpty needle); [reflexivity|]. rewrite Hr.
    unfold find_text_regex.
    rewrite (to_size_t_small (Z.of_nat (length (ToStdString haystack)))) by lia.
    rewrite Hu. rewrite Z.min_r by lia. rewrite Z.min_id. reflexivity.
Qed.

End NegativeStart.

Lemma find_text_negative_start_witness :
  find_text 5 (wx "abcabc") (wx "bc") (-1)
    (mk_find_options true true false false) = Some wxNOT_FOUND /\
  find_text 5 (wx "abcabc") (wx "bc") (-1)
    (mk_find_options false true false false) =
  find_text 5 (wx "abcabc") (wx "bc") 6
    (mk_find_options false true false false).
Proof.
  destruct (find_text_negative_start (L := c_locale) (E := ref_engine)
              5 (wx "abcabc") (wx "bc") (-1)
              (mk_find_options true true false false)) as (H1 & _ & _);
    [lia|simpl; lia|simpl; lia|].
  destruct (find_text_negative_start (L := c_locale) (E := ref_engine)
              5 (wx "abcabc") (wx "bc") (-1)
              (mk_find_options false true false false)) as (_ & H2 & _);
    [lia|simpl; lia|simpl; lia|].
  split.
  - apply H1; [reflexivity|reflexivity|lia].
  - apply H2; reflexivity.
Defined.

(** ** When the backward whole-word search is exact *)

Section WholeWordBackward.
Context {L : wx_locale}.
Variables (haystack needle search_haystack search_needle : wxString).
Hypothesis Hsh : length search_haystack = length haystack.
Hypothesis Hsn : length search_needle = length needle.
Hypothesis Hlen : (Z.of_nat (length haystack) < 2 ^ 63)%Z.

(** No occurrence overlaps or touches the end of a whole-word occurrence
    before it. *)
Hypothesis Hapart : forall k c,
  occurs_at search_haystack search_needle k ->
  whole_word_at haystack (length needle) k ->
  occurs_at search_haystack search_needle c ->
  k < c -> k + length needle < c.

Lemma whole_word_loop_backward_exact : forall fuel pos,
  Nat.min (Z.to_nat (to_size_t pos)) (length haystack) + 1 <= fuel ->
  exists r,
    whole_word_loop haystack needle search_haystack search_needle false fuel pos
      = Some r /\
    ((r = wxNOT_FOUND /\
      forall k, occurs_at search_haystack search_needle k ->
        (Z.of_nat (k + length needle) <= to_size_t pos)%Z ->
        ~ whole_word_at haystack (length needle) k) \/
     (exists p, r = Z.of_nat p /\
        occurs_at search_haystack search_needle p /\
        (Z.of_nat (p + length needle) <= to_size_t pos)%Z /\
        whole_word_at haystack (length needle) p /\
        forall k, p < k -> occurs_at search_haystack search_needle k ->
          (Z.of_nat (k + length needle) <= to_size_t pos)%Z ->
          ~ whole_word_at haystack (length needle) k)).
Proof.
  induction fuel as [|fuel IH]; intros pos Hfuel; [lia|].
  rewrite whole_word_loop_S. cbv zeta.
  pose proof (to_size_t_range pos) as Hu.
  rewrite (Left_spec search_haystack (to_size_t pos) (proj1 Hu)).
  set (w := Nat.min (Z.to_nat (to_size_t pos)) (length search_haystack)).
  assert (Hw : w <= length search_haystack) by (unfold w; lia).
  assert (Hwin : forall k, occurs_at search_haystack search_needle k ->
            (Z.of_nat (k + length needle) <= to_size_t pos)%Z ->
            occurs_at (firstn w search_haystack) search_needle k).
  { intros k Hk Hend. apply occurs_at_firstn; [exact Hw|].
    split; [exact Hk|]. destruct Hk as [_ Hk]. unfold w. lia. }
  destruct (rfind_spec (firstn w search_haystack) search_needle)
    as [[Hf Hnone]|(c & Hf & Hocc & Hmax)]; rewrite Hf.
  - rewrite to_long_npos. exists wxNOT_FOUND. split; [reflexivity|]. left.
    split; [reflexivity|]. intros k Hk Hend _. exact (Hnone k (Hwin k Hk Hend)).
  - apply occurs_at_firstn in Hocc; [|exact Hw]. destruct Hocc as [Hocc Hcw].
    assert (Hcl : c + length needle <= length haystack) by (unfold w in *; lia).
    rewrite to_long_small by lia.
    replace (Z.of_nat c =? wxNOT_FOUND)%Z with false
      by (symmetry; apply Z.eqb_neq; unfold wxNOT_FOUND; lia).
    assert (Hlater : forall k, c < k ->
              occurs_at search_haystack search_needle k ->
              (Z.of_nat (k + length needle) <= to_size_t pos)%Z -> False).
    { intros k Hck Hk Hend. exact (Hmax k Hck (Hwin k Hk Hend)). }
    destruct (word_check haystack needle (Z.of_nat c)) eqn:Ec.
    + exists (Z.of_nat c). split; [reflexivity|]. right. exists c.
      split; [reflexivity|]. split; [exact Hocc|]. split; [unfold w in *; lia|].
      split; [exact (proj1 (word_check_spec haystack needle search_haystack search_needle Hsh Hsn Hlen c Hcl) Ec)|].
      intros k Hck Hk Hend _. exact (Hlater k Hck Hk Hend).
    + assert (Hrej : ~ whole_word_at haystack (length needle) c).
      { intros Hww. apply (proj2 (word_check_spec haystack needle search_haystack search_needle Hsh Hsn Hlen c Hcl)) in Hww.
        congruence. }
      cbn [andb negb].
      destruct (Z.of_nat c - 1 <? 0)%Z eqn:Eneg.
      * apply Z.ltb_lt in Eneg. exists wxNOT_FOUND. split; [reflexivity|]. left.
        split; [reflexivity|]. intros k Hk Hend Hww.
        destruct (Nat.lt_trichotomy k c) as [Hkc|[->|Hkc]];
          [lia|contradiction|exact (Hlater k Hkc Hk Hend)].
      * apply Z.ltb_ge in Eneg.
        destruct (IH (Z.of_nat c - 1)%Z) as (r & Hr & Hres).
        { rewrite to_size_t_small by lia. unfold w in *. lia. }
        rewrite to_size_t_small in Hres by lia.
        exists r. split; [exact Hr|].
        assert (Hbelow : forall k, k < c ->
                  occurs_at search_haystack search_needle k ->
                  whole_word_at haystack (length needle) k ->
                  (Z.of_nat (k + length needle) <= Z.of_nat c - 1)%Z).
        { intros k Hkc Hk Hww. pose proof (Hapart k c Hk Hww Hocc Hkc). lia. }
        destruct Hres as [[-> Hall]|(q & -> & Hoq & Hq & Hwq & Hmaxq)].
        -- left. split; [reflexivity|]. intros k Hk Hend Hww.
           destruct (Nat.lt_trichotomy k c) as [Hkc|[->|Hkc]];
             [|contradiction|exact (Hlater k Hkc Hk Hend)].
           exact (Hall k Hk (Hbelow k Hkc Hk Hww) Hww).
        -- right. exists q. split; [reflexivity|]. split; [exact Hoq|].
           split; [unfold w in *; lia|]. split; [exact Hwq|].
           intros k Hqk Hk Hend Hww.
           destruct (Nat.lt_trichotomy k c) as [Hkc|[->|Hkc]];
             [|contradiction|exact (Hlater k Hkc Hk Hend)].
           exact (Hmaxq k Hqk Hk (Hbelow k Hkc Hk Hww) Hww).
Qed.

End WholeWordBackward.

Section WholeWordBackwardTheorem.
Context {L : wx_locale} {E : regex_engine}.

Lemma starts_with_nth needle : forall s j,
  starts_with needle s = true -> j < length needle ->
  nth j s zero = nth j needle zero.
Proof.
  induction needle as [|x needle IH]; intros s j H Hj; simpl in Hj; [lia|].
  destruct s as [|y s]; [discriminate|]. simpl in H.
  apply andb_true_iff in H. destruct H as [Hxy H].
  apply Ascii.eqb_eq in Hxy. subst y.
  destruct j as [|j]; [reflexivity|]. simpl. apply IH; [exact H|lia].
Qed.

Lemma nth_after_skipn {A : Type} (d : A) : forall c (l : list A) j,
  nth j (skipn c l) d = nth (c + j) l d.
Proof.
  induction c as [|c IH]; intros l j; [reflexivity|].
  destruct l as [|x l]; [destruct j; reflexivity|]. simpl. apply IH.
Qed.

(** A needle made of alphanumeric characters only: between a whole-word
    occurrence and a later occurrence there is at least one character. *)
Lemma alnum_needle_apart haystack needle :
  Forall (fun ch => wxIsalnum ch = true) needle ->
  forall k c,
    occurs_at haystack needle k -> whole_word_at haystack (length needle) k ->
    occurs_at haystack needle c -> k < c -> k + length needle < c.
Proof.
  intros Halnum k c _ [_ Hafter] [Hc Hcl] Hkc.
  destruct (Nat.lt_ge_cases (k + length needle) c) as [Hlt|Hge]; [exact Hlt|].
  exfalso. destruct Hafter as [Hend|Hna]; [lia|].
  assert (Hj : k + length needle - c < length needle) by lia.
  pose proof (starts_with_nth needle _ _ Hc Hj) as Hnth.
  rewrite nth_after_skipn in Hnth.
  replace (c + (k + length needle - c)) with (k + length needle) in Hnth by lia.
  rewrite Hnth in Hna.
  rewrite Forall_forall in Halnum.
  rewrite (Halnum _ (nth_In needle zero Hj)) in Hna. discriminate.
Qed.

(** X13: with [match_case] and a needle made of alphanumeric characters only,
    the backward whole-word search is exact: it returns the last
    occurrence that ends at or before [start] and passes both boundary
    tests, and [wxNOT_FOUND] exactly when there is none. *)
Theorem find_text_whole_word_backward_alnum (fuel : nat)
  (haystack needle : wxString) (start : Z) (options : find_options) :
  needle <> [] -> Forall (fun ch => wxIsalnum ch = true) needle ->
  match_whole_word options = true -> use_regex options = false ->
  forward options = false -> match_case options = true ->
  (Z.of_nat (length haystack) < 2 ^ 63)%Z -> (0 <= start < 2 ^ 63)%Z ->
  length haystack + 2 <= fuel ->
  exists r, find_text fuel haystack needle start options = Some r /\
    ((r = wxNOT_FOUND /\
      forall k, occurs_at haystack needle k ->
        (Z.of_nat (k + length needle) <= start)%Z ->
        ~ whole_word_at haystack (length needle) k) \/
     (exists p, r = Z.of_nat p /\ occurs_at haystack needle p /\
        (Z.of_nat (p + length needle) <= start)%Z /\
        whole_word_at haystack (length needle) p /\
        forall k, p < k -> occurs_at haystack needle k ->
          (Z.of_nat (k + length needle) <= start)%Z ->
          ~ whole_word_at haystack (length needle) k)).
Proof.
  intros Hne Halnum Hw Hr Hf Hc Hlen Hstart Hfuel.
  rewrite (find_text_whole_word fuel haystack needle start options Hne Hw Hr), Hf, Hc.
  destruct (whole_word_loop_backward_exact haystack needle haystack needle
              eq_refl eq_refl Hlen (alnum_needle_apart haystack needle Halnum)
              fuel start) as (r & Hres & Hcase).
  - pose proof (to_size_t_range start). lia.
  - rewrite to_size_t_small in Hcase by lia.
    exists r. split; [exact Hres|exact Hcase].
Qed.

End WholeWordBackwardTheorem.

Lemma find_text_whole_word_backward_alnum_witness :
  exists r,
    find_text 17 (wx "cat catalog cat") (wx "cat") 14
      (mk_find_options false true true false) = Some r /\
    exists p, r = Z.of_nat p /\ (Z.of_nat (p + 3) <= 14)%Z /\
      whole_word_at (wx "cat catalog cat") 3 p.
Proof.
  destruct (find_text_whole_word_backward_alnum (L := c_locale) (E := ref_engine)
              17 (wx "cat catalog cat") (wx "cat") 14
              (mk_find_options false true true false))
    as (r & Hr & Hcase).
  - discriminate.
  - repeat constructor.
  - reflexivity.
  - reflexivity.
  - reflexivity.
  - reflexivity.
  - simpl. lia.
  - lia.
  - simpl. lia.
  - exists r. split; [exact Hr|].
    destruct Hcase as [[-> Hnone]|(p & -> & _ & Hend & Hww & _)].
    + exfalso. apply (Hnone 0).
      * split; [reflexivity|simpl; lia].
      * simpl. lia.
      * split; [left; reflexivity|right; reflexivity].
    + exists p. auto.
Defined.

(** ** The forward regular-expression search *)

Section RegexForward.
Context {L : wx_locale} {E : regex_engine}.

(** X14: a forward regular-expression search needs no loop: it returns
    [wxNOT_FOUND] or an offset into the whole text that is neither before
    the clamped [start] nor after the end of the text.  In particular a
    [start] past the end searches the empty range at the end. *)
Theorem find_text_regex_forward (fuel : nat) (haystack needle : wxString)
  (start : Z) (options : find_options) :
  search_within_range E ->
  needle <> [] -> use_regex options = true -> forward options = true ->
  exists r, find_text fuel haystack needle start options = Some r /\
    (r = wxNOT_FOUND \/
     exists p, r = Z.of_nat p /\
       (Z.min (to_size_t start) (Z.of_nat (length (ToStdString haystack)))
          <= Z.of_nat p)%Z /\
       p <= length (ToStdString haystack)).
Proof.
  intros Hrange Hne Hr Hf. unfold find_text.
  rewrite (IsEmpty_false needle Hne), Hr. unfold find_text_regex. rewrite Hf.
  destruct (regex_ctor _ _) as [rx|]; [|exists wxNOT_FOUND; auto].
  destruct (regex_search rx _ _ _) as [| |p q] eqn:Es;
    [exists wxNOT_FOUND; auto ..|].
  exists (Z.of_nat p). split; [reflexivity|]. right. exists p.
  pose proof (to_size_t_range start) as Hs.
  destruct (Hrange _ _ _ _ _ _ Es) as (H1 & H2 & H3); [lia|].
  split; [reflexivity|]. lia.
Qed.

End RegexForward.

Lemma find_text_regex_forward_witness :
  exists r,
    find_text 0 (wx "Cat dog cot") (wx "c.t") 1
      (mk_find_options true true false true) = Some r /\
    (r = wxNOT_FOUND \/
     exists p, r = Z.of_nat p /\ (1 <= Z.of_nat p)%Z /\ p <= 11).
Proof.
  exact (find_text_regex_forward (L := c_locale) (E := ref_engine)
           0 (wx "Cat dog cot") (wx "c.t") 1
           (mk_find_options true true false true)
           ref_engine_within_range ltac:(discriminate) eq_refl eq_refl).
Defined.

(** ** The tables filled from the parser's result *)

Lemma fold_map_assign {X V : Type} (key : X -> list ascii) (val : X -> V) :
  forall es (m0 : string_map V) k,
    fold_left (fun m entry => map_assign m (key entry) (val entry)) es m0 k =
    match List.find (fun entry => wxString_eqb (key entry) k) (rev es) with
    | Some entry => Some (val entry)
    | None => m0 k
    end.
Proof.
  induction es as [|e es IH] using rev_ind; intros m0 k; [reflexivity|].
  rewrite fold_left_app, rev_app_distr. cbn [fold_left rev app List.find].
  unfold map_assign at 1. destruct (wxString_eqb (key e) k); [reflexivity|].
  apply IH.
Qed.

(** X15: [populate_id_positions]: whatever the table held before, afterwards an
    id maps to the offset of the last entry that carries it, and an id
    that no entry carries is absent. *)
Theorem populate_id_positions_last_wins (id_positions : string_map Z)
  (ffi_positions : list FfiIdPosition) (k : list ascii) :
  populate_id_positions id_positions ffi_positions k =
  option_map id_pos_offset
    (List.find (fun entry => wxString_eqb (id_pos_id entry) k) (rev ffi_positions)).
Proof.
  unfold populate_id_positions. rewrite fold_map_assign.
  destruct (List.find _ _); reflexivity.
Qed.

(** X16: [populate_manifest_items]: whatever the table held before, afterwards
    an id maps to the path of the last entry that carries it, and an id
    that no entry carries is absent. *)
Theorem populate_manifest_items_last_wins
  (manifest_items : string_map (list ascii))
  (ffi_manifest : list FfiManifestItem) (k : list ascii) :
  populate_manifest_items manifest_items ffi_manifest k =
  option_map manifest_path
    (List.find (fun entry => wxString_eqb (manifest_id entry) k) (rev ffi_manifest)).
Proof.
  unfold populate_manifest_items. rewrite fold_map_assign.
  destruct (List.find _ _); reflexivity.
Qed.

Lemma fold_emplace_back {A : Type} : forall (es v : list A),
  fold_left (fun v item => v ++ [item]) es v = v ++ es.
Proof.
  induction es as [|e es IH]; intros v; simpl.
  - symmetry. apply app_nil_r.
  - rewrite IH, <- app_assoc. reflexivity.
Qed.

(** X17: [populate_spine_items]: the spine is replaced by the parser's entries,
    duplicates included, in their order. *)
Theorem populate_spine_items_replaces (spine_items ffi_spine_items : list (list ascii)) :
  populate_spine_items spine_items ffi_spine_items = ffi_spine_items.
Proof.
  unfold populate_spine_items. apply fold_emplace_back.
Qed.

(** ** The closing tag of an FB2 file *)

Lemma starts_with_prefix needle : forall s,
  starts_with needle s = true -> firstn (length needle) s = needle.
Proof.
  induction needle as [|x needle IH]; intros s H; [reflexivity|].
  destruct s as [|y s]; [discriminate|]. simpl in H.
  apply andb_true_iff in H. destruct H as [Hxy H].
  apply Ascii.eqb_eq in Hxy. subst y. simpl. f_equal. apply IH. exact H.
Qed.

Lemma resize_shrink s n : n <= length s -> resize s n = firstn n s.
Proof.
  intros Hn. unfold resize. replace (n - length s) with 0 by lia.
  apply app_nil_r.
Qed.

Lemma fb2_cut_found xml_content p :
  (Z.of_nat (length xml_content) < 2 ^ 64)%Z ->
  occurs_at xml_content (wx "</FictionBook>") p ->
  (forall k, p < k -> ~ occurs_at xml_content (wx "</FictionBook>") k) ->
  fb2_cut_after_closing_tag xml_content = firstn (p + 14) xml_content.
Proof.
  intros Hlen Hocc Hmax. unfold fb2_cut_after_closing_tag.
  destruct (rfind_spec xml_content (wx "</FictionBook>"))
    as [[_ Hnone]|(p' & Hp' & Hocc' & Hmax')].
  { exfalso. exact (Hnone p Hocc). }
  assert (p' = p).
  { destruct (Nat.lt_trichotomy p p') as [Hlt|[Heq|Hgt]]; [|auto|].
    - exfalso. exact (Hmax p' Hlt Hocc').
    - exfalso. exact (Hmax' p Hgt Hocc). }
  subst p'. cbv zeta. rewrite Hp'.
  destruct Hocc as [_ Hl]. change (length (wx "</FictionBook>")) with 14 in *.
  replace (Z.of_nat p =? npos)%Z with false
    by (symmetry; apply Z.eqb_neq; unfold npos; lia).
  rewrite to_size_t_small by lia.
  rewrite resize_shrink by lia. f_equal. lia.
Qed.

Lemma fb2_cut_absent xml_content :
  (forall k, ~ occurs_at xml_content (wx "</FictionBook>") k) ->
  fb2_cut_after_closing_tag xml_content = xml_content.
Proof.
  intros Hnone. unfold fb2_cut_after_closing_tag.
  destruct (rfind_spec xml_content (wx "</FictionBook>"))
    as [[-> _]|(p' & _ & Hocc' & _)]; [reflexivity|].
  exfalso. exact (Hnone p' Hocc').
Qed.

(** X18: the truncation at the start of [fb2_parser::load]: a file without the
    closing tag is left as it is; otherwise it is cut right after the last
    closing tag, so that what remains is a prefix of the file that ends
    with the tag.  Cutting twice changes nothing more. *)
Theorem fb2_cut_after_closing_tag_spec (xml_content : list ascii) :
  (Z.of_nat (length xml_content) < 2 ^ 64)%Z ->
  (((forall k, ~ occurs_at xml_content (wx "</FictionBook>") k) /\
    fb2_cut_after_closing_tag xml_content = xml_content) \/
   (exists p,
      occurs_at xml_content (wx "</FictionBook>") p /\
      (forall k, p < k -> ~ occurs_at xml_content (wx "</FictionBook>") k) /\
      fb2_cut_after_closing_tag xml_content = firstn (p + 14) xml_content /\
      length (fb2_cut_after_closing_tag xml_content) = p + 14 /\
      skipn p (fb2_cut_after_closing_tag xml_content) = wx "</FictionBook>")) /\
  fb2_cut_after_closing_tag (fb2_cut_after_closing_tag xml_content)
    = fb2_cut_after_closing_tag xml_content.
Proof.
  intros Hlen.
  destruct (rfind_spec xml_content (wx "</FictionBook>"))
    as [[_ Hnone]|(p & _ & Hocc & Hmax)].
  - rewrite (fb2_cut_absent xml_content Hnone). split; [left; auto|].
    apply fb2_cut_absent. exact Hnone.
  - rewrite (fb2_cut_found xml_content p Hlen Hocc Hmax).
    pose proof Hocc as [Hs Hl]. change (length (wx "</FictionBook>")) with 14 in Hl.
    split.
    + right. exists p. split; [exact Hocc|]. split; [exact Hmax|].
      split; [reflexivity|]. split; [rewrite length_firstn; lia|].
      rewrite skipn_firstn_comm. replace (p + 14 - p) with 14 by lia.
      exact (starts_with_prefix (wx "</FictionBook>") _ Hs).
    + assert (Hw : p + 14 <= length xml_content) by exact Hl.
      rewrite (fb2_cut_found (firstn (p + 14) xml_content) p).
      * rewrite firstn_firstn. f_equal. lia.
      * rewrite length_firstn. lia.
      * apply (occurs_at_firstn xml_content _ (p + 14) p Hw). split; [exact Hocc|].
        change (length (wx "</FictionBook>")) with 14. lia.
      * intros k Hk Hk'.
        apply (occurs_at_firstn xml_content _ (p + 14) k Hw) in Hk'.
        exact (Hmax k Hk (proj1 Hk')).
Qed.

Lemma fb2_cut_after_closing_tag_spec_witness :
  fb2_cut_after_closing_tag (wx "<FictionBook>a</FictionBook>junk")
    = wx "<FictionBook>a</FictionBook>" /\
  fb2_cut_after_closing_tag
    (fb2_cut_after_closing_tag (wx "<FictionBook>a</FictionBook>junk"))
    = fb2_cut_after_closing_tag (wx "<FictionBook>a</FictionBook>junk").
Proof.
  split; [reflexivity|].
  apply (fb2_cut_after_closing_tag_spec (wx "<FictionBook>a</FictionBook>junk")).
  simpl. lia.
Defined.
